(** * Xcode colour-set exporter: theme grouping and export orchestration

    A shallow embedding of [files/xcode-theme.ts] (theme grouping) and of
    [src/index.ts] (the export entry point) of the xcode-color-set exporter,
    with the properties its specification states about them.

    JavaScript strings are sequences of UTF-16 code units; they are modelled
    as lists of [N].  The regular expressions of the source are run by a small
    backtracking matcher that follows the ECMAScript semantics of the
    constructs the source uses (literals, [\s], [\b], [*], [+], [$]). *)

From Stdlib Require Import List NArith Bool Arith Lia String Ascii.
Import ListNotations.

Set Implicit Arguments.

(* ================================================================= *)
(** ** Strings *)

Definition code_unit := N.
Definition jsstring := list code_unit.

(** A literal of the source, written as a Rocq string (ASCII only). *)
Definition str (s : string) : jsstring :=
  map N_of_ascii (list_ascii_of_string s).

Definition jsstring_eq_dec : forall a b : jsstring, {a = b} + {a <> b} :=
  list_eq_dec N.eq_dec.

Definition jsstring_eqb (a b : jsstring) : bool :=
  if jsstring_eq_dec a b then true else false.

(** JS truthiness of a string: the empty string is falsy. *)
Definition truthy (s : jsstring) : bool :=
  match s with [] => false | _ :: _ => true end.

(** ECMAScript WhiteSpace and LineTerminator code points: what [\s] matches
    and what [String.prototype.trim] strips. *)
Definition isWhiteSpace (c : code_unit) : bool :=
  ((9 <=? c) && (c <=? 13) || (c =? 32) || (c =? 160) || (c =? 5760)
   || (8192 <=? c) && (c <=? 8202) || (c =? 8232) || (c =? 8233)
   || (c =? 8239) || (c =? 8287) || (c =? 12288) || (c =? 65279))%N.

(** The word characters of [\w] and [\b] (no [u] or [i] flag):
    [A-Za-z0-9_]. *)
Definition isWordChar (c : code_unit) : bool :=
  ((48 <=? c) && (c <=? 57) || (65 <=? c) && (c <=? 90) || (c =? 95)
   || (97 <=? c) && (c <=? 122))%N.

Fixpoint dropWhile (p : code_unit -> bool) (s : jsstring) : jsstring :=
  match s with
  | [] => []
  | c :: s' => if p c then dropWhile p s' else s
  end.

Fixpoint takeWhile (p : code_unit -> bool) (s : jsstring) : jsstring :=
  match s with
  | [] => []
  | c :: s' => if p c then c :: takeWhile p s' else []
  end.

(** [String.prototype.trim]. *)
Definition trimStart (s : jsstring) : jsstring := dropWhile isWhiteSpace s.
Definition trimEnd (s : jsstring) : jsstring :=
  rev (dropWhile isWhiteSpace (rev s)).
Definition trim (s : jsstring) : jsstring := trimEnd (trimStart s).

(** [String.prototype.toLowerCase] restricted to the Basic Latin block: the
    instance used to evaluate the model on ASCII names.  The development is
    parametric in the lower-casing function. *)
Definition asciiToLowerCase (s : jsstring) : jsstring :=
  map (fun c => if ((65 <=? c) && (c <=? 90))%N then (c + 32)%N else c) s.

(* ================================================================= *)
(** ** Regular expressions *)

Module RegExp.

Inductive charclass :=
| Lit (c : code_unit)       (* a literal character *)
| WhiteSpaceClass.          (* \s *)

Inductive term :=
| Char (cs : charclass)     (* one character of the class *)
| Star (cs : charclass)     (* cs*  (greedy) *)
| Plus (cs : charclass)     (* cs+  (greedy) *)
| WordBoundary              (* \b *)
| EndOfInput.               (* $ (no multiline flag) *)

Definition regex := list term.

Definition inClass (cs : charclass) (c : code_unit) : bool :=
  match cs with
  | Lit d => N.eqb c d
  | WhiteSpaceClass => isWhiteSpace c
  end.

Definition isWordAt (c : option code_unit) : bool :=
  match c with Some c => isWordChar c | None => false end.

(** [\b]: exactly one of the characters around the position is a word
    character. *)
Definition atWordBoundary (prev : option code_unit) (s : jsstring) : bool :=
  xorb (isWordAt prev) (isWordAt (hd_error s)).

(** Greedy repetition of a class, then the continuation [k]; backtracks to
    shorter repetitions when [k] fails. *)
Fixpoint star (cs : charclass)
         (k : option code_unit -> jsstring -> option jsstring)
         (prev : option code_unit) (s : jsstring) : option jsstring :=
  match s with
  | c :: s' =>
      if inClass cs c then
        match star cs k (Some c) s' with
        | Some r => Some r
        | None => k prev s
        end
      else k prev s
  | [] => k prev s
  end.

(** Match [r] at the current position ([prev] is the character before it);
    returns what is left of the input after the match. *)
Fixpoint matchHere (r : regex) (prev : option code_unit) (s : jsstring)
  : option jsstring :=
  match r with
  | [] => Some s
  | Char cs :: r' =>
      match s with
      | c :: s' => if inClass cs c then matchHere r' (Some c) s' else None
      | [] => None
      end
  | Star cs :: r' => star cs (matchHere r') prev s
  | Plus cs :: r' =>
      match s with
      | c :: s' =>
          if inClass cs c then star cs (matchHere r') (Some c) s' else None
      | [] => None
      end
  | WordBoundary :: r' =>
      if atWordBoundary prev s then matchHere r' prev s else None
  | EndOfInput :: r' =>
      match s with
      | [] => matchHere r' prev []
      | _ :: _ => None
      end
  end.

(** [RegExp.prototype.test] (no [g] or [y] flag): is there a position of
    the input at which the expression matches? *)
Fixpoint search (r : regex) (prev : option code_unit) (s : jsstring) : bool :=
  match matchHere r prev s with
  | Some _ => true
  | None =>
      match s with
      | [] => false
      | c :: s' => search r (Some c) s'
      end
  end.

Definition test (r : regex) (s : jsstring) : bool := search r None s.

(** The loop of [RegExp.prototype[Symbol.split]]: [before] is the input
    before position [q], reversed; [acc] is the input between [p] and [q],
    reversed; [s] is the input from [q] on.  Every second iteration at
    least advances [q], so twice the length of the input is fuel enough. *)
Fixpoint splitLoop (fuel : nat) (r : regex) (before acc s : jsstring)
  : list jsstring :=
  match fuel with
  | O => [rev acc ++ s]
  | S fuel' =>
      match s with
      | [] => [rev acc]
      | c :: s' =>
          match matchHere r (hd_error before) s with
          | None => splitLoop fuel' r (c :: before) (c :: acc) s'
          | Some rest =>
              let k := (List.length s - List.length rest)%nat in
              match acc, k with
              | [], O => splitLoop fuel' r (c :: before) (c :: acc) s'
              | _, _ =>
                  rev acc
                  :: splitLoop fuel' r (rev (firstn k s) ++ before) [] rest
              end
          end
      end
  end.

(** [String.prototype.split] with a regular expression and no limit. *)
Definition split (r : regex) (s : jsstring) : list jsstring :=
  match s with
  | [] => match matchHere r None [] with Some _ => [] | None => [[]] end
  | _ :: _ => splitLoop (2 * List.length s) r [] [] s
  end.

Definition lits (s : string) : regex := map (fun c => Char (Lit c)) (str s).

End RegExp.

(* ================================================================= *)
(** ** Values of the host: numbers as strings, [join], [JSON.stringify] *)

Fixpoint digits (d : Decimal.uint) : jsstring :=
  match d with
  | Decimal.Nil => []
  | Decimal.D0 d => 48%N :: digits d
  | Decimal.D1 d => 49%N :: digits d
  | Decimal.D2 d => 50%N :: digits d
  | Decimal.D3 d => 51%N :: digits d
  | Decimal.D4 d => 52%N :: digits d
  | Decimal.D5 d => 53%N :: digits d
  | Decimal.D6 d => 54%N :: digits d
  | Decimal.D7 d => 55%N :: digits d
  | Decimal.D8 d => 56%N :: digits d
  | Decimal.D9 d => 57%N :: digits d
  end.

(** A length in a template literal. *)
Definition numberToString (n : nat) : jsstring := digits (Nat.to_uint n).

(** [Array.prototype.join] on an array of strings. *)
Fixpoint join (sep : jsstring) (l : list jsstring) : jsstring :=
  match l with
  | [] => []
  | [x] => x
  | x :: l' => x ++ sep ++ join sep l'
  end.

Module JSON.

#[warnings="-register-all"]
Inductive value :=
| Num (n : nat)
| Str (s : jsstring)
| Bool (b : bool)
| Obj (fields : list (jsstring * value)).

Definition hexDigit (n : N) : code_unit :=
  (if n <? 10 then 48 + n else 87 + n)%N.

(** [QuoteJSONString] on code units below the surrogate range. *)
Definition quoteChar (c : code_unit) : jsstring :=
  if (c =? 34)%N then str "\" ++ [34%N]
  else if (c =? 92)%N then str "\\"
  else if (c =? 8)%N then str "\b"
  else if (c =? 9)%N then str "\t"
  else if (c =? 10)%N then str "\n"
  else if (c =? 12)%N then str "\f"
  else if (c =? 13)%N then str "\r"
  else if (c <? 32)%N then str "\u00" ++ [hexDigit (c / 16); hexDigit (c mod 16)]
  else [c].

Definition quote (s : jsstring) : jsstring :=
  [34%N] ++ flat_map quoteChar s ++ [34%N].

(** [SerializeJSONProperty] with a gap, at the indentation [indent]. *)
Fixpoint serialize (gap indent : jsstring) (v : value) : jsstring :=
  match v with
  | Num n => numberToString n
  | Str s => quote s
  | Bool b => if b then str "true" else str "false"
  | Obj fields =>
      match fields with
      | [] => str "{}"
      | _ :: _ =>
          let stepback := indent in
          let indent := indent ++ gap in
          let properties :=
            (fix props (fs : list (jsstring * value)) : list jsstring :=
               match fs with
               | [] => []
               | (k, x) :: fs' =>
                   (quote k ++ str ": " ++ serialize gap indent x)
                   :: props fs'
               end) fields in
          str "{" ++ [10%N] ++ indent
          ++ join (str "," ++ [10%N] ++ indent) properties
          ++ [10%N] ++ stepback ++ str "}"
      end
  end.

(** [JSON.stringify(v, null, space)] for a number of spaces. *)
Definition stringify (v : value) (space : nat) : jsstring :=
  serialize (repeat 32%N (Nat.min space 10)) [] v.

End JSON.

(* ================================================================= *)
(** ** Data of the SDK and of the exporter *)

Module TokenTheme.
(** The fields of the SDK's [TokenTheme] that the exporter reads. *)
Record t := mk { id : jsstring; idInVersion : jsstring; name : jsstring }.

Definition eq_dec : forall a b : t, {a = b} + {a <> b}.
Proof. decide equality; apply jsstring_eq_dec. Defined.
End TokenTheme.

Module TokenType.
(** [TokenType.color] and the other members of the SDK's enumeration. *)
Inductive t := color | other (tag : jsstring).

Definition isColor (x : t) : bool :=
  match x with color => true | other _ => false end.
End TokenType.

Module Token.
(** The fields of the SDK's [Token] that the exporter reads; [value] stands
    for the rest of the token (its resolved value). *)
Record t := mk {
  id : jsstring;
  tokenType : TokenType.t;
  collectionId : option jsstring;
  value : jsstring }.
End Token.

Module TokenGroup.
Record t := mk { name : jsstring }.
End TokenGroup.

Module TokenCollection.
Record t := mk { persistentId : jsstring; name : jsstring }.
End TokenCollection.

Module StringCase.
(** The members of [StringCase] the exporter names, and the others. *)
Inductive t := kebabCase | pascalCase | other (tag : jsstring).
End StringCase.

Module ExporterConfiguration.
(** [../config]: the options the exporter reads. *)
Record t := mk {
  generateRootCatalog : bool;
  rootCatalogPath : jsstring;
  excludeCollectionsInPipelines : bool;
  excludedCollections : list jsstring;
  writeNameToProperty : bool;
  propertyToWriteNameTo : jsstring;
  folderNameStyle : option StringCase.t }.
End ExporterConfiguration.

Module PulsarContext.
Record t := mk {
  dsId : jsstring;
  versionId : jsstring;
  brandId : option jsstring;
  themeIds : option (list jsstring);
  isPreview : bool }.
End PulsarContext.

Module OutputTextFile.
Record t := mk { path : jsstring; name : jsstring; content : jsstring }.
End OutputTextFile.

(** An element of the array of output files.  The logger's file is one
    mutable object, shared between the logger and the array: it is held by
    reference.  The other files are not modified after their creation. *)
Inductive AnyOutputFile :=
| LoggerFile
| TextFile (f : OutputTextFile.t).

(** [FileHelper.createTextFile]: the text file carries the path, name and
    content it is created with. *)
Definition createTextFile (relativePath fileName content : jsstring)
  : OutputTextFile.t :=
  OutputTextFile.mk relativePath fileName content.

(** What the run does to the outside, in order: the file objects it creates,
    the requests for a per-token file it makes, and the property write-backs
    it sends.  A write-back is a call of
    [WriteTokenPropStore.writeTokenProperties], recorded with its three
    arguments: the property, the tokens, and the callback that names a
    token.  The callback is a closure over the name tracker; it is recorded
    as the names it returns, call after call, for the tokens it is called
    on, from the tracker as it is handed over.  What the library does with
    the arguments is not part of the sources and is not modelled. *)
Inductive Event :=
| FileCreated (f : AnyOutputFile)
| PerTokenFileRequested (baseToken : Token.t) (colorsPath : jsstring)
                        (variants : list Token.t)
| PropertiesWritten (property : jsstring) (tokens : list Token.t)
                    (callback : list Token.t -> list jsstring).

(* ================================================================= *)
(** ** The logger of [index.ts] and the module state *)

Module Logger.
(** [file] is the logger's output file; [messages] is the history of the
    calls of [log], oldest first. *)
Record t := mk { file : OutputTextFile.t; messages : list jsstring }.

(** [constructor(rootPath)] *)
Definition new (rootPath : jsstring) : t :=
  mk (createTextFile
        (if truthy rootPath then str "./" ++ rootPath ++ str "/" else [])
        (str "log.txt") [])
     [].

Definition getFile (l : t) : OutputTextFile.t := file l.

(** [log(message)] *)
Definition log (message : jsstring) (l : t) : t :=
  let line := message in
  let f := file l in
  let c := OutputTextFile.content f in
  mk (OutputTextFile.mk (OutputTextFile.path f) (OutputTextFile.name f)
        (if truthy c then c ++ [10%N] ++ line else line))
     (messages l ++ [line]).
End Logger.

(** The state of a run: the lazily created logger singleton of the module,
    and the events so far (oldest first). *)
Record World := mkWorld {
  globalLogger : option Logger.t;
  events : list Event }.

(** The file an element of the output array is, in a given state. *)
Definition deref (w : World) (f : AnyOutputFile) : option OutputTextFile.t :=
  match f with
  | LoggerFile => option_map Logger.getFile (globalLogger w)
  | TextFile f => Some f
  end.

(** Computations over the state that may throw. *)
Inductive Outcome (A : Type) :=
| Returned (a : A) (w : World)
| Thrown (error : jsstring) (w : World).
Arguments Thrown {A} error w.

Definition M (A : Type) := World -> Outcome A.

Definition ret {A} (a : A) : M A := fun w => Returned a w.
Definition bind {A B} (m : M A) (k : A -> M B) : M B :=
  fun w => match m w with
           | Returned a w' => k a w'
           | Thrown e w' => Thrown e w'
           end.
Definition throw {A} (e : jsstring) : M A := fun w => Thrown e w.

Notation "x <- m ;; k" := (bind m (fun x => k))
  (at level 61, m at next level, right associativity).
Notation "m ;;; k" := (bind m (fun _ => k))
  (at level 61, right associativity).

Fixpoint foldM {A B} (f : A -> B -> M A) (l : list B) (a : A) : M A :=
  match l with
  | [] => ret a
  | b :: l' => a' <- f a b ;; foldM f l' a'
  end.

Fixpoint mapM {A B} (f : A -> M B) (l : list A) : M (list B) :=
  match l with
  | [] => ret []
  | a :: l' => b <- f a ;; bs <- mapM f l' ;; ret (b :: bs)
  end.

Definition emit (e : Event) : M unit :=
  fun w => Returned tt (mkWorld (globalLogger w) (events w ++ [e])).

(** [getLogger(rootPath)]: the first call creates the singleton, and with it
    the log file. *)
Definition getLogger (rootPath : jsstring) : M unit :=
  fun w => match globalLogger w with
           | Some _ => Returned tt w
           | None =>
               Returned tt (mkWorld (Some (Logger.new rootPath))
                                    (events w ++ [FileCreated LoggerFile]))
           end.

(** [logger.log(message)]: every logger handle of the program is the
    singleton, which [getLogger] has created before. *)
Definition log (message : jsstring) : M unit :=
  fun w => match globalLogger w with
           | Some l =>
               Returned tt (mkWorld (Some (Logger.log message l)) (events w))
           | None => Returned tt w
           end.

(* ================================================================= *)
(** ** A JS [Map] with string keys: insertion-ordered, [set] on a present
       key keeps its position *)

Module JsMap.
Section Map.
Variable V : Type.

Definition t := list (jsstring * V).

Definition empty : t := [].

Fixpoint get (m : t) (k : jsstring) : option V :=
  match m with
  | [] => None
  | (k', v) :: m' => if jsstring_eq_dec k' k then Some v else get m' k
  end.

Fixpoint set (m : t) (k : jsstring) (v : V) : t :=
  match m with
  | [] => [(k, v)]
  | (k', v') :: m' =>
      if jsstring_eq_dec k' k then (k', v) :: m'
      else (k', v') :: set m' k v
  end.

(** [new Map(entries)] *)
Definition ofList (entries : list (jsstring * V)) : t :=
  fold_left (fun m e => set m (fst e) (snd e)) entries empty.

Definition has (m : t) (k : jsstring) : bool :=
  match get m k with Some _ => true | None => false end.
End Map.
Arguments empty {V}.
End JsMap.

(* ================================================================= *)
(** ** The host *)

(** [String.prototype.toLowerCase] and the clock. *)
Class Host := {
  toLowerCase : jsstring -> jsstring;
  toISOStringNow : jsstring }.

Definition asciiHost : Host :=
  {| toLowerCase := asciiToLowerCase; toISOStringNow := str "2025-01-01T00:00:00.000Z" |}.

(* ================================================================= *)
(** ** [files/xcode-theme.ts] *)

Module XcodeTheme.
Record t := mk {
  name : jsstring;
  lightTheme : option TokenTheme.t;
  darkTheme : option TokenTheme.t }.
End XcodeTheme.

Module ThemeVariant.
(** [type ThemeVariant = "light" | "dark"] *)
Inductive t := light | dark.

Definition eq_dec : forall a b : t, {a = b} + {a <> b}.
Proof. decide equality. Defined.

(** The string a variant is in the source. *)
Definition toString (v : t) : jsstring :=
  match v with light => str "light" | dark => str "dark" end.
End ThemeVariant.

Module ThemeVariantMap.
(** [Partial<Record<ThemeVariant, TokenTheme>>] *)
Record t := mk { light : option TokenTheme.t; dark : option TokenTheme.t }.
Definition empty : t := mk None None.
Definition get (e : t) (v : ThemeVariant.t) : option TokenTheme.t :=
  match v with
  | ThemeVariant.light => light e
  | ThemeVariant.dark => dark e
  end.
Definition set (e : t) (v : ThemeVariant.t) (th : TokenTheme.t) : t :=
  match v with
  | ThemeVariant.light => mk (Some th) (dark e)
  | ThemeVariant.dark => mk (light e) (Some th)
  end.
End ThemeVariantMap.

Definition isSome {A} (o : option A) : bool :=
  match o with Some _ => true | None => false end.

Import RegExp.

Section Grouper.

Context {host : Host}.

(** [/\blight\b$/] and [/\bdark\b$/] *)
Definition reWord (w : string) : regex :=
  WordBoundary :: lits w ++ [WordBoundary; EndOfInput].

Definition getThemeVariant (name : jsstring) : option ThemeVariant.t :=
  let normalized := toLowerCase (trim name) in
  if test (reWord "light") normalized then Some ThemeVariant.light
  else if test (reWord "dark") normalized then Some ThemeVariant.dark
  else None.

Definition deriveBaseThemeName (name : jsstring)
           (_variant : option ThemeVariant.t) : jsstring :=
  let trimmed := trim name in
  if negb (truthy trimmed) then trimmed
  else match split [Plus WhiteSpaceClass] trimmed with
       | base :: _ => base
       | [] => trimmed
       end.

Definition createThemeGroup (name : jsstring) (variants : ThemeVariantMap.t)
  : XcodeTheme.t :=
  XcodeTheme.mk name (ThemeVariantMap.light variants)
                (ThemeVariantMap.dark variants).

Definition skipMessage (t : TokenTheme.t) : jsstring :=
  str "Skipping theme '" ++ TokenTheme.name t
  ++ str "' because no light/dark suffix was detected.".

Definition duplicateMessage (variant : ThemeVariant.t) (base : jsstring)
  : jsstring :=
  str "Duplicate " ++ ThemeVariant.toString variant
  ++ str " theme found for base '" ++ base
  ++ str "'. Replacing existing theme.".

(** The body of the loop over the themes. *)
Definition groupStep (groups : JsMap.t ThemeVariantMap.t) (t : TokenTheme.t)
  : M (JsMap.t ThemeVariantMap.t) :=
  match getThemeVariant (TokenTheme.name t) with
  | None => log (skipMessage t) ;;; ret groups
  | Some variant =>
      let base := deriveBaseThemeName (TokenTheme.name t) (Some variant) in
      let entry := match JsMap.get groups base with
                   | Some e => e
                   | None => ThemeVariantMap.empty
                   end in
      (if isSome (ThemeVariantMap.get entry variant)
       then log (duplicateMessage variant base)
       else ret tt) ;;;
      ret (JsMap.set groups base (ThemeVariantMap.set entry variant t))
  end.

(** The loop that builds the result from the map, in the map's order. *)
Fixpoint collectGroups (groups : JsMap.t ThemeVariantMap.t)
  : list XcodeTheme.t :=
  match groups with
  | [] => []
  | (base, entry) :: rest =>
      if isSome (ThemeVariantMap.light entry)
         || isSome (ThemeVariantMap.dark entry)
      then createThemeGroup base entry :: collectGroups rest
      else collectGroups rest
  end.

Definition groupThemes (themes : list TokenTheme.t) : M (list XcodeTheme.t) :=
  match themes with
  | [] => ret []
  | _ :: _ =>
      getLogger [] ;;;
      groups <- foldM groupStep themes JsMap.empty ;;
      ret (collectGroups groups)
  end.

End Grouper.

(* ================================================================= *)
(** ** [src/index.ts] *)

Module RemoteVersionIdentifier.
Record t := mk { designSystemId : jsstring; versionId : jsstring }.
End RemoteVersionIdentifier.

Module Supernova.
(** The methods of [sdk.tokens] the exporter calls; a fetch is given by
    what it resolves to. *)
Record t := mk {
  getTokens : RemoteVersionIdentifier.t -> option jsstring -> list Token.t;
  getTokenGroups :
    RemoteVersionIdentifier.t -> option jsstring -> list TokenGroup.t;
  getTokenCollections : RemoteVersionIdentifier.t -> list TokenCollection.t;
  getTokenThemes : RemoteVersionIdentifier.t -> list TokenTheme.t;
  computeTokensByApplyingThemes :
    list Token.t -> list Token.t -> list TokenTheme.t -> list Token.t }.
End Supernova.

(** [Pulsar.exportConfig()] *)
Class Pulsar := { exportConfig : ExporterConfiguration.t }.

(** The helpers of [@supernovaio/export-utils] and of [./files/color-sets].
    [TokenNameTracker] is a mutable object: the functions that use it return
    its next state. *)
Class ExportUtils := {
  getThemeName : TokenTheme.t -> jsstring;
  codeSafeVariableName : jsstring -> StringCase.t -> jsstring;
  TokenNameTracker : Type;
  newTokenNameTracker : TokenNameTracker;
  getTokenName :
    TokenNameTracker -> Token.t -> list TokenGroup.t -> StringCase.t
    -> jsstring * TokenNameTracker;
  createCatalogRootFile : jsstring -> OutputTextFile.t;
  createPerTokenFile :
    Token.t -> list TokenGroup.t -> jsstring -> list Token.t
    -> TokenNameTracker -> StringCase.t
    -> option OutputTextFile.t * TokenNameTracker }.

Module ExportContext.
Record t := mk {
  sdk : Supernova.t;
  pulsarContext : PulsarContext.t;
  remoteVersionIdentifier : RemoteVersionIdentifier.t;
  rootPath : jsstring;
  exportConfiguration : ExporterConfiguration.t;
  tokens : list Token.t;
  tokenGroups : list TokenGroup.t;
  colorTokens : list Token.t }.
End ExportContext.

Definition yesNo {A} (o : option A) : jsstring :=
  if isSome o then str "yes" else str "no".

(** [s || d] on strings *)
Definition orElse (s d : jsstring) : jsstring := if truthy s then s else d.

Section Index.

Context {host : Host} {pulsar : Pulsar} {utils : ExportUtils}.

Definition exportConfiguration : ExporterConfiguration.t := exportConfig.

Definition resolveRootPath : jsstring :=
  if negb (ExporterConfiguration.generateRootCatalog exportConfiguration)
  then []
  else orElse (ExporterConfiguration.rootCatalogPath exportConfiguration)
              (str "Colors.xcassets").

Definition loadTokenData (sdk : Supernova.t)
           (remoteVersionIdentifier : RemoteVersionIdentifier.t)
           (filter : option jsstring)
  : list Token.t * list TokenGroup.t * list TokenCollection.t :=
  (Supernova.getTokens sdk remoteVersionIdentifier filter,
   Supernova.getTokenGroups sdk remoteVersionIdentifier filter,
   Supernova.getTokenCollections sdk remoteVersionIdentifier).

Definition namespaceMarker : JSON.value :=
  JSON.Obj
    [(str "info",
      JSON.Obj [(str "version", JSON.Num 1);
                (str "author", JSON.Str (str "xcode"))]);
     (str "properties",
      JSON.Obj [(str "provides-namespace", JSON.Bool true)])].

Definition createNameSpaceFolder (name rootPath : jsstring)
  : OutputTextFile.t :=
  let content := JSON.stringify namespaceMarker 2 in
  createTextFile
    (if truthy rootPath then str "./" ++ rootPath ++ str "/" ++ name
     else str "./" ++ name)
    (str "Contents.json")
    content.

Definition filterExcludedCollections (colorTokens : list Token.t)
           (tokenCollections : list TokenCollection.t)
  : M (list Token.t) :=
  if negb (ExporterConfiguration.excludeCollectionsInPipelines
             exportConfiguration)
     || Nat.eqb
          (List.length
             (ExporterConfiguration.excludedCollections exportConfiguration))
          0
  then
    log (str "Excluded collections enabled: no") ;;;
    ret colorTokens
  else
    let originalCount := List.length colorTokens in
    let excludedCollectionNames :=
      map (fun name => trim (toLowerCase name))
          (ExporterConfiguration.excludedCollections exportConfiguration) in
    let filtered :=
      filter
        (fun token =>
           let tokenCollection :=
             find (fun c =>
                     match Token.collectionId token with
                     | Some i =>
                         jsstring_eqb (TokenCollection.persistentId c) i
                     | None => false
                     end)
                  tokenCollections in
           match tokenCollection with
           | None => true
           | Some c =>
               negb (existsb
                       (jsstring_eqb
                          (trim (toLowerCase (TokenCollection.name c))))
                       excludedCollectionNames)
           end)
        colorTokens in
    log (str "Excluded collections enabled: yes") ;;;
    log (str "Excluded collections: "
         ++ join (str ", ")
              (ExporterConfiguration.excludedCollections
                 exportConfiguration)) ;;;
    log (str "Color tokens after exclusions: "
         ++ numberToString (List.length filtered)
         ++ str " (was " ++ numberToString originalCount ++ str ")") ;;;
    ret filtered.

Definition logGroupedThemes (groupedThemes : list XcodeTheme.t) : M unit :=
  match groupedThemes with
  | [] => log (str "Grouped themes: none")
  | _ :: _ =>
      let items :=
        join (str "; ")
          (map (fun group =>
                  let light :=
                    match XcodeTheme.lightTheme group with
                    | Some t => getThemeName t
                    | None => str "-"
                    end in
                  let dark :=
                    match XcodeTheme.darkTheme group with
                    | Some t => getThemeName t
                    | None => str "-"
                    end in
                  XcodeTheme.name group ++ str " (light: " ++ light
                  ++ str ", dark: " ++ dark ++ str ")")
               groupedThemes) in
      log (str "Grouped themes ("
           ++ numberToString (List.length groupedThemes) ++ str "): "
           ++ items)
  end.

Definition computeTokensForTheme (sdk : Supernova.t) (tokens : list Token.t)
           (theme : option TokenTheme.t) : list Token.t :=
  match theme with
  | None => []
  | Some theme =>
      Supernova.computeTokensByApplyingThemes sdk tokens tokens [theme]
  end.

(** The body of the loop over the colour tokens of [createThemeColors]. *)
Definition emitToken (baseById darkById : JsMap.t Token.t)
           (tokenGroups : list TokenGroup.t) (colorsPath : jsstring)
           (nameStyle : StringCase.t)
           (state : list AnyOutputFile * TokenNameTracker) (token : Token.t)
  : M (list AnyOutputFile * TokenNameTracker) :=
  let '(created, tracker) := state in
  let baseToken :=
    match JsMap.get baseById (Token.id token) with
    | Some b => b
    | None => token
    end in
  let darkVariant := JsMap.get darkById (Token.id token) in
  let variants := match darkVariant with Some d => [d] | None => [] end in
  emit (PerTokenFileRequested baseToken colorsPath variants) ;;;
  let '(file, tracker) :=
    createPerTokenFile baseToken tokenGroups colorsPath variants tracker
                       nameStyle in
  match file with
  | Some f =>
      emit (FileCreated (TextFile f)) ;;;
      ret (created ++ [TextFile f], tracker)
  | None => ret (created, tracker)
  end.

(** The callback [createThemeColors] hands to [writeTokenProperties],
    [(t) => codeSafeVariableName(tracker.getTokenName(t, ...), nameStyle)]:
    the names it returns when it is called on [calls], one token after the
    other, with the tracker in the given state at the first call. *)
Fixpoint exportedNames (tracker : TokenNameTracker)
         (tokenGroups : list TokenGroup.t) (nameStyle : StringCase.t)
         (calls : list Token.t) : list jsstring :=
  match calls with
  | [] => []
  | t :: rest =>
      let '(name, tracker) :=
        getTokenName tracker t tokenGroups nameStyle in
      codeSafeVariableName name nameStyle
      :: exportedNames tracker tokenGroups nameStyle rest
  end.

(** The SDK, the helpers of export-utils and the awaited write-back are
    taken to return: a call that throws, or a write-back that is rejected,
    is not modelled. *)
Definition createThemeColors (runtime : ExportContext.t)
           (colorsPath : jsstring) (lightTheme : TokenTheme.t)
           (darkTheme : option TokenTheme.t) : M (list AnyOutputFile) :=
  let sdk := ExportContext.sdk runtime in
  let tokens := ExportContext.tokens runtime in
  let tokenGroups := ExportContext.tokenGroups runtime in
  let exportConfiguration := ExportContext.exportConfiguration runtime in
  let colorTokens := ExportContext.colorTokens runtime in
  let pulsarContext := ExportContext.pulsarContext runtime in
  let baseTokens := computeTokensForTheme sdk tokens (Some lightTheme) in
  let darkTokens := computeTokensForTheme sdk tokens darkTheme in
  log (str "Applied base theme: " ++ getThemeName lightTheme) ;;;
  log (str "Applied dark theme: "
       ++ match darkTheme with
          | Some d => getThemeName d
          | None => str "none"
          end) ;;;
  let baseById :=
    JsMap.ofList (map (fun t => (Token.id t, t)) baseTokens) in
  let darkById :=
    JsMap.ofList (map (fun t => (Token.id t, t)) darkTokens) in
  let tracker := newTokenNameTracker in
  let nameStyle :=
    match ExporterConfiguration.folderNameStyle exportConfiguration with
    | Some s => s
    | None => StringCase.kebabCase
    end in
  state <- foldM (emitToken baseById darkById tokenGroups colorsPath
                            nameStyle)
                 colorTokens ([], tracker) ;;
  let '(created, tracker) := state in
  log (str "Emitted color set files: "
       ++ numberToString (List.length colorTokens)) ;;;
  (if ExporterConfiguration.writeNameToProperty exportConfiguration
      && negb (PulsarContext.isPreview pulsarContext)
   then
     emit (PropertiesWritten
             (ExporterConfiguration.propertyToWriteNameTo exportConfiguration)
             colorTokens
             (exportedNames tracker tokenGroups nameStyle)) ;;;
     log (str "Wrote exported names to property: "
          ++ ExporterConfiguration.propertyToWriteNameTo exportConfiguration)
   else log (str "Write-back disabled or preview mode")) ;;;
  let themedVariantCount :=
    List.length
      (filter (fun t => JsMap.has darkById (Token.id t)) colorTokens) in
  log (str "Dark variants generated: " ++ numberToString themedVariantCount)
  ;;;
  ret created.

Definition exportThemeGroup (runtime : ExportContext.t) (group : XcodeTheme.t)
  : M (list AnyOutputFile) :=
  let rootPath := ExportContext.rootPath runtime in
  log (str "Grouped theme: " ++ XcodeTheme.name group
       ++ str ", light: " ++ yesNo (XcodeTheme.lightTheme group)
       ++ str ", dark: " ++ yesNo (XcodeTheme.darkTheme group)) ;;;
  log (str "Root path for theme: " ++ orElse rootPath (str "-")) ;;;
  let themeName :=
    codeSafeVariableName (XcodeTheme.name group) StringCase.pascalCase in
  let namespaceFile := createNameSpaceFolder themeName rootPath in
  emit (FileCreated (TextFile namespaceFile)) ;;;
  log (str "Created namespace folder for theme: "
       ++ OutputTextFile.path namespaceFile ++ str "/"
       ++ OutputTextFile.name namespaceFile) ;;;
  match XcodeTheme.lightTheme group with
  | None =>
      log (str "Skipped color generation for " ++ XcodeTheme.name group
           ++ str " because no light theme variant was provided.") ;;;
      ret [TextFile namespaceFile]
  | Some lightTheme =>
      let colorsPath :=
        if truthy rootPath then rootPath ++ str "/" ++ themeName
        else themeName in
      log (str "Colors path: " ++ colorsPath) ;;;
      createdFiles <- createThemeColors runtime colorsPath lightTheme
                                        (XcodeTheme.darkTheme group) ;;
      ret (TextFile namespaceFile :: createdFiles)
  end.

(** The block of the entry point that resolves the selected themes. *)
Definition resolveThemes (sdk : Supernova.t) (context : PulsarContext.t)
           (remoteVersionIdentifier : RemoteVersionIdentifier.t)
  : M (list TokenTheme.t) :=
  match PulsarContext.themeIds context with
  | Some ((_ :: _) as themeIds) =>
      let themes := Supernova.getTokenThemes sdk remoteVersionIdentifier in
      themesToApply <-
        mapM (fun themeId =>
                match find (fun t =>
                              jsstring_eqb (TokenTheme.id t) themeId
                              || jsstring_eqb (TokenTheme.idInVersion t)
                                              themeId)
                           themes with
                | Some theme => ret theme
                | None => throw (str "Unable to find theme " ++ themeId)
                end)
             themeIds ;;
      log (str "Resolved themes: "
           ++ orElse (join (str ", ") (map getThemeName themesToApply))
                     (str "-")) ;;;
      ret themesToApply
  | _ =>
      log (str "Resolved themes: none") ;;;
      ret []
  end.

(** The function given to [Pulsar.export]. *)
Definition export (sdk : Supernova.t) (context : PulsarContext.t)
  : M (list AnyOutputFile) :=
  let files : list AnyOutputFile := [] in
  let rootPath := resolveRootPath in
  getLogger rootPath ;;;
  let files := files ++ [LoggerFile] in
  log (str "Exporter: Xcode Color Set") ;;;
  log (str "Started: " ++ toISOStringNow) ;;;
  log (str "Design System ID: " ++ PulsarContext.dsId context) ;;;
  log (str "Version ID: " ++ PulsarContext.versionId context) ;;;
  log (str "Brand ID: "
       ++ match PulsarContext.brandId context with
          | Some b => b
          | None => str "-"
          end) ;;;
  let remoteVersionIdentifier :=
    RemoteVersionIdentifier.mk (PulsarContext.dsId context)
                               (PulsarContext.versionId context) in
  let filter := PulsarContext.brandId context in
  let '(tokens, tokenGroups, tokenCollections) :=
    loadTokenData sdk remoteVersionIdentifier filter in
  log (str "Fetched tokens: " ++ numberToString (List.length tokens)) ;;;
  log (str "Fetched token groups: "
       ++ numberToString (List.length tokenGroups)) ;;;
  log (str "token groups: "
       ++ join (str ", ") (map TokenGroup.name (firstn 5 tokenGroups))
       ++ (if Nat.ltb 5 (List.length tokenGroups) then str ", ..."
           else [])) ;;;
  log (str "Fetched collections: "
       ++ numberToString (List.length tokenCollections)) ;;;
  log (str "token collections: "
       ++ join (str ", ") (map TokenCollection.name tokenCollections)) ;;;
  let colorTokens :=
    List.filter (fun t => TokenType.isColor (Token.tokenType t)) tokens in
  log (str "Filtered color tokens: "
       ++ numberToString (List.length colorTokens)) ;;;
  themesToApply <- resolveThemes sdk context remoteVersionIdentifier ;;
  colorTokens <- filterExcludedCollections colorTokens tokenCollections ;;
  files <-
    (if ExporterConfiguration.generateRootCatalog exportConfiguration
     then
       let root := TextFile (createCatalogRootFile rootPath) in
       emit (FileCreated root) ;;;
       log (str "Created root catalog: " ++ rootPath) ;;;
       ret (files ++ [root])
     else
       log (str "Root catalog generation disabled") ;;;
       ret files) ;;
  groupedThemes <- groupThemes themesToApply ;;
  logGroupedThemes groupedThemes ;;;
  let exportContext :=
    ExportContext.mk sdk context remoteVersionIdentifier rootPath
                     exportConfiguration tokens tokenGroups colorTokens in
  files <-
    foldM (fun files themeGroup =>
             namespaceFiles <- exportThemeGroup exportContext themeGroup ;;
             ret (files ++ namespaceFiles))
          groupedThemes files ;;
  ret files.

End Index.

(* ================================================================= *)
(** ** The earlier revision of both files

    The repository keeps an earlier revision of [xcode-theme.ts] and of
    [index.ts] next to the current one.  It is embedded here to compare the
    two. *)

Module Older.

Section Grouper.

Context {host : Host}.

(** [/\slight\s*$/] and [/\sdark\s*$/] *)
Definition reSuffix (w : string) : regex :=
  Char WhiteSpaceClass :: lits w ++ [Star WhiteSpaceClass; EndOfInput].

Definition isLightThemeName (name : jsstring) : bool :=
  test (reSuffix "light") (toLowerCase name).

Definition isDarkThemeName (name : jsstring) : bool :=
  test (reSuffix "dark") (toLowerCase name).

(** [split(/\s+/)] never returns an empty array, so that [[0]] is a
    string. *)
Definition baseNameFromTheme (name : jsstring) : M jsstring :=
  let trimmed := trim name in
  let firstWord := hd [] (split [Plus WhiteSpaceClass] trimmed) in
  getLogger [] ;;;
  log (str "Base name from theme " ++ [34%N] ++ name ++ [34%N]
       ++ str " is " ++ [34%N] ++ firstWord ++ [34%N]) ;;;
  ret firstWord.

Definition groupStep (groups : JsMap.t ThemeVariantMap.t)
           (t : TokenTheme.t) : M (JsMap.t ThemeVariantMap.t) :=
  log (str "Processing theme: " ++ TokenTheme.name t) ;;;
  base <- baseNameFromTheme (TokenTheme.name t) ;;
  let entry := match JsMap.get groups base with
               | Some e => e
               | None => ThemeVariantMap.empty
               end in
  let entry :=
    if isLightThemeName (TokenTheme.name t)
    then ThemeVariantMap.set entry ThemeVariant.light t
    else if isDarkThemeName (TokenTheme.name t)
         then ThemeVariantMap.set entry ThemeVariant.dark t
         else entry in
  let groups := JsMap.set groups base entry in
  log (str "Processing theme: " ++ TokenTheme.name t
       ++ str ", base: " ++ base
       ++ str ", light: " ++ yesNo (ThemeVariantMap.light entry)
       ++ str ", dark: " ++ yesNo (ThemeVariantMap.dark entry)) ;;;
  ret groups.

Fixpoint collectGroups (groups : JsMap.t ThemeVariantMap.t)
  : M (list XcodeTheme.t) :=
  match groups with
  | [] => ret []
  | (base, entry) :: rest =>
      log (str "Grouping theme base: " ++ base
           ++ str ", light: " ++ yesNo (ThemeVariantMap.light entry)
           ++ str ", dark: " ++ yesNo (ThemeVariantMap.dark entry)) ;;;
      result <- collectGroups rest ;;
      ret (if isSome (ThemeVariantMap.light entry)
              || isSome (ThemeVariantMap.dark entry)
           then XcodeTheme.mk base (ThemeVariantMap.light entry)
                              (ThemeVariantMap.dark entry) :: result
           else result)
  end.

Definition groupThemes (themes : list TokenTheme.t)
  : M (list XcodeTheme.t) :=
  getLogger [] ;;;
  log (str "Grouping " ++ numberToString (List.length themes)
       ++ str " themes") ;;;
  groups <- foldM groupStep themes JsMap.empty ;;
  collectGroups groups.

End Grouper.

(** The promise of an [async] function, as it is when the function returns
    it.  It is settled with a value if the function has run to its end
    without suspending.  It is pending if the function is suspended at an
    [await] for a request to the outside; the function is then given by
    what it does when the answer resumes it. *)
Inductive Awaited (A : Type) :=
| Settled (a : A)
| Pending (rest : M A).
Arguments Settled {A} a.
Arguments Pending {A} rest.

(** A callback of [forEach], as it is when it returns to [forEach].  It has
    run to its end; or it stands at its [await] of a settled promise, with
    its continuation in the microtask queue, which pushes the files of
    that promise; or it stands at its [await] of a pending promise, and
    pushes the files that promise yields when the request to the outside
    is answered. *)
Inductive Callback :=
| Completed
| Resuming (createdFiles : list AnyOutputFile)
| Suspended (rest : M (list AnyOutputFile)).

(** The files the continuations in the microtask queue push, in the order
    of the queue. *)
Definition resumed (callbacks : list Callback) : list AnyOutputFile :=
  flat_map (fun c => match c with
                     | Resuming createdFiles => createdFiles
                     | _ => []
                     end) callbacks.

(** The callbacks that wait for an answer from the outside. *)
Definition suspended (callbacks : list Callback)
  : list (M (list AnyOutputFile)) :=
  flat_map (fun c => match c with
                     | Suspended rest => [rest]
                     | _ => []
                     end) callbacks.

Section Index.

Context {host : Host} {pulsar : Pulsar} {utils : ExportUtils}.

(** The only [await] of [createThemeColors] is that of the write-back.  The
    function sends the request and is suspended; or, with the write-back
    off, it runs to its end. *)
Definition createThemeColors (sdk : Supernova.t)
           (context : PulsarContext.t) (rootPath : jsstring)
           (tokens : list Token.t) (tokenGroups : list TokenGroup.t)
           (exportConfiguration : ExporterConfiguration.t)
           (colorTokens : list Token.t) (lightTheme : TokenTheme.t)
           (darkTheme : option TokenTheme.t)
  : M (Awaited (list AnyOutputFile)) :=
  getLogger [] ;;;
  let baseTokens :=
    Supernova.computeTokensByApplyingThemes sdk tokens tokens
                                            [lightTheme] in
  let darkTokens :=
    match darkTheme with
    | Some d =>
        Supernova.computeTokensByApplyingThemes sdk tokens tokens [d]
    | None => []
    end in
  log (str "Applied base theme: " ++ getThemeName lightTheme) ;;;
  log (str "Applied dark theme: "
       ++ match darkTheme with
          | Some d => getThemeName d
          | None => str "none"
          end) ;;;
  let baseById :=
    JsMap.ofList (map (fun t => (Token.id t, t)) baseTokens) in
  let darkById :=
    JsMap.ofList (map (fun t => (Token.id t, t)) darkTokens) in
  let tracker := newTokenNameTracker in
  let nameStyle :=
    match ExporterConfiguration.folderNameStyle exportConfiguration with
    | Some s => s
    | None => StringCase.kebabCase
    end in
  state <- foldM (emitToken baseById darkById tokenGroups rootPath
                            nameStyle)
                 colorTokens ([], tracker) ;;
  let '(created, tracker) := state in
  log (str "Emitted color set files: "
       ++ numberToString (List.length colorTokens)) ;;;
  let themedVariantCount :=
    List.length
      (filter (fun t => JsMap.has darkById (Token.id t)) colorTokens) in
  let finish :=
    log (str "Dark variants generated: "
         ++ numberToString themedVariantCount) ;;;
    ret created in
  if ExporterConfiguration.writeNameToProperty exportConfiguration
     && negb (PulsarContext.isPreview context)
  then
    (* the request is sent; the function waits for the answer *)
    emit (PropertiesWritten
            (ExporterConfiguration.propertyToWriteNameTo
               exportConfiguration)
            colorTokens
            (exportedNames tracker tokenGroups nameStyle)) ;;;
    ret (Pending
           (log (str "Wrote exported names to property: "
                 ++ ExporterConfiguration.propertyToWriteNameTo
                      exportConfiguration) ;;;
            finish))
  else
    log (str "Write-back disabled or preview mode") ;;;
    created <- finish ;;
    ret (Settled created).

(** The callback of [groupedThemes.forEach].  It pushes the namespace file.
    For a group without a light theme it has then run to its end.
    Otherwise it calls [createThemeColors] and stands at the [await] of the
    promise it gets, whose files it pushes when it goes on. *)
Definition forEachCallback (sdk : Supernova.t) (context : PulsarContext.t)
           (rootPath : jsstring) (tokens : list Token.t)
           (tokenGroups : list TokenGroup.t) (colorTokens : list Token.t)
           (files : list AnyOutputFile) (t : XcodeTheme.t)
  : M (list AnyOutputFile * Callback) :=
  log (str "Grouped theme: " ++ XcodeTheme.name t
       ++ str ", light: " ++ yesNo (XcodeTheme.lightTheme t)
       ++ str ", dark: " ++ yesNo (XcodeTheme.darkTheme t)) ;;;
  log (str "Root path for theme: " ++ rootPath) ;;;
  let themeName :=
    codeSafeVariableName (XcodeTheme.name t) StringCase.pascalCase in
  let file := createNameSpaceFolder themeName rootPath in
  emit (FileCreated (TextFile file)) ;;;
  let files := files ++ [TextFile file] in
  log (str "Created namespace folder for theme: "
       ++ OutputTextFile.path file ++ str "/" ++ OutputTextFile.name file)
  ;;;
  match XcodeTheme.lightTheme t with
  | Some lightTheme =>
      let path :=
        if truthy rootPath then rootPath ++ str "/" ++ themeName
        else themeName in
      log (str "colors path: " ++ path) ;;;
      promise <- createThemeColors sdk context path tokens tokenGroups
                                   exportConfiguration colorTokens
                                   lightTheme (XcodeTheme.darkTheme t) ;;
      ret (files,
           match promise with
           | Settled createdFiles => Resuming createdFiles
           | Pending rest => Suspended rest
           end)
  | None => ret (files, Completed)
  end.

(** The entry point.  [forEach] does not wait for its callbacks, and
    [return files] settles the promise of the run with the array itself.
    The continuation of the caller is queued behind the continuations that
    are in the microtask queue by then, those of the callbacks that await a
    settled promise: they push their files onto the array before the
    caller sees it.  The model returns the array as the caller sees it
    when the promise settles, and the callbacks that are still suspended:
    each of them, when it is resumed, pushes the files it yields onto the
    same array. *)
Definition export (sdk : Supernova.t) (context : PulsarContext.t)
  : M (list AnyOutputFile * list (M (list AnyOutputFile))) :=
  let files : list AnyOutputFile := [] in
  let rootPath :=
    if ExporterConfiguration.generateRootCatalog exportConfiguration
    then orElse (ExporterConfiguration.rootCatalogPath exportConfiguration)
                (str "Colors.xcassets")
    else [] in
  getLogger rootPath ;;;
  let files := files ++ [LoggerFile] in
  log (str "Exporter: Xcode Color Set") ;;;
  log (str "Started: " ++ toISOStringNow) ;;;
  log (str "Design System ID: " ++ PulsarContext.dsId context) ;;;
  log (str "Version ID: " ++ PulsarContext.versionId context) ;;;
  log (str "Brand ID: "
       ++ match PulsarContext.brandId context with
          | Some b => b
          | None => str "-"
          end) ;;;
  let remoteVersionIdentifier :=
    RemoteVersionIdentifier.mk (PulsarContext.dsId context)
                               (PulsarContext.versionId context) in
  let filter := PulsarContext.brandId context in
  let tokens := Supernova.getTokens sdk remoteVersionIdentifier filter in
  let tokenGroups :=
    Supernova.getTokenGroups sdk remoteVersionIdentifier filter in
  let tokenCollections :=
    Supernova.getTokenCollections sdk remoteVersionIdentifier in
  log (str "Fetched tokens: " ++ numberToString (List.length tokens)) ;;;
  log (str "Fetched token groups: "
       ++ numberToString (List.length tokenGroups)) ;;;
  log (str "token groups: "
       ++ join (str ", ") (map TokenGroup.name (firstn 5 tokenGroups))
       ++ (if Nat.ltb 5 (List.length tokenGroups) then str ", ..."
           else [])) ;;;
  log (str "Fetched collections: "
       ++ numberToString (List.length tokenCollections)) ;;;
  log (str "token collections: "
       ++ join (str ", ") (map TokenCollection.name tokenCollections)) ;;;
  let colorTokens :=
    List.filter (fun t => TokenType.isColor (Token.tokenType t)) tokens in
  log (str "Filtered color tokens: "
       ++ numberToString (List.length colorTokens)) ;;;
  themesToApply <- resolveThemes sdk context remoteVersionIdentifier ;;
  colorTokens <-
    (if ExporterConfiguration.excludeCollectionsInPipelines
          exportConfiguration
        && Nat.ltb 0
             (List.length
                (ExporterConfiguration.excludedCollections
                   exportConfiguration))
     then
       let originalCount := List.length colorTokens in
       let excludedCollectionNames :=
         map (fun name => trim (toLowerCase name))
             (ExporterConfiguration.excludedCollections
                exportConfiguration) in
       let colorTokens :=
         List.filter
           (fun token =>
              let tokenCollection :=
                find (fun c =>
                        match Token.collectionId token with
                        | Some i =>
                            jsstring_eqb (TokenCollection.persistentId c) i
                        | None => false
                        end)
                     tokenCollections in
              match tokenCollection with
              | Some c =>
                  if existsb
                       (jsstring_eqb
                          (trim (toLowerCase (TokenCollection.name c))))
                       excludedCollectionNames
                  then false
                  else true
              | None => true
              end)
           colorTokens in
       log (str "Excluded collections enabled: yes") ;;;
       log (str "Excluded collections: "
            ++ join (str ", ")
                 (ExporterConfiguration.excludedCollections
                    exportConfiguration)) ;;;
       log (str "Color tokens after exclusions: "
            ++ numberToString (List.length colorTokens)
            ++ str " (was " ++ numberToString originalCount ++ str ")") ;;;
       ret colorTokens
     else
       log (str "Excluded collections enabled: no") ;;;
       ret colorTokens) ;;
  files <-
    (if ExporterConfiguration.generateRootCatalog exportConfiguration
     then
       let root := TextFile (createCatalogRootFile rootPath) in
       emit (FileCreated root) ;;;
       log (str "Created root catalog: " ++ rootPath) ;;;
       ret (files ++ [root])
     else
       log (str "Root catalog generation disabled") ;;;
       ret files) ;;
  groupedThemes <- groupThemes themesToApply ;;
  log (str "Grouped themes: ("
       ++ numberToString (List.length groupedThemes) ++ str ") "
       ++ join (str ",")
            (map (fun _ => str "[object Object]") groupedThemes)) ;;;
  state <-
    foldM (fun (state : list AnyOutputFile * list Callback) t =>
             let '(files, callbacks) := state in
             r <- forEachCallback sdk context rootPath tokens tokenGroups
                                  colorTokens files t ;;
             let '(files, callback) := r in
             ret (files, callbacks ++ [callback]))
          groupedThemes (files, []) ;;
  let '(files, callbacks) := state in
  ret (files ++ resumed callbacks, suspended callbacks).

End Index.

End Older.

(* ================================================================= *)
(** ** Stand-ins for the helpers outside the repository

    The helpers of [@supernovaio/export-utils] and [./files/color-sets], the
    SDK and the configuration are parameters of the model.  These instances
    are used to evaluate it on concrete inputs. *)

Module Demo.

Definition pulsar (generateRootCatalog excludeCollections writeBack : bool)
  : Pulsar :=
  {| exportConfig :=
       ExporterConfiguration.mk generateRootCatalog (str "Colors.xcassets")
         excludeCollections [str " Legacy "] writeBack (str "xcodeName")
         None |}.

Definition utils : ExportUtils :=
  {| getThemeName := TokenTheme.name;
     codeSafeVariableName := fun name _ => name;
     TokenNameTracker := list jsstring;
     newTokenNameTracker := [];
     getTokenName := fun tracker t _ _ => (Token.id t, tracker);
     createCatalogRootFile := fun rootPath =>
       createTextFile (str "./" ++ rootPath) (str "Contents.json")
                      (str "{}");
     createPerTokenFile := fun baseToken _ colorsPath variants tracker _ =>
       (Some (createTextFile
                (str "./" ++ colorsPath ++ str "/" ++ Token.id baseToken
                 ++ str ".colorset")
                (str "Contents.json")
                (join (str ",") (map Token.value (baseToken :: variants)))),
        Token.id baseToken :: tracker) |}.

Definition theme (id name : string) : TokenTheme.t :=
  TokenTheme.mk (str id) (str id ++ str "@v1") (str name).

Definition tokens : list Token.t :=
  [Token.mk (str "t1") TokenType.color (Some (str "c1")) (str "#111111");
   Token.mk (str "t2") TokenType.color (Some (str "c2")) (str "#222222");
   Token.mk (str "t3") (TokenType.other (str "dimension")) None (str "4px")].

(** A theme gives every token but [t2] a value of its own. *)
Definition applyThemes (tokens _base : list Token.t)
           (themes : list TokenTheme.t) : list Token.t :=
  match themes with
  | [t] =>
      flat_map
        (fun token =>
           if jsstring_eqb (Token.id token) (str "t2") then []
           else [Token.mk (Token.id token) (Token.tokenType token)
                          (Token.collectionId token)
                          (Token.value token ++ str "@"
                           ++ TokenTheme.name t)])
        tokens
  | _ => tokens
  end.

Definition sdk : Supernova.t :=
  Supernova.mk
    (fun _ _ => tokens)
    (fun _ _ => [TokenGroup.mk (str "Palette")])
    (fun _ => [TokenCollection.mk (str "c1") (str "Core");
               TokenCollection.mk (str "c2") (str "LEGACY")])
    (fun _ => [theme "th-l" "Brand Light"; theme "th-d" "Brand Dark";
               theme "th-n" "Night Dark"])
    applyThemes.

Definition context (themeIds : list string) : PulsarContext.t :=
  PulsarContext.mk (str "ds") (str "v1") None (Some (map str themeIds))
                   false.

(** The state of a module that has just been loaded. *)
Definition fresh : World := mkWorld None [].

(** A state in which the logger exists. *)
Definition started : World := mkWorld (Some (Logger.new [])) [].

End Demo.

(* ################################################################# *)
(** * The vocabulary of the specification

    The notions the properties are stated with: what a run has logged and
    created, the groups and the log [groupThemes] is expected to produce,
    the valuations of tokens, the selection of themes. *)

Unset Implicit Arguments.

(** The character before the position reached after reading [pre], when the
    character before [pre] is [prev]. *)
Definition lastOr (prev : option code_unit) (pre : jsstring)
  : option code_unit :=
  match rev pre with
  | [] => prev
  | c :: _ => Some c
  end.

(** The input ends with the word [w]: [w] is a suffix, and no word character
    stands before it. *)
Definition endsWithWord (w s : jsstring) : Prop :=
  exists pre, s = pre ++ w /\ RegExp.isWordAt (lastOr None pre) = false.

Definition notWhiteSpace (c : code_unit) : bool := negb (isWhiteSpace c).

(** The messages logged so far. *)
Definition logged (w : World) : list jsstring :=
  match globalLogger w with
  | Some l => Logger.messages l
  | None => []
  end.

(** The state after the messages [msgs] are logged. *)
Definition logs (msgs : list jsstring) (w : World) : World :=
  mkWorld
    (option_map (fun l => fold_left (fun l m => Logger.log m l) msgs l)
                (globalLogger w))
    (events w).

(** The state after [getLogger(rootPath)]. *)
Definition withLogger (rootPath : jsstring) (w : World) : World :=
  match globalLogger w with
  | Some _ => w
  | None => mkWorld (Some (Logger.new rootPath))
                    (events w ++ [FileCreated LoggerFile])
  end.

(** [line] is a line of the text [content]: it stands at the start of the
    text or behind a line feed, and at the end of the text or before a line
    feed. *)
Definition hasLine (content line : jsstring) : Prop :=
  exists before after,
    content = before ++ line ++ after
    /\ (before = [] \/ exists b, before = b ++ [10%N])
    /\ (after = [] \/ exists a, after = 10%N :: a).

(** The content of the log file in a state; there is none without a
    logger. *)
Definition logContent (w : World) : jsstring :=
  match globalLogger w with
  | Some l => OutputTextFile.content (Logger.getFile l)
  | None => []
  end.

(** The text [content] after each of [lines] was appended to it the way
    [Logger.log] appends a message: behind a line feed, unless the text is
    empty. *)
Definition appendLines (content : jsstring) (lines : list jsstring)
  : jsstring :=
  fold_left (fun c line => if truthy c then c ++ [10%N] ++ line else line)
            lines content.

(** The first occurrences of the elements of a list, in order. *)
Fixpoint firstOccurrences (l : list jsstring) : list jsstring :=
  match l with
  | [] => []
  | x :: l' =>
      x :: filter (fun y => negb (jsstring_eqb x y)) (firstOccurrences l')
  end.

(** [run m Q E]: started in a state where the logger exists, [m] either
    returns a value [a], having caused the events [new] with [Q a new], and
    the logger still exists; or it throws an error [e] with [E e]. *)
Definition run {A} (m : M A) (Q : A -> list Event -> Prop)
           (E : jsstring -> Prop) : Prop :=
  forall w, globalLogger w <> None ->
    match m w with
    | Returned a w' =>
        exists new, events w' = events w ++ new
                    /\ globalLogger w' <> None /\ Q a new
    | Thrown e _ => E e
    end.

(** The files created by a list of events. *)
Definition createdFiles (evs : list Event) : list AnyOutputFile :=
  flat_map (fun e => match e with FileCreated f => [f] | _ => [] end) evs.

(** The requests for a per-token file of a list of events. *)
Definition requests (evs : list Event)
  : list (Token.t * jsstring * list Token.t) :=
  flat_map (fun e => match e with
                     | PerTokenFileRequested b p vs => [(b, p, vs)]
                     | _ => []
                     end) evs.

(** The value of the token [i] under a valuation (the list of tokens a theme
    computes): the last token of the list with that id, as [new Map] keeps
    it. *)
Definition valueUnder (valuation : list Token.t) (i : jsstring)
  : option Token.t :=
  find (fun t => jsstring_eqb (Token.id t) i) (rev valuation).

(** The keys of a map, in its order. *)
Definition keys {V : Type} (m : JsMap.t V) : list jsstring := map fst m.

Section Vocabulary.

Context {host : Host} {pulsar : Pulsar} {utils : ExportUtils}.

(** [tok] is the first white-space-delimited token of [s]. *)
Definition firstToken (s tok : jsstring) : Prop :=
  exists rest,
    s = tok ++ rest
    /\ Forall (fun c => isWhiteSpace c = false) tok
    /\ (rest = [] \/ exists c rest', rest = c :: rest'
                                     /\ isWhiteSpace c = true).

(** The base name and the variant a theme is grouped under, if any. *)
Definition classify (t : TokenTheme.t) : option (jsstring * ThemeVariant.t) :=
  match getThemeVariant (TokenTheme.name t) with
  | Some v => Some (deriveBaseThemeName (TokenTheme.name t) (Some v), v)
  | None => None
  end.

Definition classified (t : TokenTheme.t) : bool := isSome (classify t).

Definition entryOf (groups : JsMap.t ThemeVariantMap.t) (base : jsstring)
  : ThemeVariantMap.t :=
  match JsMap.get groups base with
  | Some e => e
  | None => ThemeVariantMap.empty
  end.

(** The map after a theme is processed. *)
Definition nextGroups (groups : JsMap.t ThemeVariantMap.t)
           (t : TokenTheme.t) : JsMap.t ThemeVariantMap.t :=
  match classify t with
  | None => groups
  | Some (base, v) =>
      JsMap.set groups base (ThemeVariantMap.set (entryOf groups base) v t)
  end.

(** The messages logged when a theme is processed. *)
Definition stepMessages (groups : JsMap.t ThemeVariantMap.t)
           (t : TokenTheme.t) : list jsstring :=
  match classify t with
  | None => [skipMessage t]
  | Some (base, v) =>
      if isSome (ThemeVariantMap.get (entryOf groups base) v)
      then [duplicateMessage v base]
      else []
  end.

Fixpoint loopMessages (groups : JsMap.t ThemeVariantMap.t)
         (themes : list TokenTheme.t) : list jsstring :=
  match themes with
  | [] => []
  | t :: rest =>
      stepMessages groups t ++ loopMessages (nextGroups groups t) rest
  end.

(** The groups [groupThemes] returns. *)
Definition groupsOf (themes : list TokenTheme.t) : list XcodeTheme.t :=
  collectGroups (fold_left nextGroups themes JsMap.empty).

Definition slot (v : ThemeVariant.t) (g : XcodeTheme.t)
  : option TokenTheme.t :=
  match v with
  | ThemeVariant.light => XcodeTheme.lightTheme g
  | ThemeVariant.dark => XcodeTheme.darkTheme g
  end.

Definition classifiesAs (b : jsstring) (v : ThemeVariant.t)
           (t : TokenTheme.t) : bool :=
  match classify t with
  | Some (b', v') =>
      jsstring_eqb b' b && if ThemeVariant.eq_dec v' v then true else false
  | None => false
  end.

(** The base names of the classified themes, in input order. *)
Definition basesOf (themes : list TokenTheme.t) : list jsstring :=
  flat_map (fun t => match classify t with
                     | Some (b, _) => [b]
                     | None => []
                     end) themes.

(** The last theme of the input that is grouped under [b] as [v]. *)
Definition lastOf (themes : list TokenTheme.t) (b : jsstring)
           (v : ThemeVariant.t) : option TokenTheme.t :=
  find (classifiesAs b v) (rev themes).

(** The messages a theme causes, given the themes before it. *)
Definition themeMessages (seen : list TokenTheme.t) (t : TokenTheme.t)
  : list jsstring :=
  match classify t with
  | None => [skipMessage t]
  | Some (b, v) =>
      if existsb (classifiesAs b v) seen then [duplicateMessage v b] else []
  end.

Fixpoint expectedLog (seen themes : list TokenTheme.t) : list jsstring :=
  match themes with
  | [] => []
  | t :: rest => themeMessages seen t ++ expectedLog (seen ++ [t]) rest
  end.

(** The state [groupThemes] returns in. *)
Definition afterGroupThemes (themes : list TokenTheme.t) (w : World)
  : World :=
  match themes with
  | [] => w
  | _ :: _ => logs (expectedLog [] themes) (withLogger [] w)
  end.

(** What the loop asks [createPerTokenFile] for a token. *)
Definition requestFor (baseTokens darkTokens : list Token.t)
           (colorsPath : jsstring) (token : Token.t)
  : Token.t * jsstring * list Token.t :=
  (match valueUnder baseTokens (Token.id token) with
   | Some b => b
   | None => token
   end,
   colorsPath,
   match valueUnder darkTokens (Token.id token) with
   | Some d => [d]
   | None => []
   end).

(** What a request for a per-token file adds to the files created so far,
    and the tracker after it. *)
Definition requestFile (tokenGroups : list TokenGroup.t)
           (nameStyle : StringCase.t)
           (state : list AnyOutputFile * TokenNameTracker)
           (request : Token.t * jsstring * list Token.t)
  : list AnyOutputFile * TokenNameTracker :=
  let '(baseToken, colorsPath, variants) := request in
  let '(file, tracker) :=
    createPerTokenFile baseToken tokenGroups colorsPath variants
                       (snd state) nameStyle in
  (match file with
   | Some f => fst state ++ [TextFile f]
   | None => fst state
   end, tracker).

(** The per-token files of a list of requests, made in order with a new
    tracker. *)
Definition perTokenFiles (tokenGroups : list TokenGroup.t)
           (nameStyle : StringCase.t)
           (reqs : list (Token.t * jsstring * list Token.t))
  : list AnyOutputFile :=
  fst (fold_left (requestFile tokenGroups nameStyle) reqs
                 ([], newTokenNameTracker)).

Definition nameStyleOf (configuration : ExporterConfiguration.t)
  : StringCase.t :=
  match ExporterConfiguration.folderNameStyle configuration with
  | Some s => s
  | None => StringCase.kebabCase
  end.

(** The requests [createThemeColors] makes. *)
Definition themeRequests (runtime : ExportContext.t) (colorsPath : jsstring)
           (lightTheme : TokenTheme.t) (darkTheme : option TokenTheme.t)
  : list (Token.t * jsstring * list Token.t) :=
  map (requestFor
         (computeTokensForTheme (ExportContext.sdk runtime)
            (ExportContext.tokens runtime) (Some lightTheme))
         (computeTokensForTheme (ExportContext.sdk runtime)
            (ExportContext.tokens runtime) darkTheme)
         colorsPath)
      (ExportContext.colorTokens runtime).

Definition namespaceFileOf (rootPath : jsstring) (group : XcodeTheme.t)
  : OutputTextFile.t :=
  createNameSpaceFolder
    (codeSafeVariableName (XcodeTheme.name group) StringCase.pascalCase)
    rootPath.

Definition colorsPathOf (rootPath : jsstring) (group : XcodeTheme.t)
  : jsstring :=
  let themeName :=
    codeSafeVariableName (XcodeTheme.name group) StringCase.pascalCase in
  if truthy rootPath then rootPath ++ str "/" ++ themeName else themeName.

(** The requests for per-token files made for a group. *)
Definition groupRequests (runtime : ExportContext.t) (group : XcodeTheme.t)
  : list (Token.t * jsstring * list Token.t) :=
  match XcodeTheme.lightTheme group with
  | None => []
  | Some lightTheme =>
      themeRequests runtime
        (colorsPathOf (ExportContext.rootPath runtime) group)
        lightTheme (XcodeTheme.darkTheme group)
  end.

(** The files of a group: its namespace marker, then its per-token
    files. *)
Definition groupFiles (runtime : ExportContext.t) (group : XcodeTheme.t)
  : list AnyOutputFile :=
  TextFile (namespaceFileOf (ExportContext.rootPath runtime) group)
  :: perTokenFiles (ExportContext.tokenGroups runtime)
       (nameStyleOf (ExportContext.exportConfiguration runtime))
       (groupRequests runtime group).

(** The collection a token belongs to: the first one whose [persistentId]
    is the token's [collectionId]. *)
Definition resolveCollection (tokenCollections : list TokenCollection.t)
           (token : Token.t) : option TokenCollection.t :=
  find (fun c => match Token.collectionId token with
                 | Some i => jsstring_eqb (TokenCollection.persistentId c) i
                 | None => false
                 end)
       tokenCollections.

Definition excludedCollectionNames : list jsstring :=
  map (fun name => trim (toLowerCase name))
      (ExporterConfiguration.excludedCollections exportConfiguration).

Definition isExcluded (tokenCollections : list TokenCollection.t)
           (token : Token.t) : bool :=
  match resolveCollection tokenCollections token with
  | Some c =>
      existsb (jsstring_eqb (trim (toLowerCase (TokenCollection.name c))))
              excludedCollectionNames
  | None => false
  end.

(** The tokens [filterExcludedCollections] returns. *)
Definition afterExclusion (colorTokens : list Token.t)
           (tokenCollections : list TokenCollection.t) : list Token.t :=
  if ExporterConfiguration.excludeCollectionsInPipelines exportConfiguration
  then match ExporterConfiguration.excludedCollections exportConfiguration
       with
       | [] => colorTokens
       | _ :: _ =>
           filter (fun token => negb (isExcluded tokenCollections token))
                  colorTokens
       end
  else colorTokens.

Definition matchesId (themeId : jsstring) (t : TokenTheme.t) : bool :=
  jsstring_eqb (TokenTheme.id t) themeId
  || jsstring_eqb (TokenTheme.idInVersion t) themeId.

(** The themes the requested ids resolve to, or the error of the first id
    that resolves to none. *)
Fixpoint lookupThemes (themes : list TokenTheme.t) (themeIds : list jsstring)
  : jsstring + list TokenTheme.t :=
  match themeIds with
  | [] => inr []
  | themeId :: rest =>
      match find (matchesId themeId) themes with
      | None => inl (str "Unable to find theme " ++ themeId)
      | Some t =>
          match lookupThemes themes rest with
          | inl e => inl e
          | inr ts => inr (t :: ts)
          end
      end
  end.

Definition selection (sdk : Supernova.t) (context : PulsarContext.t)
           (remoteVersionIdentifier : RemoteVersionIdentifier.t)
  : jsstring + list TokenTheme.t :=
  match PulsarContext.themeIds context with
  | Some themeIds =>
      lookupThemes (Supernova.getTokenThemes sdk remoteVersionIdentifier)
                   themeIds
  | None => inr []
  end.

Definition remoteOf (context : PulsarContext.t) : RemoteVersionIdentifier.t :=
  RemoteVersionIdentifier.mk (PulsarContext.dsId context)
                             (PulsarContext.versionId context).

(** The colour tokens that are left after the exclusion. *)
Definition keptTokens (sdk : Supernova.t) (context : PulsarContext.t)
  : list Token.t :=
  afterExclusion
    (filter (fun t => TokenType.isColor (Token.tokenType t))
            (Supernova.getTokens sdk (remoteOf context)
                                 (PulsarContext.brandId context)))
    (Supernova.getTokenCollections sdk (remoteOf context)).

(** The context the theme groups are exported in. *)
Definition runtimeOf (sdk : Supernova.t) (context : PulsarContext.t)
  : ExportContext.t :=
  ExportContext.mk sdk context (remoteOf context) resolveRootPath
    exportConfiguration
    (Supernova.getTokens sdk (remoteOf context)
                         (PulsarContext.brandId context))
    (Supernova.getTokenGroups sdk (remoteOf context)
                              (PulsarContext.brandId context))
    (keptTokens sdk context).

Definition rootCatalogFile : AnyOutputFile :=
  TextFile (createCatalogRootFile resolveRootPath).

(** What a run of the entry point that returns has done. *)
Definition exported (sdk : Supernova.t) (context : PulsarContext.t)
           (files : list AnyOutputFile) (new : list Event) : Prop :=
  exists themes,
    selection sdk context (remoteOf context) = inr themes
    /\ files = LoggerFile :: createdFiles new
    /\ files
       = LoggerFile
         :: (if ExporterConfiguration.generateRootCatalog exportConfiguration
             then [rootCatalogFile] else [])
         ++ flat_map (groupFiles (runtimeOf sdk context)) (groupsOf themes)
    /\ requests new
       = flat_map (groupRequests (runtimeOf sdk context)) (groupsOf themes)
    /\ (ExporterConfiguration.generateRootCatalog exportConfiguration = true
        -> In (FileCreated rootCatalogFile) new)
    /\ (forall g, In g (groupsOf themes) ->
          In (FileCreated (TextFile (namespaceFileOf resolveRootPath g)))
             new).

Definition idMatches (themeId : jsstring) (t : TokenTheme.t) : Prop :=
  TokenTheme.id t = themeId \/ TokenTheme.idInVersion t = themeId.

Definition quoted (s : string) : jsstring := [34%N] ++ str s ++ [34%N].

(** The text of the namespace marker, line by line. *)
Definition namespaceMarkerText : jsstring :=
  join [10%N]
    [str "{";
     str "  " ++ quoted "info" ++ str ": {";
     str "    " ++ quoted "version" ++ str ": 1,";
     str "    " ++ quoted "author" ++ str ": " ++ quoted "xcode";
     str "  },";
     str "  " ++ quoted "properties" ++ str ": {";
     str "    " ++ quoted "provides-namespace" ++ str ": true";
     str "  }";
     str "}"].

(** [c] is the collection [token] belongs to: the first collection whose
    [persistentId] is the token's [collectionId]. *)
Definition belongsTo (tokenCollections : list TokenCollection.t)
           (token : Token.t) (c : TokenCollection.t) : Prop :=
  exists pre post,
    tokenCollections = pre ++ c :: post
    /\ Token.collectionId token = Some (TokenCollection.persistentId c)
    /\ forall c', In c' pre ->
         Token.collectionId token
         <> Some (TokenCollection.persistentId c').

(** The token is in an excluded collection. *)
Definition inExcludedCollection (tokenCollections : list TokenCollection.t)
           (token : Token.t) : Prop :=
  exists c,
    belongsTo tokenCollections token c
    /\ In (trim (toLowerCase (TokenCollection.name c)))
          (map (fun name => trim (toLowerCase name))
               (ExporterConfiguration.excludedCollections
                  exportConfiguration)).

End Vocabulary.

(** ** Concrete inputs

    The themes, groups and runs the model is evaluated on. *)

Module Inputs.

Definition brandLight := Demo.theme "th-l" "Brand Light".

Definition brandDark := Demo.theme "th-d" "Brand Dark".

Definition nightDark := Demo.theme "th-n" "Night Dark".

Definition result {A} (o : Outcome A) : option A :=
  match o with Returned a _ => Some a | Thrown _ _ => None end.

Definition final {A} (o : Outcome A) : World :=
  match o with Returned _ w => w | Thrown _ w => w end.

Definition configuration : Pulsar := Demo.pulsar true true true.

Definition selected : PulsarContext.t :=
  Demo.context ["th-l"; "th-d"; "th-n"]%string.

Definition exportRun : Outcome (list AnyOutputFile) :=
  Eval vm_compute in
    @export asciiHost configuration Demo.utils Demo.sdk selected Demo.fresh.

Definition exportedFiles : list AnyOutputFile :=
  Eval vm_compute in
    match exportRun with Returned files _ => files | Thrown _ _ => [] end.

Definition runtime : ExportContext.t :=
  @runtimeOf asciiHost configuration Demo.sdk selected.


Definition brand : XcodeTheme.t :=
  XcodeTheme.mk (str "Brand") (Some brandLight) (Some brandDark).

Definition night : XcodeTheme.t :=
  XcodeTheme.mk (str "Night") None (Some nightDark).

Definition olderRun
  : Outcome (list AnyOutputFile * list (M (list AnyOutputFile))) :=
  @Older.export asciiHost (Demo.pulsar true false true) Demo.utils Demo.sdk
                (Demo.context ["th-l"; "th-d"]%string) Demo.fresh.

End Inputs.

(* ================================================================= *)
(** ** Further vocabulary: the log, the write-backs, the earlier revision *)

(** The logger after the messages are logged, in order. *)
Definition logAll (msgs : list jsstring) (l : Logger.t) : Logger.t :=
  fold_left (fun l m => Logger.log m l) msgs l.

(** The messages from the first non-empty one on. *)
Fixpoint dropEmpty (msgs : list jsstring) : list jsstring :=
  match msgs with
  | [] => []
  | m :: rest => if truthy m then msgs else dropEmpty rest
  end.

(** The state a computation ends in, whether it returns or throws. *)
Definition stateAfter {A} (o : Outcome A) : World :=
  match o with
  | Returned _ w => w
  | Thrown _ w => w
  end.




(** The themes a group holds: the light one, then the dark one. *)
Definition themesOf (g : XcodeTheme.t) : list TokenTheme.t :=
  match XcodeTheme.lightTheme g with Some t => [t] | None => [] end
  ++ match XcodeTheme.darkTheme g with Some t => [t] | None => [] end.

(** The property write-backs of a list of events: the property and the
    tokens of each. *)
Definition writes (evs : list Event) : list (jsstring * list Token.t) :=
  flat_map (fun e => match e with
                     | PropertiesWritten p tokens _ => [(p, tokens)]
                     | _ => []
                     end) evs.

(** [trace m Q E]: started in a state whose logger is [l], [m] ends, returning
    or throwing, in a state whose logger is [l] with further messages [more]
    logged, having caused the events [new]; [Q a new more] holds of the value
    it returns, [E e new more] of the error it throws. *)
Definition trace {A} (m : M A)
           (Q : A -> list Event -> list jsstring -> Prop)
           (E : jsstring -> list Event -> list jsstring -> Prop) : Prop :=
  forall w l, globalLogger w = Some l ->
    match m w with
    | Returned a w' =>
        exists new more,
          events w' = events w ++ new
          /\ globalLogger w' = Some (logAll more l) /\ Q a new more
    | Thrown e w' =>
        exists new more,
          events w' = events w ++ new
          /\ globalLogger w' = Some (logAll more l) /\ E e new more
    end.

(** The input ends with the word [w] after a white space, with nothing but
    white space behind the word. *)
Definition endsWithSpacedWord (w s : jsstring) : Prop :=
  exists pre c tail,
    s = pre ++ c :: w ++ tail
    /\ isWhiteSpace c = true
    /\ Forall (fun c => isWhiteSpace c = true) tail.

Section FurtherVocabulary.

Context {host : Host} {pulsar : Pulsar} {utils : ExportUtils}.

(** Is the write-back of names enabled for the run? *)
Definition writeBackEnabled (configuration : ExporterConfiguration.t)
           (context : PulsarContext.t) : bool :=
  ExporterConfiguration.writeNameToProperty configuration
  && negb (PulsarContext.isPreview context).

(** The write-backs [createThemeColors] sends. *)
Definition themeWrites (runtime : ExportContext.t)
  : list (jsstring * list Token.t) :=
  let configuration := ExportContext.exportConfiguration runtime in
  if writeBackEnabled configuration (ExportContext.pulsarContext runtime)
  then [(ExporterConfiguration.propertyToWriteNameTo configuration,
         ExportContext.colorTokens runtime)]
  else [].

(** Does the request carry a dark variant? *)
Definition hasVariant (request : Token.t * jsstring * list Token.t) : bool :=
  match snd request with
  | [] => false
  | _ :: _ => true
  end.

(** The lines [createThemeColors] logs, given the requests it makes. *)
Definition colorsLog (runtime : ExportContext.t) (lightTheme : TokenTheme.t)
           (darkTheme : option TokenTheme.t)
           (reqs : list (Token.t * jsstring * list Token.t))
  : list jsstring :=
  let configuration := ExportContext.exportConfiguration runtime in
  [str "Applied base theme: " ++ getThemeName lightTheme;
   str "Applied dark theme: " ++ match darkTheme with
                                 | Some d => getThemeName d
                                 | None => str "none"
                                 end;
   str "Emitted color set files: " ++ numberToString (List.length reqs);
   (if writeBackEnabled configuration (ExportContext.pulsarContext runtime)
    then str "Wrote exported names to property: "
         ++ ExporterConfiguration.propertyToWriteNameTo configuration
    else str "Write-back disabled or preview mode");
   str "Dark variants generated: "
   ++ numberToString (List.length (filter hasVariant reqs))].

(** The write-backs sent for a group. *)
Definition groupWrites (runtime : ExportContext.t) (group : XcodeTheme.t)
  : list (jsstring * list Token.t) :=
  match XcodeTheme.lightTheme group with
  | None => []
  | Some _ => themeWrites runtime
  end.

(** The first lines a run logs. *)
Definition header (context : PulsarContext.t) : list jsstring :=
  [str "Exporter: Xcode Color Set";
   str "Started: " ++ toISOStringNow;
   str "Design System ID: " ++ PulsarContext.dsId context;
   str "Version ID: " ++ PulsarContext.versionId context;
   str "Brand ID: " ++ match PulsarContext.brandId context with
                       | Some b => b
                       | None => str "-"
                       end].

(** The notice logged for a group without a light theme. *)
Definition skippedNotice (group : XcodeTheme.t) : jsstring :=
  str "Skipped color generation for " ++ XcodeTheme.name group
  ++ str " because no light theme variant was provided.".

(** What a run has logged and written back when it returns. *)
Definition exportedTrace (sdk : Supernova.t) (context : PulsarContext.t)
           (new : list Event) (more : list jsstring) : Prop :=
  (exists themes,
      selection sdk context (remoteOf context) = inr themes
      /\ writes new
         = flat_map (groupWrites (runtimeOf sdk context)) (groupsOf themes))
  /\ exists rest, more = header context ++ rest.

(** What a run has done when it throws. *)
Definition failedTrace (sdk : Supernova.t) (context : PulsarContext.t)
           (e : jsstring) (new : list Event) (more : list jsstring) : Prop :=
  selection sdk context (remoteOf context) = inl e
  /\ new = []
  /\ exists rest, more = header context ++ rest.

(** The earlier revision gives the name a variant. *)
Definition olderClassified (name : jsstring) : bool :=
  Older.isLightThemeName name || Older.isDarkThemeName name.

(** Lower-casing the name and trimming it commute. *)
Definition lowerCaseKeepsPadding (name : jsstring) : Prop :=
  toLowerCase (trim name) = trim (toLowerCase name).

(** The map of the earlier revision after a theme is processed: the entry
    of the base name is set in any case, changed or not. *)
Definition olderNext (groups : JsMap.t ThemeVariantMap.t) (t : TokenTheme.t)
  : JsMap.t ThemeVariantMap.t :=
  let base := deriveBaseThemeName (TokenTheme.name t) None in
  let entry := entryOf groups base in
  JsMap.set groups base
    (if Older.isLightThemeName (TokenTheme.name t)
     then ThemeVariantMap.set entry ThemeVariant.light t
     else if Older.isDarkThemeName (TokenTheme.name t)
          then ThemeVariantMap.set entry ThemeVariant.dark t
          else entry).

(** The groups [groupThemes] of the earlier revision returns. *)
Definition olderGroupsOf (themes : list TokenTheme.t) : list XcodeTheme.t :=
  collectGroups (fold_left olderNext themes JsMap.empty).

(** The line [baseNameFromTheme] of the earlier revision logs. *)
Definition baseNameLine (name : jsstring) : jsstring :=
  str "Base name from theme " ++ [34%N] ++ name ++ [34%N] ++ str " is "
  ++ [34%N] ++ deriveBaseThemeName name None ++ [34%N].

Definition hasLight (group : XcodeTheme.t) : bool :=
  isSome (XcodeTheme.lightTheme group).

(** Resumed in a state with a logger, the suspended computation returns
    [files] and causes no event. *)
Definition yields (rest : M (list AnyOutputFile))
           (files : list AnyOutputFile) : Prop :=
  forall w l, globalLogger w = Some l ->
    exists w', rest w = Returned files w' /\ events w' = events w.

(** The per-token files of a group. *)
Definition groupTokenFiles (runtime : ExportContext.t) (group : XcodeTheme.t)
  : list AnyOutputFile :=
  perTokenFiles (ExportContext.tokenGroups runtime)
    (nameStyleOf (ExportContext.exportConfiguration runtime))
    (groupRequests runtime group).

(** What a callback of the earlier revision leaves behind for a group:
    nothing for a group without a light theme; with the write-back on, a
    suspended callback that yields the per-token files of the group; with
    the write-back off, a continuation in the microtask queue that pushes
    them. *)
Definition callbackFor (runtime : ExportContext.t) (group : XcodeTheme.t)
           (callback : Older.Callback) : Prop :=
  match callback with
  | Older.Completed => hasLight group = false
  | Older.Resuming createdFiles =>
      hasLight group = true
      /\ writeBackEnabled (ExportContext.exportConfiguration runtime)
                          (ExportContext.pulsarContext runtime) = false
      /\ createdFiles = groupTokenFiles runtime group
  | Older.Suspended rest =>
      hasLight group = true
      /\ writeBackEnabled (ExportContext.exportConfiguration runtime)
                          (ExportContext.pulsarContext runtime) = true
      /\ yields rest (groupTokenFiles runtime group)
  end.

(** What the array and the suspended callbacks of a run of the earlier
    revision are when the caller sees them, and what the run has created
    by then. *)
Definition olderOutcome (sdk : Supernova.t) (context : PulsarContext.t)
           (r : list AnyOutputFile * list (M (list AnyOutputFile)))
           (new : list Event) : Prop :=
  let root :=
    if ExporterConfiguration.generateRootCatalog exportConfiguration
    then [rootCatalogFile] else [] in
  let runtime := runtimeOf sdk context in
  exists themes,
    selection sdk context (remoteOf context) = inr themes
    /\ createdFiles new
       = root ++ flat_map (groupFiles runtime) (olderGroupsOf themes)
    /\ if writeBackEnabled exportConfiguration context
       then fst r
            = LoggerFile
              :: root
              ++ map (fun g => TextFile (namespaceFileOf resolveRootPath g))
                     (olderGroupsOf themes)
            /\ Forall2 (fun g rest => yields rest (groupTokenFiles runtime g))
                       (filter hasLight (olderGroupsOf themes)) (snd r)
       else fst r
            = LoggerFile
              :: root
              ++ map (fun g => TextFile (namespaceFileOf resolveRootPath g))
                     (olderGroupsOf themes)
              ++ flat_map (groupTokenFiles runtime)
                          (filter hasLight (olderGroupsOf themes))
            /\ snd r = [].

End FurtherVocabulary.

(** ** Further concrete inputs *)

Module FurtherInputs.

(** A selection with an id that no theme has. *)
Definition failing : PulsarContext.t :=
  Demo.context ["th-l"; "missing"; "th-n"]%string.

(** A selection of a dark theme only. *)
Definition darkOnly : PulsarContext.t := Demo.context ["th-n"]%string.

(** The selection of the runs of the earlier revision. *)
Definition pair : PulsarContext.t := Demo.context ["th-l"; "th-d"]%string.

(** The earlier revision with the write-back switched off. *)
Definition olderRunWithoutWriteBack
  : Outcome (list AnyOutputFile * list (M (list AnyOutputFile))) :=
  @Older.export asciiHost (Demo.pulsar true false false) Demo.utils Demo.sdk
                pair Demo.fresh.

End FurtherInputs.

(* ################################################################# *)
(** * Properties *)

(* ================================================================= *)
(** ** Strings and regular expressions *)

Lemma jsstring_eqb_eq (a b : jsstring) : jsstring_eqb a b = true <-> a = b.
Proof.
  unfold jsstring_eqb. destruct (jsstring_eq_dec a b); split; congruence.
Qed.

Lemma jsstring_eqb_refl (a : jsstring) : jsstring_eqb a a = true.
Proof. now apply jsstring_eqb_eq. Qed.

Lemma jsstring_eqb_neq (a b : jsstring) : jsstring_eqb a b = false <-> a <> b.
Proof.
  unfold jsstring_eqb. destruct (jsstring_eq_dec a b); split; congruence.
Qed.

Lemma lastOr_nil prev : lastOr prev [] = prev.
Proof. reflexivity. Qed.

Lemma lastOr_cons prev c pre : lastOr prev (c :: pre) = lastOr (Some c) pre.
Proof.
  unfold lastOr. simpl. destruct (rev pre) as [|d l] eqn:E; simpl; trivial.
Qed.

Lemma lastOr_snoc prev pre c : lastOr prev (pre ++ [c]) = Some c.
Proof. unfold lastOr. now rewrite rev_app_distr. Qed.

Lemma lastOr_app prev pre w :
  w <> [] -> lastOr prev (pre ++ w) = lastOr None w.
Proof.
  intros Hw. unfold lastOr. rewrite rev_app_distr.
  destruct (rev w) as [|c l] eqn:E; simpl; trivial.
  apply (f_equal (@rev _)) in E. rewrite rev_involutive in E. now subst.
Qed.

(** A sequence of literals matches exactly itself. *)
Lemma matchHere_literals (w : jsstring) (r : regex) prev s :
  matchHere (map (fun c => Char (Lit c)) w ++ r) prev s
  = match w with
    | [] => matchHere r prev s
    | _ :: _ =>
        if jsstring_eqb (firstn (List.length w) s) w
        then matchHere r (lastOr prev w) (skipn (List.length w) s)
        else None
    end.
Proof.
  revert prev s. induction w as [|c w IH]; intros prev s; [reflexivity|].
  cbn [map app matchHere]. destruct s as [|d s].
  - reflexivity.
  - cbn [inClass List.length firstn skipn]. rewrite lastOr_cons.
    destruct (N.eqb_spec d c) as [->|Hdc].
    + rewrite IH. destruct w as [|c' w].
      * simpl. now rewrite jsstring_eqb_refl.
      * destruct (jsstring_eqb (firstn (List.length (c' :: w)) s) (c' :: w))
          eqn:E.
        -- apply jsstring_eqb_eq in E. rewrite E.
           now rewrite jsstring_eqb_refl.
        -- apply jsstring_eqb_neq in E.
           destruct (jsstring_eqb (c :: firstn (List.length (c' :: w)) s)
                                  (c :: c' :: w)) eqn:E'; trivial.
           apply jsstring_eqb_eq in E'. congruence.
    + destruct (jsstring_eqb (d :: firstn (List.length w) s) (c :: w)) eqn:E;
        trivial.
      apply jsstring_eqb_eq in E. congruence.
Qed.

(** [search] finds a match at some position of the input. *)
Lemma search_spec (r : regex) prev s :
  search r prev s = true
  <-> exists pre post,
      s = pre ++ post /\ matchHere r (lastOr prev pre) post <> None.
Proof.
  revert prev. induction s as [|c s IH]; intros prev.
  - simpl. split.
    + destruct (matchHere r prev []) eqn:E; [|discriminate].
      intros _. exists [], []. rewrite lastOr_nil, E. split; [easy|discriminate].
    + intros (pre & post & Hs & Hm).
      symmetry in Hs. apply app_eq_nil in Hs as [-> ->].
      rewrite lastOr_nil in Hm.
      destruct (matchHere r prev []); congruence.
  - cbn [search]. destruct (matchHere r prev (c :: s)) eqn:E.
    + split; [|easy]. intros _. exists [], (c :: s).
      rewrite lastOr_nil, E. split; [easy|discriminate].
    + rewrite IH. split.
      * intros (pre & post & Hs & Hm). exists (c :: pre), post.
        rewrite lastOr_cons. subst s. easy.
      * intros (pre & post & Hs & Hm). destruct pre as [|d pre].
        -- simpl in Hs. subst post. rewrite lastOr_nil in Hm. congruence.
        -- simpl in Hs. injection Hs as <- ->. exists pre, post.
           rewrite lastOr_cons in Hm. easy.
Qed.

Lemma firstn_skipn_eq (w s : jsstring) :
  firstn (List.length w) s = w -> s = w ++ skipn (List.length w) s.
Proof. intros H. rewrite <- H at 1. symmetry. apply firstn_skipn. Qed.

(** [/\bw\b$/] for a word [w] of word characters. *)
Lemma test_word_spec (w s : jsstring) :
  w <> [] -> Forall (fun c => isWordChar c = true) w ->
  test (WordBoundary :: map (fun c => Char (Lit c)) w
        ++ [WordBoundary; EndOfInput]) s = true
  <-> endsWithWord w s.
Proof.
  intros Hw Hword. unfold test. rewrite search_spec. unfold endsWithWord.
  assert (Hfirst : isWordAt (hd_error w) = true).
  { destruct w as [|c w]; [congruence|]. now inversion Hword. }
  assert (Hlast : forall p, isWordAt (lastOr p w) = true).
  { intros p. destruct w as [|c w] using rev_ind; [congruence|].
    rewrite lastOr_snoc. apply Forall_app in Hword as [_ Hc].
    now inversion Hc. }
  split.
  - intros (pre & post & -> & Hm). exists pre.
    cbn [matchHere] in Hm.
    destruct (atWordBoundary (lastOr None pre) post) eqn:Hb; [|congruence].
    rewrite matchHere_literals in Hm. destruct w as [|c w]; [congruence|].
    destruct (jsstring_eqb (firstn (List.length (c :: w)) post) (c :: w))
      eqn:E; [|congruence].
    apply jsstring_eqb_eq in E. pose proof (firstn_skipn_eq _ _ E) as Hpost.
    cbn [matchHere] in Hm.
    destruct (atWordBoundary (lastOr (lastOr None pre) (c :: w))
                (skipn (List.length (c :: w)) post)); [|congruence].
    destruct (skipn (List.length (c :: w)) post) as [|x rest] eqn:Hrest;
      [|congruence].
    rewrite app_nil_r in Hpost. split; [now rewrite Hpost|].
    unfold atWordBoundary in Hb. rewrite Hpost in Hb.
    cbn [hd_error] in Hb, Hfirst. rewrite Hfirst in Hb.
    destruct (isWordAt (lastOr None pre)); simpl in Hb; congruence.
  - intros (pre & -> & Hpre). exists pre, w. split; [reflexivity|].
    cbn [matchHere]. unfold atWordBoundary at 1. rewrite Hpre, Hfirst.
    cbn [xorb]. rewrite matchHere_literals. destruct w as [|c w]; [congruence|].
    rewrite firstn_all, jsstring_eqb_refl, skipn_all.
    cbn [matchHere]. unfold atWordBoundary. rewrite Hlast. simpl. discriminate.
Qed.

Lemma takeWhile_dropWhile p (s : jsstring) :
  s = takeWhile p s ++ dropWhile p s.
Proof.
  induction s as [|c s IH]; simpl; trivial.
  destruct (p c); simpl; congruence.
Qed.

Lemma takeWhile_Forall p (s : jsstring) :
  Forall (fun c => p c = true) (takeWhile p s).
Proof.
  induction s as [|c s IH]; simpl; [constructor|].
  destruct (p c) eqn:E; constructor; assumption.
Qed.

Lemma dropWhile_head p (s : jsstring) c rest :
  dropWhile p s = c :: rest -> p c = false.
Proof.
  induction s as [|d s IH]; simpl; [discriminate|].
  destruct (p d) eqn:E; [exact IH|]. intros [= <- _]. exact E.
Qed.

Lemma dropWhile_suffix p (s : jsstring) :
  exists pre, s = pre ++ dropWhile p s /\ Forall (fun c => p c = true) pre.
Proof.
  exists (takeWhile p s). split.
  - apply takeWhile_dropWhile.
  - apply takeWhile_Forall.
Qed.

(** [trimEnd] keeps a prefix and removes white space only. *)
Lemma trimEnd_prefix (s : jsstring) :
  exists tail,
    s = trimEnd s ++ tail /\ Forall (fun c => isWhiteSpace c = true) tail.
Proof.
  unfold trimEnd. destruct (dropWhile_suffix isWhiteSpace (rev s))
    as (pre & Hs & Hpre).
  exists (rev pre). split.
  - rewrite <- rev_app_distr, <- Hs. symmetry. apply rev_involutive.
  - apply Forall_rev. exact Hpre.
Qed.

Lemma trimEnd_last (s : jsstring) pre c :
  trimEnd s = pre ++ [c] -> isWhiteSpace c = false.
Proof.
  unfold trimEnd. intros H. apply (f_equal (@rev _)) in H.
  rewrite rev_involutive, rev_app_distr in H. simpl in H.
  exact (dropWhile_head _ _ _ _ H).
Qed.

(** The first character of a trimmed string is not white space. *)
Lemma trim_head (s : jsstring) c rest :
  trim s = c :: rest -> isWhiteSpace c = false.
Proof.
  unfold trim. intros H.
  destruct (trimEnd_prefix (trimStart s)) as (tail & Hs & _).
  rewrite H in Hs. simpl in Hs. unfold trimStart in Hs.
  exact (dropWhile_head _ _ _ _ Hs).
Qed.

Lemma dropWhile_length p (s : jsstring) :
  List.length (dropWhile p s) <= List.length s.
Proof.
  induction s as [|c s IH]; simpl; [lia|]. destruct (p c); simpl; lia.
Qed.

Lemma star_whitespace_end prev (s : jsstring) :
  star WhiteSpaceClass (matchHere []) prev s
  = Some (dropWhile isWhiteSpace s).
Proof.
  revert prev. induction s as [|c s IH]; intros prev; simpl; trivial.
  destruct (isWhiteSpace c); trivial. now rewrite IH.
Qed.

(** The first element [split(/\s+/)] returns is the input up to its first
    white space. *)
Lemma splitLoop_head fuel before acc (s : jsstring) :
  List.length s <= fuel ->
  hd [] (splitLoop fuel [Plus WhiteSpaceClass] before acc s)
  = rev acc ++ takeWhile notWhiteSpace s.
Proof.
  revert before acc s. induction fuel as [|fuel IH]; intros before acc s Hlen.
  - destruct s; [|simpl in Hlen; lia]. reflexivity.
  - destruct s as [|c s]; [simpl; now rewrite app_nil_r|].
    cbn [splitLoop matchHere inClass takeWhile]. unfold notWhiteSpace at 1.
    destruct (isWhiteSpace c) eqn:Hc; cbn [negb].
    + rewrite star_whitespace_end.
      pose proof (dropWhile_length isWhiteSpace s) as Hd.
      cbn [List.length].
      destruct (S (List.length s) - List.length (dropWhile isWhiteSpace s))
        as [|k] eqn:Hk; [lia|].
      destruct acc; cbn [hd]; now rewrite app_nil_r.
    + rewrite IH by (simpl in Hlen; lia). simpl. now rewrite <- app_assoc.
Qed.

Section GrouperFacts.

Context {host : Host}.

(** The base name is the trimmed name up to its first white space. *)
Lemma deriveBaseThemeName_takeWhile name v :
  deriveBaseThemeName name v = takeWhile notWhiteSpace (trim name).
Proof.
  unfold deriveBaseThemeName. destruct (trim name) as [|c s] eqn:E;
    [reflexivity|].
  cbn [truthy negb]. unfold split.
  assert (H := splitLoop_head (2 * List.length (c :: s)) [] [] (c :: s)).
  cbn [rev app] in H. rewrite <- H by lia.
  destruct (splitLoop (2 * List.length (c :: s)) [Plus WhiteSpaceClass]
              [] [] (c :: s)) as [|base l] eqn:Es; [|reflexivity].
  exfalso. specialize (H ltac:(lia)). apply trim_head in E.
  cbn [hd takeWhile] in H. unfold notWhiteSpace in H. rewrite E in H.
  discriminate.
Qed.

Lemma takeWhile_firstToken (s : jsstring) :
  firstToken s (takeWhile notWhiteSpace s).
Proof.
  exists (dropWhile notWhiteSpace s). split; [apply takeWhile_dropWhile|].
  split.
  - eapply Forall_impl; [|apply takeWhile_Forall]. unfold notWhiteSpace.
    intros c Hc. now apply negb_true_iff in Hc.
  - destruct (dropWhile notWhiteSpace s) as [|c rest] eqn:E; [now left|].
    right. exists c, rest. split; trivial.
    apply dropWhile_head in E. unfold notWhiteSpace in E.
    now apply negb_false_iff in E.
Qed.

Lemma firstToken_unique (s a b : jsstring) :
  firstToken s a -> firstToken s b -> a = b.
Proof.
  intros (ra & Ha & Hna & Hra) (rb & Hb & Hnb & Hrb). subst s.
  revert b ra rb Hb Hnb Hra Hrb.
  induction a as [|x a IH]; intros b ra rb Hb Hnb Hra Hrb.
  - destruct b as [|y b]; trivial. simpl in Hb. subst ra.
    inversion Hnb; subst. destruct Hra as [|(c & r & [= <- _] & Hc)];
      [discriminate|congruence].
  - destruct b as [|y b].
    + simpl in Hb. subst rb. inversion Hna; subst.
      destruct Hrb as [|(c & r & [= <- _] & Hc)]; [discriminate|congruence].
    + simpl in Hb. injection Hb as <- Hb. f_equal.
      inversion Hna; inversion Hnb; subst. eapply IH; eauto.
Qed.

Lemma deriveBaseThemeName_firstToken name v :
  firstToken (trim name) (deriveBaseThemeName name v).
Proof.
  rewrite deriveBaseThemeName_takeWhile. apply takeWhile_firstToken.
Qed.

Lemma deriveBaseThemeName_nonempty name v :
  trim name <> [] -> deriveBaseThemeName name v <> [].
Proof.
  rewrite deriveBaseThemeName_takeWhile.
  destruct (trim name) as [|c s] eqn:E; [congruence|]. intros _.
  apply trim_head in E. simpl. unfold notWhiteSpace. now rewrite E.
Qed.

(** *** Classification of a name *)

Lemma light_word : Forall (fun c => isWordChar c = true) (str "light").
Proof. repeat constructor. Qed.

Lemma dark_word : Forall (fun c => isWordChar c = true) (str "dark").
Proof. repeat constructor. Qed.

Lemma test_light s :
  test (reWord "light") s = true <-> endsWithWord (str "light") s.
Proof. apply test_word_spec; [discriminate|apply light_word]. Qed.

Lemma test_dark s :
  test (reWord "dark") s = true <-> endsWithWord (str "dark") s.
Proof. apply test_word_spec; [discriminate|apply dark_word]. Qed.

Lemma light_not_dark s :
  endsWithWord (str "light") s -> endsWithWord (str "dark") s -> False.
Proof.
  intros (p & Hp & _) (q & Hq & _). subst s.
  apply (f_equal (@rev _)) in Hq. rewrite !rev_app_distr in Hq.
  simpl in Hq. discriminate.
Qed.

Lemma getThemeVariant_light name :
  getThemeVariant name = Some ThemeVariant.light
  <-> endsWithWord (str "light") (toLowerCase (trim name)).
Proof.
  unfold getThemeVariant. rewrite <- test_light.
  destruct (test (reWord "light") (toLowerCase (trim name))).
  - easy.
  - destruct (test (reWord "dark") (toLowerCase (trim name)));
      split; discriminate.
Qed.

Lemma getThemeVariant_dark name :
  getThemeVariant name = Some ThemeVariant.dark
  <-> endsWithWord (str "dark") (toLowerCase (trim name)).
Proof.
  unfold getThemeVariant.
  destruct (test (reWord "light") (toLowerCase (trim name))) eqn:El.
  - apply test_light in El. split; [discriminate|].
    intros Hd. destruct (light_not_dark _ El Hd).
  - rewrite <- test_dark.
    destruct (test (reWord "dark") (toLowerCase (trim name)));
      split; congruence.
Qed.

Lemma getThemeVariant_none name :
  getThemeVariant name = None
  <-> ~ endsWithWord (str "light") (toLowerCase (trim name))
      /\ ~ endsWithWord (str "dark") (toLowerCase (trim name)).
Proof.
  rewrite <- getThemeVariant_light, <- getThemeVariant_dark.
  destruct (getThemeVariant name) as [[]|]; split; try congruence.
  - intros [H _]. now destruct H.
  - intros [_ H]. now destruct H.
  - intros _. split; discriminate.
Qed.

End GrouperFacts.

(* ================================================================= *)
(** ** Running computations *)

Lemma logs_nil w : logs [] w = w.
Proof. destruct w as [[l|] evs]; reflexivity. Qed.

Lemma logs_logs a b w : logs b (logs a w) = logs (a ++ b) w.
Proof.
  destruct w as [[l|] evs]; unfold logs; simpl; [|reflexivity].
  now rewrite fold_left_app.
Qed.

Lemma log_run m w : log m w = Returned tt (logs [m] w).
Proof. destruct w as [[l|] evs]; reflexivity. Qed.

Lemma getLogger_run rootPath w :
  getLogger rootPath w = Returned tt (withLogger rootPath w).
Proof. unfold getLogger, withLogger. destruct (globalLogger w); reflexivity. Qed.

Lemma events_logs msgs w : events (logs msgs w) = events w.
Proof. reflexivity. Qed.

Lemma messages_fold msgs l :
  Logger.messages (fold_left (fun l m => Logger.log m l) msgs l)
  = Logger.messages l ++ msgs.
Proof.
  revert l. induction msgs as [|m msgs IH]; intros l; simpl.
  - now rewrite app_nil_r.
  - rewrite IH. simpl. now rewrite <- app_assoc.
Qed.


Lemma globalLogger_logs msgs w :
  globalLogger (logs msgs w) = None <-> globalLogger w = None.
Proof.
  destruct w as [[l|] evs]; unfold logs; simpl; split; intros H;
    try discriminate; reflexivity.
Qed.

Lemma globalLogger_withLogger rootPath w :
  globalLogger (withLogger rootPath w) <> None.
Proof.
  unfold withLogger. destruct (globalLogger w) eqn:E; simpl; congruence.
Qed.


Lemma bind_run {A B} (m : M A) (k : A -> M B) w a w' :
  m w = Returned a w' -> bind m k w = k a w'.
Proof. unfold bind. now intros ->. Qed.

Section GroupThemesFacts.

Context {host : Host}.

Lemma groupStep_run groups t w :
  groupStep groups t w
  = Returned (nextGroups groups t) (logs (stepMessages groups t) w).
Proof.
  unfold groupStep, nextGroups, stepMessages, classify.
  destruct (getThemeVariant (TokenTheme.name t)) as [v|].
  - fold (entryOf groups
            (deriveBaseThemeName (TokenTheme.name t) (Some v))).
    destruct (isSome (ThemeVariantMap.get _ v)).
    + unfold bind. rewrite log_run. reflexivity.
    + unfold bind, ret. now rewrite logs_nil.
  - unfold bind. rewrite log_run. reflexivity.
Qed.

Lemma foldM_groupStep_run themes groups w :
  foldM groupStep themes groups w
  = Returned (fold_left nextGroups themes groups)
             (logs (loopMessages groups themes) w).
Proof.
  revert groups w. induction themes as [|t themes IH]; intros groups w.
  - simpl. unfold ret. now rewrite logs_nil.
  - cbn [foldM fold_left loopMessages].
    rewrite (bind_run _ _ _ _ _ (groupStep_run groups t w)).
    rewrite IH. now rewrite logs_logs.
Qed.

(** [groupThemes] always returns; it returns [groupsOf], and logs
    [loopMessages]. *)
Lemma groupThemes_run themes w :
  groupThemes themes w
  = Returned (groupsOf themes)
             (match themes with
              | [] => w
              | _ :: _ =>
                  logs (loopMessages JsMap.empty themes) (withLogger [] w)
              end).
Proof.
  unfold groupThemes, groupsOf. destruct themes as [|t themes];
    [reflexivity|].
  rewrite (bind_run _ _ _ _ _ (getLogger_run [] w)).
  rewrite (bind_run _ _ _ _ _ (foldM_groupStep_run (t :: themes) _ _)).
  reflexivity.
Qed.

End GroupThemesFacts.

(* ================================================================= *)
(** ** The insertion-ordered map *)

Section JsMapFacts.

Context {V : Type}.
Implicit Types (m : JsMap.t V) (k : jsstring) (v : V).

Lemma get_set_same m k v : JsMap.get (JsMap.set m k v) k = Some v.
Proof.
  induction m as [|[k' v'] m IH]; simpl.
  - destruct (jsstring_eq_dec k k); congruence.
  - destruct (jsstring_eq_dec k' k) as [->|Hk]; simpl.
    + destruct (jsstring_eq_dec k k); congruence.
    + destruct (jsstring_eq_dec k' k); congruence.
Qed.

Lemma get_set_other m k k' v :
  k <> k' -> JsMap.get (JsMap.set m k v) k' = JsMap.get m k'.
Proof.
  intros Hk. induction m as [|[k0 v0] m IH]; simpl.
  - destruct (jsstring_eq_dec k k'); congruence.
  - destruct (jsstring_eq_dec k0 k) as [->|H0]; simpl.
    + destruct (jsstring_eq_dec k k'); congruence.
    + destruct (jsstring_eq_dec k0 k'); congruence.
Qed.

Lemma get_None_keys m k : JsMap.get m k = None <-> ~ In k (keys m).
Proof.
  induction m as [|[k' v'] m IH]; simpl; [easy|].
  destruct (jsstring_eq_dec k' k) as [->|Hk].
  - split; [discriminate|]. intros H. destruct H. now left.
  - rewrite IH. split.
    + intros H [H'|H']; congruence.
    + intros H H'. apply H. now right.
Qed.

(** [set] keeps the position of a present key and appends a new one. *)
Lemma keys_set m k v :
  keys (JsMap.set m k v)
  = if in_dec jsstring_eq_dec k (keys m) then keys m else keys m ++ [k].
Proof.
  induction m as [|[k' v'] m IH]; simpl; [reflexivity|].
  destruct (jsstring_eq_dec k' k) as [->|Hk]; simpl.
  - reflexivity.
  - rewrite IH. fold (keys m).
    destruct (in_dec jsstring_eq_dec k (keys m)); reflexivity.
Qed.

Lemma In_get m k v :
  NoDup (keys m) -> In (k, v) m -> JsMap.get m k = Some v.
Proof.
  induction m as [|[k' v'] m IH]; simpl; [easy|].
  intros Hnd [H|H].
  - injection H as -> ->. destruct (jsstring_eq_dec k k); congruence.
  - inversion Hnd as [|? ? Hnotin Hnd']; subst.
    destruct (jsstring_eq_dec k' k) as [->|Hk]; [|now apply IH].
    destruct Hnotin. change k with (fst (k, v)). now apply in_map.
Qed.

Lemma get_In m k v : JsMap.get m k = Some v -> In (k, v) m.
Proof.
  induction m as [|[k' v'] m IH]; simpl; [discriminate|].
  destruct (jsstring_eq_dec k' k) as [->|Hk].
  - intros [= ->]. now left.
  - intros H. right. now apply IH.
Qed.

End JsMapFacts.

Lemma firstOccurrences_In l x : In x (firstOccurrences l) <-> In x l.
Proof.
  induction l as [|y l IH]; simpl; [easy|].
  rewrite filter_In, IH. destruct (jsstring_eq_dec y x) as [->|Hne].
  - split; intros _; now left.
  - apply jsstring_eqb_neq in Hne as Hb. rewrite Hb. simpl. tauto.
Qed.

Lemma NoDup_filter {A} (p : A -> bool) (l : list A) :
  NoDup l -> NoDup (filter p l).
Proof.
  induction 1 as [|x l Hx Hnd IH]; simpl; [constructor|].
  destruct (p x); trivial. constructor; trivial.
  rewrite filter_In. tauto.
Qed.

Lemma firstOccurrences_NoDup l : NoDup (firstOccurrences l).
Proof.
  induction l as [|x l IH]; simpl; constructor.
  - rewrite filter_In. intros [_ H]. now rewrite jsstring_eqb_refl in H.
  - now apply NoDup_filter.
Qed.

Lemma filter_app_notin (p : jsstring -> bool) l x :
  filter p (l ++ [x]) = filter p l ++ (if p x then [x] else []).
Proof. rewrite filter_app. reflexivity. Qed.

Lemma firstOccurrences_snoc l x :
  firstOccurrences (l ++ [x])
  = if in_dec jsstring_eq_dec x l then firstOccurrences l
    else firstOccurrences l ++ [x].
Proof.
  induction l as [|y l IH]; simpl; [reflexivity|].
  rewrite IH. destruct (jsstring_eq_dec y x) as [->|Hne].
  - destruct (in_dec jsstring_eq_dec x l); trivial.
    rewrite filter_app. simpl. rewrite jsstring_eqb_refl. simpl.
    now rewrite app_nil_r.
  - destruct (in_dec jsstring_eq_dec x l); trivial.
    rewrite filter_app. simpl. apply jsstring_eqb_neq in Hne. now rewrite Hne.
Qed.

Lemma firstOccurrences_length l :
  List.length (firstOccurrences l) <= List.length l.
Proof.
  induction l as [|x l IH]; simpl; [lia|].
  pose proof (filter_length_le (fun y => negb (jsstring_eqb x y))
                               (firstOccurrences l)). lia.
Qed.

(* ================================================================= *)
(** ** The groups and the log of [groupThemes] *)

Section GroupingInvariant.

Context {host : Host}.

Lemma classifiesAs_spec b v t :
  classifiesAs b v t = true <-> classify t = Some (b, v).
Proof.
  unfold classifiesAs. destruct (classify t) as [[b' v']|]; [|easy].
  rewrite andb_true_iff, jsstring_eqb_eq.
  destruct (ThemeVariant.eq_dec v' v); split; intros H;
    try (destruct H; congruence); try (injection H as -> ->; tauto).
Qed.

Lemma lastOf_snoc themes t b v :
  lastOf (themes ++ [t]) b v
  = if classifiesAs b v t then Some t else lastOf themes b v.
Proof. unfold lastOf. rewrite rev_app_distr. reflexivity. Qed.

Lemma basesOf_snoc themes t :
  basesOf (themes ++ [t])
  = basesOf themes ++ match classify t with
                      | Some (b, _) => [b]
                      | None => []
                      end.
Proof. unfold basesOf. rewrite flat_map_app. simpl. now rewrite app_nil_r. Qed.

Lemma In_basesOf themes b :
  In b (basesOf themes)
  <-> exists t v, In t themes /\ classify t = Some (b, v).
Proof.
  unfold basesOf. rewrite in_flat_map. split.
  - intros (t & Ht & Hb). destruct (classify t) as [[b' v]|] eqn:E;
      [|destruct Hb]. destruct Hb as [->|[]]. now exists t, v.
  - intros (t & v & Ht & Hc). exists t. rewrite Hc. split; [easy|now left].
Qed.

Lemma lastOf_Some themes b v t :
  lastOf themes b v = Some t -> In t themes /\ classify t = Some (b, v).
Proof.
  unfold lastOf. intros H. apply find_some in H as [Hin Hc].
  split; [now apply in_rev|now apply classifiesAs_spec].
Qed.

Lemma lastOf_None themes b v :
  lastOf themes b v = None
  <-> forall t, In t themes -> classify t <> Some (b, v).
Proof.
  unfold lastOf. split.
  - intros H t Ht Hc. apply in_rev in Ht.
    pose proof (find_none _ _ H _ Ht) as Hf.
    apply classifiesAs_spec in Hc. congruence.
  - intros H. destruct (find (classifiesAs b v) (rev themes)) as [t|] eqn:E;
      trivial.
    apply find_some in E as [Hin Hc]. apply in_rev in Hin.
    apply classifiesAs_spec in Hc. destruct (H t Hin Hc).
Qed.

(** Last wins: the last theme grouped under [(b, v)]. *)
Lemma lastOf_last pre t post b v :
  classify t = Some (b, v) ->
  (forall u, In u post -> classify u <> Some (b, v)) ->
  lastOf (pre ++ t :: post) b v = Some t.
Proof.
  intros Ht Hpost. unfold lastOf. rewrite rev_app_distr. simpl.
  rewrite <- app_assoc. simpl.
  assert (Hnone : find (classifiesAs b v) (rev post) = None).
  { apply (lastOf_None post b v). exact Hpost. }
  revert Hnone. generalize (rev post) as l.
  induction l as [|x l IH]; simpl.
  - intros _. apply classifiesAs_spec in Ht. now rewrite Ht.
  - destruct (classifiesAs b v x); [discriminate|]. exact IH.
Qed.

Lemma entry_get_set e v v' t :
  ThemeVariantMap.get (ThemeVariantMap.set e v t) v'
  = if ThemeVariant.eq_dec v v' then Some t else ThemeVariantMap.get e v'.
Proof. destruct v, v', e; reflexivity. Qed.

Lemma entryOf_set groups b e b' :
  entryOf (JsMap.set groups b e) b'
  = if jsstring_eq_dec b b' then e else entryOf groups b'.
Proof.
  unfold entryOf. destruct (jsstring_eq_dec b b') as [->|Hne].
  - now rewrite get_set_same.
  - now rewrite get_set_other.
Qed.

(** The map built from the themes: its keys are the first occurrences of
    the base names, and each slot holds the last theme grouped under it. *)
Lemma groups_invariant themes :
  let groups := fold_left nextGroups themes JsMap.empty in
  keys groups = firstOccurrences (basesOf themes)
  /\ forall b v,
      ThemeVariantMap.get (entryOf groups b) v = lastOf themes b v.
Proof.
  induction themes as [|t themes IH] using rev_ind.
  - split; [reflexivity|]. intros b []; reflexivity.
  - cbv zeta in *. rewrite fold_left_app. cbn [fold_left].
    destruct IH as [Hkeys Hslots].
    set (groups := fold_left nextGroups themes JsMap.empty) in *.
    rewrite basesOf_snoc. unfold nextGroups.
    destruct (classify t) as [[b v]|] eqn:Hc.
    + split.
      * rewrite keys_set, Hkeys, firstOccurrences_snoc.
        destruct (in_dec jsstring_eq_dec b (firstOccurrences (basesOf themes)))
          as [Hin|Hin];
          destruct (in_dec jsstring_eq_dec b (basesOf themes)) as [Hin'|Hin'];
          trivial; rewrite firstOccurrences_In in Hin; tauto.
      * intros b' v'. rewrite lastOf_snoc, entryOf_set.
        unfold classifiesAs. rewrite Hc.
        destruct (jsstring_eq_dec b b') as [->|Hne].
        -- rewrite jsstring_eqb_refl, entry_get_set. simpl.
           destruct (ThemeVariant.eq_dec v v'); trivial.
        -- apply jsstring_eqb_neq in Hne. rewrite Hne. simpl. apply Hslots.
    + rewrite app_nil_r. split; trivial.
      intros b' v'. rewrite lastOf_snoc. unfold classifiesAs. rewrite Hc.
      apply Hslots.
Qed.

Lemma groups_keys themes :
  keys (fold_left nextGroups themes JsMap.empty)
  = firstOccurrences (basesOf themes).
Proof. apply (groups_invariant themes). Qed.

Lemma groups_slots themes b v :
  ThemeVariantMap.get (entryOf (fold_left nextGroups themes JsMap.empty) b) v
  = lastOf themes b v.
Proof. apply (groups_invariant themes). Qed.

(** Every entry of the map has a theme. *)
Lemma groups_populated themes b e :
  In (b, e) (fold_left nextGroups themes JsMap.empty) ->
  isSome (ThemeVariantMap.light e) || isSome (ThemeVariantMap.dark e) = true.
Proof.
  intros Hin.
  assert (Hnd : NoDup (keys (fold_left nextGroups themes JsMap.empty))).
  { rewrite groups_keys. apply firstOccurrences_NoDup. }
  assert (Hb : In b (basesOf themes)).
  { rewrite <- firstOccurrences_In, <- groups_keys.
    change b with (fst (b, e)). now apply in_map. }
  apply In_basesOf in Hb as (t & v & Ht & Hc).
  pose proof (groups_slots themes b v) as Hs.
  unfold entryOf in Hs. rewrite (In_get _ _ _ Hnd Hin) in Hs.
  destruct (lastOf themes b v) as [u|] eqn:El.
  - destruct v; simpl in Hs; rewrite Hs; simpl; trivial. apply orb_true_r.
  - exfalso. exact (proj1 (lastOf_None themes b v) El t Ht Hc).
Qed.

Lemma collectGroups_populated (groups : JsMap.t ThemeVariantMap.t) :
  (forall b e, In (b, e) groups ->
               isSome (ThemeVariantMap.light e)
               || isSome (ThemeVariantMap.dark e) = true) ->
  collectGroups groups
  = map (fun be => createThemeGroup (fst be) (snd be)) groups.
Proof.
  induction groups as [|[b e] groups IH]; intros H; simpl; trivial.
  rewrite (H b e (or_introl eq_refl)).
  now rewrite (IH (fun b' e' Hin => H b' e' (or_intror Hin))).
Qed.

Lemma groupsOf_map themes :
  groupsOf themes
  = map (fun be => createThemeGroup (fst be) (snd be))
        (fold_left nextGroups themes JsMap.empty).
Proof.
  unfold groupsOf. apply collectGroups_populated.
  exact (groups_populated themes).
Qed.

(** The names of the groups, in order. *)
Lemma groupsOf_names themes :
  map XcodeTheme.name (groupsOf themes) = firstOccurrences (basesOf themes).
Proof.
  rewrite groupsOf_map, map_map. simpl. apply groups_keys.
Qed.

(** A group of the result holds, in each slot, the last theme grouped
    under its name and that slot. *)
Lemma groupsOf_slot themes g v :
  In g (groupsOf themes) -> slot v g = lastOf themes (XcodeTheme.name g) v.
Proof.
  rewrite groupsOf_map, in_map_iff. intros ([b e] & <- & Hin). simpl.
  assert (Hnd : NoDup (keys (fold_left nextGroups themes JsMap.empty))).
  { rewrite groups_keys. apply firstOccurrences_NoDup. }
  rewrite <- groups_slots. unfold entryOf. rewrite (In_get _ _ _ Hnd Hin).
  destruct v; reflexivity.
Qed.

Lemma groupsOf_named themes b :
  In b (basesOf themes) ->
  exists g, In g (groupsOf themes) /\ XcodeTheme.name g = b.
Proof.
  intros Hb. rewrite <- firstOccurrences_In, <- groupsOf_names in Hb.
  apply in_map_iff in Hb as (g & Hg & Hin). now exists g.
Qed.

End GroupingInvariant.

Section GroupThemesResults.

Context {host : Host}.

Lemma getThemeVariant_endsWithWord name v :
  getThemeVariant name = Some v
  <-> endsWithWord (ThemeVariant.toString v) (toLowerCase (trim name)).
Proof.
  destruct v; [apply getThemeVariant_light|apply getThemeVariant_dark].
Qed.

Lemma classify_Some t b v :
  classify t = Some (b, v)
  <-> getThemeVariant (TokenTheme.name t) = Some v
      /\ b = deriveBaseThemeName (TokenTheme.name t) (Some v).
Proof.
  unfold classify. destruct (getThemeVariant (TokenTheme.name t)) as [v'|].
  - split.
    + intros [= <- <-]. easy.
    + intros [[= ->] ->]. reflexivity.
  - split; [discriminate|]. intros [H _]. discriminate.
Qed.


(** A theme without a variant leaves the map as it is. *)
Lemma fold_nextGroups_filter themes groups :
  fold_left nextGroups (filter classified themes) groups
  = fold_left nextGroups themes groups.
Proof.
  revert groups. induction themes as [|t themes IH]; intros groups;
    [reflexivity|].
  cbn [filter fold_left]. unfold classified at 1.
  destruct (classify t) eqn:E; cbn [isSome fold_left].
  - apply IH.
  - replace (nextGroups groups t) with groups; [apply IH|].
    unfold nextGroups. now rewrite E.
Qed.

Lemma groupsOf_filter themes :
  groupsOf (filter classified themes) = groupsOf themes.
Proof. unfold groupsOf. now rewrite fold_nextGroups_filter. Qed.

(** What is in a slot of a group of the result. *)
Lemma groupsOf_slot_Some themes g v t :
  In g (groupsOf themes) -> slot v g = Some t ->
  In t themes
  /\ getThemeVariant (TokenTheme.name t) = Some v
  /\ XcodeTheme.name g = deriveBaseThemeName (TokenTheme.name t) (Some v).
Proof.
  intros Hg Hs. rewrite (groupsOf_slot themes g v Hg) in Hs.
  apply lastOf_Some in Hs as [Hin Hc]. apply classify_Some in Hc.
  tauto.
Qed.

(** The group of a classified theme exists, and its slot is taken by a
    theme grouped as it is. *)
Lemma groupsOf_classified themes t b v :
  In t themes -> classify t = Some (b, v) ->
  exists g u, In g (groupsOf themes) /\ XcodeTheme.name g = b
              /\ slot v g = Some u /\ classify u = Some (b, v).
Proof.
  intros Hin Hc.
  destruct (groupsOf_named themes b) as (g & Hg & Hname).
  { apply In_basesOf. now exists t, v. }
  pose proof (groupsOf_slot themes g v Hg) as Hs. rewrite Hname in Hs.
  destruct (lastOf themes b v) as [u|] eqn:El.
  - exists g, u. repeat split; trivial. now apply lastOf_Some in El.
  - exfalso. exact (proj1 (lastOf_None themes b v) El t Hin Hc).
Qed.

Lemma groupsOf_not_empty themes g :
  In g (groupsOf themes) ->
  XcodeTheme.lightTheme g <> None \/ XcodeTheme.darkTheme g <> None.
Proof.
  rewrite groupsOf_map, in_map_iff. intros ([b e] & <- & Hin).
  apply groups_populated in Hin. simpl.
  destruct (ThemeVariantMap.light e); [left; discriminate|].
  destruct (ThemeVariantMap.dark e); [right; discriminate|discriminate].
Qed.

Lemma basesOf_length themes :
  List.length (basesOf themes) <= List.length themes.
Proof.
  induction themes as [|t themes IH]; simpl; [lia|].
  rewrite length_app. destruct (classify t) as [[b v]|]; simpl; lia.
Qed.

Lemma groupsOf_length themes :
  List.length (groupsOf themes) <= List.length themes.
Proof.
  rewrite <- (length_map XcodeTheme.name), groupsOf_names.
  pose proof (firstOccurrences_length (basesOf themes)).
  pose proof (basesOf_length themes). lia.
Qed.

(** *** The log *)

Lemma isSome_find_rev {A} (p : A -> bool) (l : list A) :
  isSome (find p (rev l)) = existsb p l.
Proof.
  destruct (find p (rev l)) as [x|] eqn:E; simpl; symmetry.
  - apply find_some in E as [Hin Hp]. apply existsb_exists. exists x.
    split; [now apply in_rev|trivial].
  - destruct (existsb p l) eqn:Ex; trivial.
    apply existsb_exists in Ex as (x & Hin & Hp). apply in_rev in Hin.
    pose proof (find_none _ _ E _ Hin). congruence.
Qed.

Lemma stepMessages_themeMessages seen t :
  stepMessages (fold_left nextGroups seen JsMap.empty) t
  = themeMessages seen t.
Proof.
  unfold stepMessages, themeMessages.
  destruct (classify t) as [[b v]|]; trivial.
  rewrite groups_slots. unfold lastOf. now rewrite isSome_find_rev.
Qed.

Lemma loopMessages_expectedLog seen themes :
  loopMessages (fold_left nextGroups seen JsMap.empty) themes
  = expectedLog seen themes.
Proof.
  revert seen. induction themes as [|t themes IH]; intros seen;
    [reflexivity|].
  cbn [loopMessages expectedLog]. rewrite stepMessages_themeMessages.
  f_equal. rewrite <- IH, fold_left_app. reflexivity.
Qed.

Lemma expectedLog_app seen a b :
  expectedLog seen (a ++ b) = expectedLog seen a ++ expectedLog (seen ++ a) b.
Proof.
  revert seen. induction a as [|t a IH]; intros seen; simpl.
  - now rewrite app_nil_r.
  - rewrite IH, <- !app_assoc. reflexivity.
Qed.

Lemma groupThemes_returns themes w :
  groupThemes themes w
  = Returned (groupsOf themes) (afterGroupThemes themes w).
Proof.
  rewrite groupThemes_run. unfold afterGroupThemes.
  destruct themes; trivial.
  now rewrite <- (loopMessages_expectedLog []).
Qed.


End GroupThemesResults.

(* ================================================================= *)
(** ** A program logic for the runs of [index.ts] *)

Lemma run_ret {A} (a : A) Q E : Q a [] -> run (ret a) Q E.
Proof.
  intros H w Hw. simpl. exists []. rewrite app_nil_r. auto.
Qed.

Lemma run_throw {A} e (Q : A -> list Event -> Prop) (E : jsstring -> Prop) :
  E e -> run (throw e) Q E.
Proof. intros H w Hw. exact H. Qed.

Lemma run_bind {A B} (m : M A) (k : A -> M B) Q1 Q E :
  run m Q1 E ->
  (forall a n1, Q1 a n1 -> run (k a) (fun b n2 => Q b (n1 ++ n2)) E) ->
  run (bind m k) Q E.
Proof.
  intros Hm Hk w Hw. unfold bind. specialize (Hm w Hw).
  destruct (m w) as [a w1|e w1]; [|exact Hm].
  destruct Hm as (n1 & Hev & Hlog & HQ1).
  specialize (Hk a n1 HQ1 w1 Hlog).
  destruct (k a w1) as [b w2|e w2]; [|exact Hk].
  destruct Hk as (n2 & Hev2 & Hlog2 & HQ).
  exists (n1 ++ n2). rewrite Hev2, Hev, app_assoc. auto.
Qed.

Lemma run_conseq {A} (m : M A) (Q Q' : A -> list Event -> Prop)
      (E E' : jsstring -> Prop) :
  run m Q E -> (forall a n, Q a n -> Q' a n) -> (forall e, E e -> E' e) ->
  run m Q' E'.
Proof.
  intros Hm HQ HE w Hw. specialize (Hm w Hw).
  destruct (m w) as [a w1|e w1]; [|auto].
  destruct Hm as (n & Hev & Hlog & Hq). exists n. auto.
Qed.

Lemma run_post {A} (m : M A) (Q Q' : A -> list Event -> Prop)
      (E : jsstring -> Prop) :
  run m Q E -> (forall a n, Q a n -> Q' a n) -> run m Q' E.
Proof. intros Hm HQ. apply (run_conseq m Q Q' E E); auto. Qed.

Lemma run_log message Q E : Q tt [] -> run (log message) Q E.
Proof.
  intros H w Hw. rewrite log_run. exists []. rewrite app_nil_r.
  split; [reflexivity|]. split; [|exact H].
  now rewrite globalLogger_logs.
Qed.

Lemma run_emit e Q E : Q tt [e] -> run (emit e) Q E.
Proof. intros H w Hw. simpl. exists [e]. auto. Qed.

Lemma run_getLogger rootPath Q E : Q tt [] -> run (getLogger rootPath) Q E.
Proof.
  intros H w Hw. unfold getLogger. destruct (globalLogger w) eqn:El;
    [|congruence].
  exists []. rewrite app_nil_r, El. repeat split; trivial.
Qed.

(** A sequence of [log] and [emit] before the rest. *)
Lemma run_log_then {B} message (k : M B) Q E :
  run k Q E -> run (log message ;;; k) Q E.
Proof.
  intros H.
  apply (run_bind (log message) (fun _ => k) (fun _ n => n = []) Q E).
  - now apply run_log.
  - intros _ n1 ->. exact H.
Qed.

Lemma run_emit_then {B} e (k : M B) Q E :
  run k (fun b n => Q b (e :: n)) E -> run (emit e ;;; k) Q E.
Proof.
  intros H.
  apply (run_bind (emit e) (fun _ => k) (fun _ n => n = [e]) Q E).
  - now apply run_emit.
  - intros _ n1 ->. exact H.
Qed.

Lemma run_ret_bind {A B} (a : A) (k : A -> M B) Q E :
  run (k a) Q E -> run (bind (ret a) k) Q E.
Proof. intros H w Hw. exact (H w Hw). Qed.

Lemma run_throw_bind {A B} e (k : A -> M B) Q (E : jsstring -> Prop) :
  E e -> run (bind (throw e) k) Q E.
Proof. intros H w Hw. exact H. Qed.

Lemma run_bind_nil {A B} (m : M A) (k : A -> M B) Q E :
  run m (fun _ n => n = []) E ->
  (forall a, run (k a) Q E) ->
  run (bind m k) Q E.
Proof.
  intros Hm Hk. eapply run_bind; [exact Hm|].
  intros a n1 ->. exact (Hk a).
Qed.

Lemma run_foldM_from {A B} (f : A -> B -> M A)
      (Inv : list B -> A -> list Event -> Prop) E l :
  (forall done b a n, Inv done a n ->
     run (f a b) (fun a' n' => Inv (done ++ [b]) a' (n ++ n')) E) ->
  forall done a n, Inv done a n ->
    run (foldM f l a) (fun a' n' => Inv (done ++ l) a' (n ++ n')) E.
Proof.
  intros Hstep. induction l as [|b l IH]; intros done a n Hinv.
  - simpl. apply run_ret. now rewrite !app_nil_r.
  - simpl. eapply run_bind; [apply (Hstep done b a n Hinv)|].
    intros a' n1 Hinv'. cbv beta in Hinv'.
    eapply run_conseq; [apply (IH _ _ _ Hinv')| |auto].
    intros a2 n2. cbv beta. rewrite <- !app_assoc. simpl. auto.
Qed.

Lemma run_foldM {A B} (f : A -> B -> M A)
      (Inv : list B -> A -> list Event -> Prop) E l a :
  Inv [] a [] ->
  (forall done b a n, Inv done a n ->
     run (f a b) (fun a' n' => Inv (done ++ [b]) a' (n ++ n')) E) ->
  run (foldM f l a) (Inv l) E.
Proof.
  intros H0 Hstep.
  exact (run_foldM_from f Inv E l Hstep [] a [] H0).
Qed.

Lemma createdFiles_app a b :
  createdFiles (a ++ b) = createdFiles a ++ createdFiles b.
Proof. apply flat_map_app. Qed.

Lemma requests_app a b : requests (a ++ b) = requests a ++ requests b.
Proof. apply flat_map_app. Qed.

(* ================================================================= *)
(** ** Valuations: the lookup maps of [createThemeColors] *)

Lemma ofList_snoc {V} (l : list (jsstring * V)) e :
  JsMap.ofList (l ++ [e]) = JsMap.set (JsMap.ofList l) (fst e) (snd e).
Proof. unfold JsMap.ofList. now rewrite fold_left_app. Qed.

Lemma get_byId valuation i :
  JsMap.get (JsMap.ofList (map (fun t => (Token.id t, t)) valuation)) i
  = valueUnder valuation i.
Proof.
  induction valuation as [|t l IH] using rev_ind; [reflexivity|].
  rewrite map_app. cbn [map]. rewrite ofList_snoc. unfold valueUnder.
  rewrite rev_app_distr. simpl. destruct (jsstring_eq_dec (Token.id t) i) as [->|Hne].
  - now rewrite get_set_same, jsstring_eqb_refl.
  - rewrite get_set_other by assumption.
    apply jsstring_eqb_neq in Hne. rewrite Hne. exact IH.
Qed.

Lemma valueUnder_Some valuation i t :
  valueUnder valuation i = Some t -> In t valuation /\ Token.id t = i.
Proof.
  unfold valueUnder. intros H. apply find_some in H as [Hin Hid].
  split; [now apply in_rev|now apply jsstring_eqb_eq].
Qed.

(** The valuation has no value for [i] exactly when none of its tokens has
    the id [i]. *)
Lemma valueUnder_None valuation i :
  valueUnder valuation i = None
  <-> forall t, In t valuation -> Token.id t <> i.
Proof.
  unfold valueUnder. split.
  - intros H t Hin Hid. apply in_rev in Hin.
    pose proof (find_none _ _ H _ Hin) as Hf. cbv beta in Hf.
    apply jsstring_eqb_neq in Hf. congruence.
  - intros H. destruct (find _ (rev valuation)) as [t|] eqn:E; trivial.
    apply find_some in E as [Hin Hid]. apply in_rev in Hin.
    apply jsstring_eqb_eq in Hid. destruct (H t Hin Hid).
Qed.

(** The value is the last token with the id. *)
Lemma valueUnder_last pre t post :
  (forall u, In u post -> Token.id u <> Token.id t) ->
  valueUnder (pre ++ t :: post) (Token.id t) = Some t.
Proof.
  intros Hpost. unfold valueUnder. rewrite rev_app_distr. simpl.
  rewrite <- app_assoc. simpl.
  assert (Hnone : find (fun u => jsstring_eqb (Token.id u) (Token.id t))
                       (rev post) = None).
  { apply (valueUnder_None post (Token.id t)). exact Hpost. }
  revert Hnone. generalize (rev post) as l. induction l as [|x l IH]; simpl.
  - intros _. now rewrite jsstring_eqb_refl.
  - destruct (jsstring_eqb (Token.id x) (Token.id t)); [discriminate|].
    exact IH.
Qed.

(* ================================================================= *)
(** ** The functions of [index.ts] *)

Section IndexFacts.

Context {host : Host} {pulsar : Pulsar} {utils : ExportUtils}.

(** *** [createThemeColors] *)

Lemma emitToken_run baseTokens darkTokens tokenGroups colorsPath nameStyle
      created tracker token E :
  run (emitToken (JsMap.ofList (map (fun t => (Token.id t, t)) baseTokens))
                 (JsMap.ofList (map (fun t => (Token.id t, t)) darkTokens))
                 tokenGroups colorsPath nameStyle (created, tracker) token)
      (fun state new =>
         state = requestFile tokenGroups nameStyle (created, tracker)
                   (requestFor baseTokens darkTokens colorsPath token)
         /\ fst state = created ++ createdFiles new
         /\ requests new
            = [requestFor baseTokens darkTokens colorsPath token])
      E.
Proof.
  unfold emitToken, requestFile, requestFor. rewrite !get_byId.
  apply run_emit_then. cbn [fst snd].
  destruct (createPerTokenFile _ tokenGroups colorsPath _ tracker nameStyle)
    as [[f|] tracker'].
  - apply run_emit_then, run_ret. simpl. repeat split; reflexivity.
  - apply run_ret. simpl. repeat split; trivial. now rewrite app_nil_r.
Qed.

Lemma createThemeColors_run runtime colorsPath lightTheme darkTheme E :
  run (createThemeColors runtime colorsPath lightTheme darkTheme)
      (fun files new =>
         files = createdFiles new
         /\ files
            = perTokenFiles (ExportContext.tokenGroups runtime)
                (nameStyleOf (ExportContext.exportConfiguration runtime))
                (themeRequests runtime colorsPath lightTheme darkTheme)
         /\ requests new
            = themeRequests runtime colorsPath lightTheme darkTheme)
      E.
Proof.
  unfold createThemeColors, themeRequests, perTokenFiles.
  fold (nameStyleOf (ExportContext.exportConfiguration runtime)).
  apply run_log_then, run_log_then.
  eapply run_bind.
  - apply (run_foldM _
             (fun done (state : list AnyOutputFile * TokenNameTracker) n =>
                fst state = createdFiles n
                /\ state
                   = fold_left
                       (requestFile (ExportContext.tokenGroups runtime)
                          (nameStyleOf
                             (ExportContext.exportConfiguration runtime)))
                       (map (requestFor
                               (computeTokensForTheme
                                  (ExportContext.sdk runtime)
                                  (ExportContext.tokens runtime)
                                  (Some lightTheme))
                               (computeTokensForTheme
                                  (ExportContext.sdk runtime)
                                  (ExportContext.tokens runtime) darkTheme)
                               colorsPath)
                            done)
                       ([], newTokenNameTracker)
                /\ requests n
                   = map (requestFor
                            (computeTokensForTheme
                               (ExportContext.sdk runtime)
                               (ExportContext.tokens runtime)
                               (Some lightTheme))
                            (computeTokensForTheme
                               (ExportContext.sdk runtime)
                               (ExportContext.tokens runtime) darkTheme)
                            colorsPath)
                         done)).
    + repeat split; reflexivity.
    + intros done token [created tracker] n (Hc & Hs & Hr). simpl in Hc.
      eapply run_post; [apply emitToken_run|].
      intros [created' tracker'] n' (Hs' & Hc' & Hr'). simpl in Hc'.
      cbn [fst].
      rewrite createdFiles_app, requests_app, !map_app, fold_left_app.
      cbn [map fold_left]. rewrite <- Hs, <- Hs', Hr, Hr'.
      split; [now rewrite Hc', Hc|]. split; reflexivity.
  - intros [created tracker] n1 (Hc & Hs & Hr). simpl in Hc.
    apply run_log_then.
    destruct (ExporterConfiguration.writeNameToProperty _
              && negb (PulsarContext.isPreview _)).
    + apply (run_bind _ _ (fun _ n => createdFiles n = [] /\ requests n = [])).
      * apply run_emit_then, run_log. split; reflexivity.
      * intros _ n2 [Hc2 Hr2]. apply run_log_then, run_ret.
        rewrite !app_nil_r, createdFiles_app, requests_app, Hc2, Hr2.
        rewrite !app_nil_r, <- Hs. auto.
    + apply run_log_then, run_log_then, run_ret.
      rewrite app_nil_r, <- Hs. auto.
Qed.

(** *** [exportThemeGroup] *)

Lemma exportThemeGroup_run runtime group E :
  run (exportThemeGroup runtime group)
      (fun files new =>
         files = createdFiles new
         /\ files = groupFiles runtime group
         /\ requests new = groupRequests runtime group
         /\ exists rest,
             new = FileCreated
                     (TextFile
                        (namespaceFileOf (ExportContext.rootPath runtime)
                                         group))
                   :: rest
             /\ (XcodeTheme.lightTheme group = None -> rest = []))
      E.
Proof.
  unfold exportThemeGroup, groupFiles, groupRequests.
  apply run_log_then, run_log_then, run_emit_then, run_log_then.
  fold (namespaceFileOf (ExportContext.rootPath runtime) group).
  destruct (XcodeTheme.lightTheme group) as [lightTheme|].
  - apply run_log_then. fold (colorsPathOf (ExportContext.rootPath runtime)
                                           group).
    eapply run_bind; [apply createThemeColors_run|].
    intros files n1 (Hf & Hp & Hr). apply run_ret. rewrite app_nil_r.
    split; [simpl; now rewrite Hf|].
    split; [f_equal; exact Hp|].
    split; [exact Hr|].
    exists n1. split; [reflexivity|discriminate].
  - apply run_log_then, run_ret. simpl. repeat split; trivial.
    now exists [].
Qed.

(** *** [filterExcludedCollections] *)

Lemma filterExcludedCollections_run colorTokens tokenCollections E :
  run (filterExcludedCollections colorTokens tokenCollections)
      (fun kept n => kept = afterExclusion colorTokens tokenCollections
                     /\ n = [])
      E.
Proof.
  unfold filterExcludedCollections, afterExclusion.
  destruct (ExporterConfiguration.excludeCollectionsInPipelines
              exportConfiguration); cbn [negb orb].
  - destruct (ExporterConfiguration.excludedCollections exportConfiguration)
      as [|x l] eqn:Hx; cbn [List.length Nat.eqb].
    + apply run_log_then, run_ret. auto.
    + apply run_log_then, run_log_then, run_log_then, run_ret.
      split; trivial. apply filter_ext. intros token.
      unfold isExcluded, resolveCollection, excludedCollectionNames.
      rewrite Hx.
      destruct (find _ tokenCollections); reflexivity.
  - apply run_log_then, run_ret. auto.
Qed.

(** *** The selection of themes *)

Lemma mapM_lookup_run themes themeIds :
  run (mapM (fun themeId =>
               match find (fun t =>
                             jsstring_eqb (TokenTheme.id t) themeId
                             || jsstring_eqb (TokenTheme.idInVersion t)
                                             themeId)
                          themes with
               | Some theme => ret theme
               | None => throw (str "Unable to find theme " ++ themeId)
               end)
            themeIds)
      (fun ts n => n = [] /\ lookupThemes themes themeIds = inr ts)
      (fun e => lookupThemes themes themeIds = inl e).
Proof.
  induction themeIds as [|themeId rest IH]; cbn [mapM lookupThemes].
  - apply run_ret. auto.
  - change (find (matchesId themeId) themes)
      with (find (fun t => jsstring_eqb (TokenTheme.id t) themeId
                           || jsstring_eqb (TokenTheme.idInVersion t)
                                           themeId) themes).
    destruct (find _ themes) as [t|].
    + apply run_ret_bind.
      eapply run_bind.
      * eapply run_conseq; [exact IH| |].
        -- intros ts n H. exact H.
        -- intros e He. cbv beta. now rewrite He.
      * intros ts n2 [-> Hts]. apply run_ret. now rewrite Hts.
    + now apply run_throw_bind.
Qed.

Lemma resolveThemes_run sdk context remoteVersionIdentifier :
  run (resolveThemes sdk context remoteVersionIdentifier)
      (fun ts n => n = []
                   /\ selection sdk context remoteVersionIdentifier = inr ts)
      (fun e => selection sdk context remoteVersionIdentifier = inl e).
Proof.
  unfold resolveThemes, selection.
  destruct (PulsarContext.themeIds context) as [[|themeId rest]|].
  - apply run_log_then, run_ret. auto.
  - eapply run_bind; [apply mapM_lookup_run|].
    intros ts n1 [-> Hts]. apply run_log_then, run_ret. auto.
  - apply run_log_then, run_ret. auto.
Qed.

(** *** [groupThemes], as it runs inside the entry point *)

Lemma groupThemes_in_run themes E :
  run (groupThemes themes) (fun gs n => gs = groupsOf themes /\ n = []) E.
Proof.
  intros w Hw. rewrite groupThemes_returns. exists [].
  rewrite app_nil_r. unfold afterGroupThemes.
  destruct themes as [|t themes]; [auto|].
  unfold withLogger. destruct (globalLogger w) eqn:El; [|congruence].
  rewrite events_logs. repeat split; trivial.
  rewrite globalLogger_logs. congruence.
Qed.

Lemma logGroupedThemes_run groupedThemes E :
  run (logGroupedThemes groupedThemes) (fun _ n => n = []) E.
Proof.
  unfold logGroupedThemes. destruct groupedThemes; now apply run_log.
Qed.

(** *** The entry point *)

Lemma run_after_getLogger {A} rootPath (k : M A) Q E w :
  run k Q E ->
  match (getLogger rootPath ;;; k) w with
  | Returned a w' =>
      exists new, events w' = events (withLogger rootPath w) ++ new
                  /\ globalLogger w' <> None /\ Q a new
  | Thrown e _ => E e
  end.
Proof.
  intros H. unfold bind. rewrite getLogger_run.
  apply H. apply globalLogger_withLogger.
Qed.

Lemma export_outcome sdk context w :
  match export sdk context w with
  | Returned files w' =>
      exists new,
        events w' = events (withLogger resolveRootPath w) ++ new
        /\ globalLogger w' <> None
        /\ exported sdk context files new
  | Thrown e _ => selection sdk context (remoteOf context) = inl e
  end.
Proof.
  unfold export, loadTokenData. cbv beta iota zeta.
  apply run_after_getLogger.
  do 11 apply run_log_then.
  eapply run_bind; [apply resolveThemes_run|].
  intros themes n1 [-> Hsel]. fold (remoteOf context) in Hsel.
  eapply run_bind; [apply filterExcludedCollections_run|].
  intros kept n2 [-> ->]. fold (remoteOf context). fold (keptTokens sdk context).
  fold rootCatalogFile.
  apply (run_bind _ _
           (fun files n =>
              files = LoggerFile :: createdFiles n
              /\ files
                 = LoggerFile
                   :: (if ExporterConfiguration.generateRootCatalog
                            exportConfiguration
                       then [rootCatalogFile] else [])
              /\ requests n = []
              /\ (ExporterConfiguration.generateRootCatalog
                    exportConfiguration = true
                  -> In (FileCreated rootCatalogFile) n))).
  { destruct (ExporterConfiguration.generateRootCatalog exportConfiguration).
    - apply run_emit_then, run_log_then, run_ret. simpl. auto.
    - apply run_log_then, run_ret. simpl. repeat split; trivial.
      discriminate. }
  intros files0 n3 (Hfiles0 & Hfiles0' & Hreq0 & Hroot).
  eapply run_bind; [apply groupThemes_in_run|].
  intros groups n4 [-> ->].
  eapply run_bind; [apply logGroupedThemes_run|].
  intros _ n5 ->. fold (runtimeOf sdk context).
  eapply run_bind.
  - apply (run_foldM _
             (fun done files n =>
                files = files0 ++ createdFiles n
                /\ files
                   = files0
                     ++ flat_map (groupFiles (runtimeOf sdk context)) done
                /\ requests n
                   = flat_map (groupRequests (runtimeOf sdk context)) done
                /\ forall g, In g done ->
                     In (FileCreated
                           (TextFile (namespaceFileOf resolveRootPath g)))
                        n)).
    + simpl. rewrite app_nil_r. repeat split; trivial.
    + intros done g files n (Hf & Hf' & Hr & Hns).
      eapply run_bind; [apply exportThemeGroup_run|].
      intros gfiles n6 (Hg & Hg' & Hgr & rest & Hn6 & _). apply run_ret.
      rewrite app_nil_r, createdFiles_app, requests_app, !flat_map_app.
      cbn [flat_map]. rewrite !app_nil_r, Hr, Hgr, <- Hg', !app_assoc.
      rewrite <- Hf', <- Hf, <- Hg.
      repeat split; trivial.
      intros g' Hin. apply in_app_iff in Hin as [Hin|[<-|[]]].
      * apply in_app_iff. left. now apply Hns.
      * apply in_app_iff. right. rewrite Hn6. now left.
  - intros files n6 (Hf & Hf' & Hr & Hns). apply run_ret.
    exists themes. simpl. rewrite !app_nil_r.
    rewrite createdFiles_app, requests_app, Hreq0, Hr.
    split; trivial. split; [now rewrite Hf, Hfiles0|].
    split; [now rewrite Hf', Hfiles0'|].
    repeat split; trivial.
    + intros Hgen. apply in_app_iff. left. now apply Hroot.
    + intros g Hin. apply in_app_iff. right. now apply Hns.
Qed.

End IndexFacts.

(* ################################################################# *)
(** * The specification of the theme grouper *)

Section GrouperSpecification.

Context {host : Host}.

Lemma classified_variant t :
  classified t = isSome (getThemeVariant (TokenTheme.name t)).
Proof.
  unfold classified, classify.
  now destruct (getThemeVariant (TokenTheme.name t)).
Qed.

Lemma unclassified_in_no_slot themes t :
  getThemeVariant (TokenTheme.name t) = None ->
  forall g v, In g (groupsOf themes) -> slot v g <> Some t.
Proof.
  intros Hnone g v Hg Hs.
  destruct (groupsOf_slot_Some themes g v t Hg Hs) as (_ & Hv & _).
  congruence.
Qed.

(** C1.  [groupThemes] classifies a theme as light exactly when the
    trimmed, lower-cased name ends with the word "light" at a word
    boundary, and as dark exactly when it ends with the word "dark": a
    theme is only ever stored in the slot of its variant, the slot of the
    variant of every input theme is filled in the group of its base name,
    and a theme whose name matches neither is stored in no group and does
    not change the result. *)
Theorem groupThemes_classifies_by_word_suffix
        (themes : list TokenTheme.t) (w : World) :
  exists result w',
    groupThemes themes w = Returned result w'
    /\ (forall t v,
          getThemeVariant (TokenTheme.name t) = Some v
          <-> endsWithWord (ThemeVariant.toString v)
                           (toLowerCase (trim (TokenTheme.name t))))
    /\ (forall t v,
          In t themes ->
          endsWithWord (ThemeVariant.toString v)
                       (toLowerCase (trim (TokenTheme.name t))) ->
          exists g u,
            In g result
            /\ XcodeTheme.name g
               = deriveBaseThemeName (TokenTheme.name t) (Some v)
            /\ slot v g = Some u
            /\ endsWithWord (ThemeVariant.toString v)
                            (toLowerCase (trim (TokenTheme.name u))))
    /\ (forall g v t,
          In g result -> slot v g = Some t ->
          endsWithWord (ThemeVariant.toString v)
                       (toLowerCase (trim (TokenTheme.name t))))
    /\ (forall t,
          ~ endsWithWord (str "light")
                         (toLowerCase (trim (TokenTheme.name t))) ->
          ~ endsWithWord (str "dark")
                         (toLowerCase (trim (TokenTheme.name t))) ->
          forall g v, In g result -> slot v g <> Some t)
    /\ (exists w'',
          groupThemes (filter classified themes) w = Returned result w'').
Proof.
  exists (groupsOf themes), (afterGroupThemes themes w).
  split; [apply groupThemes_returns|].
  split; [intros t v; apply getThemeVariant_endsWithWord|].
  split; [|split; [|split]].
  - intros t v Hin Hends. apply getThemeVariant_endsWithWord in Hends.
    destruct (groupsOf_classified themes t
                (deriveBaseThemeName (TokenTheme.name t) (Some v)) v Hin)
      as (g & u & Hg & Hname & Hs & Hu).
    { now apply classify_Some. }
    exists g, u. repeat split; trivial.
    apply classify_Some in Hu as [Hu _].
    now apply getThemeVariant_endsWithWord.
  - intros g v t Hg Hs.
    destruct (groupsOf_slot_Some themes g v t Hg Hs) as (_ & Hv & _).
    now apply getThemeVariant_endsWithWord.
  - intros t Hl Hd. apply unclassified_in_no_slot.
    apply getThemeVariant_none. now split.
  - exists (afterGroupThemes (filter classified themes) w).
    rewrite groupThemes_returns. now rewrite groupsOf_filter.
Qed.

(** *** The warning in the log file *)

(** A message that is logged is a line of the file. *)
Lemma hasLine_log_same l m :
  hasLine (OutputTextFile.content (Logger.file (Logger.log m l))) m.
Proof.
  unfold Logger.log. cbn [Logger.file OutputTextFile.content].
  destruct (OutputTextFile.content (Logger.file l)) as [|c content];
    cbn [truthy].
  - exists [], []. rewrite app_nil_r. auto.
  - exists ((c :: content) ++ [10%N]), [].
    rewrite app_nil_r, <- app_assoc. split; [reflexivity|].
    split; [right; now exists (c :: content)|now left].
Qed.

(** A line of the file remains one when a message is logged. *)
Lemma hasLine_log_other l m x :
  m <> [] ->
  hasLine (OutputTextFile.content (Logger.file l)) m ->
  hasLine (OutputTextFile.content (Logger.file (Logger.log x l))) m.
Proof.
  intros Hm (before & after & Hc & Hb & Ha).
  unfold Logger.log. cbn [Logger.file OutputTextFile.content].
  rewrite Hc.
  assert (Ht : truthy (before ++ m ++ after) = true).
  { destruct before; [|reflexivity]. destruct m; [congruence|reflexivity]. }
  rewrite Ht. exists before, (after ++ [10%N] ++ x).
  split; [now rewrite <- !app_assoc|]. split; [exact Hb|]. right.
  destruct Ha as [->|(a & ->)]; [now exists x|].
  now exists (a ++ [10%N] ++ x).
Qed.

Lemma hasLine_fold msgs l m :
  m <> [] ->
  hasLine (OutputTextFile.content (Logger.file l)) m ->
  hasLine (OutputTextFile.content
             (Logger.file (fold_left (fun l m => Logger.log m l) msgs l)))
          m.
Proof.
  intros Hm. revert l. induction msgs as [|x msgs IH]; intros l H;
    [exact H|].
  cbn [fold_left]. apply IH. now apply hasLine_log_other.
Qed.

(** Every non-empty message of a sequence that is logged is a line of the
    file afterwards. *)
Lemma hasLine_logged msgs l m :
  In m msgs -> m <> [] ->
  hasLine (OutputTextFile.content
             (Logger.file (fold_left (fun l m => Logger.log m l) msgs l)))
          m.
Proof.
  intros Hin Hm. revert l. induction msgs as [|x msgs IH]; intros l;
    [destruct Hin|].
  cbn [fold_left]. destruct Hin as [->|Hin]; [|now apply IH].
  apply hasLine_fold; [exact Hm|apply hasLine_log_same].
Qed.

(** The file after a sequence of messages was logged. *)
Lemma content_logged msgs l :
  OutputTextFile.content
    (Logger.file (fold_left (fun l m => Logger.log m l) msgs l))
  = appendLines (OutputTextFile.content (Logger.file l)) msgs.
Proof.
  revert l. induction msgs as [|m msgs IH]; intros l; [reflexivity|].
  cbn [fold_left]. rewrite IH. reflexivity.
Qed.

(** Creating the logger leaves the content of the log file as it is. *)
Lemma logContent_withLogger rootPath w :
  logContent (withLogger rootPath w) = logContent w.
Proof.
  unfold withLogger, logContent.
  destruct (globalLogger w) eqn:Hw; [now rewrite Hw|reflexivity].
Qed.

(** The text of the warning, as the template of the source spells it. *)
Lemma duplicateMessage_text v b :
  duplicateMessage v b
  = str "Duplicate "
    ++ match v with
       | ThemeVariant.light => str "light"
       | ThemeVariant.dark => str "dark"
       end
    ++ str " theme found for base '" ++ b
    ++ str "'. Replacing existing theme.".
Proof. destruct v; reflexivity. Qed.

(** No line is logged for themes that all have a variant and of which
    none is grouped as an earlier one is. *)
Lemma expectedLog_quiet seen themes :
  (forall t, In t themes -> classify t <> None) ->
  (forall pre t post,
      themes = pre ++ t :: post ->
      forall u, In u (seen ++ pre) -> classify u <> classify t) ->
  expectedLog seen themes = [].
Proof.
  revert seen. induction themes as [|t themes IH]; intros seen Hall Hnew;
    [reflexivity|].
  cbn [expectedLog]. rewrite IH.
  - rewrite app_nil_r. unfold themeMessages.
    destruct (classify t) as [[b v]|] eqn:Hc.
    + destruct (existsb (classifiesAs b v) seen) eqn:He; [|reflexivity].
      apply existsb_exists in He as (u & Hu & Hcu).
      apply classifiesAs_spec in Hcu.
      destruct (Hnew [] t themes eq_refl u); [|congruence].
      now rewrite app_nil_r.
    + destruct (Hall t (or_introl eq_refl) Hc).
  - intros u Hu. apply Hall. now right.
  - intros pre u post -> x Hx. apply (Hnew (t :: pre) u post eq_refl).
    rewrite <- app_assoc in Hx. exact Hx.
Qed.

(** C4.  Last wins, with a warning.  The slot of a base name and variant
    holds the last input theme that is grouped under them.  For every theme
    that is grouped as an earlier theme of the input is, the log file holds
    after the call the line [Duplicate light theme found for base 'B'.
    Replacing existing theme.] (or [dark]), with the base name for [B]: it
    is appended to the content of the file behind the lines of the themes
    before it and before the lines of the themes after it.  When every
    theme has a variant and none is grouped as an earlier one is, the call
    leaves the content of the log file as it is. *)
Theorem groupThemes_last_wins_with_warning
        (themes : list TokenTheme.t) (w : World) :
  exists result w',
    groupThemes themes w = Returned result w'
    /\ (forall pre t post b v,
          themes = pre ++ t :: post ->
          classify t = Some (b, v) ->
          (forall u, In u post -> classify u <> Some (b, v)) ->
          exists g,
            In g result /\ XcodeTheme.name g = b /\ slot v g = Some t)
    /\ (forall pre t post b v,
          themes = pre ++ t :: post ->
          classify t = Some (b, v) ->
          (exists u, In u pre /\ classify u = Some (b, v)) ->
          exists file,
            deref w' LoggerFile = Some file
            /\ hasLine (OutputTextFile.content file)
                 (str "Duplicate "
                  ++ match v with
                     | ThemeVariant.light => str "light"
                     | ThemeVariant.dark => str "dark"
                     end
                  ++ str " theme found for base '" ++ b
                  ++ str "'. Replacing existing theme.")
            /\ OutputTextFile.content file
               = appendLines (logContent w)
                   (expectedLog [] pre
                    ++ [str "Duplicate "
                        ++ match v with
                           | ThemeVariant.light => str "light"
                           | ThemeVariant.dark => str "dark"
                           end
                        ++ str " theme found for base '" ++ b
                        ++ str "'. Replacing existing theme."]
                    ++ expectedLog (pre ++ [t]) post))
    /\ ((forall t, In t themes -> classify t <> None) ->
        (forall pre t post,
            themes = pre ++ t :: post ->
            forall u, In u pre -> classify u <> classify t) ->
        logContent w' = logContent w).
Proof.
  exists (groupsOf themes), (afterGroupThemes themes w).
  split; [apply groupThemes_returns|]. split; [|split].
  - intros pre t post b v -> Hc Hpost.
    destruct (groupsOf_named (pre ++ t :: post) b) as (g & Hg & Hname).
    { apply In_basesOf. exists t, v. split; trivial.
      apply in_app_iff. right. now left. }
    exists g. repeat split; trivial.
    rewrite (groupsOf_slot _ g v Hg), Hname. now apply lastOf_last.
  - intros pre t post b v -> Hc (u & Hu & Hcu).
    assert (Hin : In (duplicateMessage v b)
                     (expectedLog [] (pre ++ t :: post))).
    { rewrite expectedLog_app. apply in_app_iff. right.
      cbn [expectedLog app]. apply in_app_iff. left.
      unfold themeMessages. rewrite Hc.
      replace (existsb (classifiesAs b v) pre) with true; [now left|].
      symmetry. apply existsb_exists. exists u. split; trivial.
      now apply classifiesAs_spec. }
    assert (Hlog : expectedLog [] (pre ++ t :: post)
                   = expectedLog [] pre ++ [duplicateMessage v b]
                     ++ expectedLog (pre ++ [t]) post).
    { rewrite expectedLog_app. cbn [expectedLog app]. f_equal.
      unfold themeMessages. rewrite Hc.
      replace (existsb (classifiesAs b v) pre) with true; [reflexivity|].
      symmetry. apply existsb_exists. exists u. split; trivial.
      now apply classifiesAs_spec. }
    rewrite duplicateMessage_text in Hin, Hlog.
    unfold afterGroupThemes.
    destruct (pre ++ t :: post) as [|t0 rest] eqn:Hthemes;
      [now destruct pre|].
    rewrite <- (logContent_withLogger [] w).
    destruct (globalLogger (withLogger [] w)) as [l|] eqn:Hl;
      [|now apply globalLogger_withLogger in Hl].
    unfold deref, logs, logContent. rewrite Hl.
    cbn [option_map globalLogger].
    eexists. split; [reflexivity|]. split.
    + apply hasLine_logged; [exact Hin|discriminate].
    + unfold Logger.getFile. now rewrite content_logged, Hlog.
  - intros Hall Hnew. unfold afterGroupThemes.
    destruct themes as [|t0 rest]; [reflexivity|].
    rewrite (expectedLog_quiet [] (t0 :: rest) Hall Hnew), logs_nil.
    apply logContent_withLogger.
Qed.

(** C8.  The base name a classified theme is grouped under is the first
    white-space-delimited token of its trimmed name; a theme without a
    recognised suffix is in no group and does not change the result. *)
Theorem groupThemes_base_is_first_token
        (themes : list TokenTheme.t) (w : World) :
  exists result w',
    groupThemes themes w = Returned result w'
    /\ (forall t v,
          In t themes -> getThemeVariant (TokenTheme.name t) = Some v ->
          exists g,
            In g result
            /\ firstToken (trim (TokenTheme.name t)) (XcodeTheme.name g)
            /\ slot v g <> None)
    /\ (forall g v t,
          In g result -> slot v g = Some t ->
          firstToken (trim (TokenTheme.name t)) (XcodeTheme.name g))
    /\ (forall t,
          getThemeVariant (TokenTheme.name t) = None ->
          forall g v, In g result -> slot v g <> Some t)
    /\ (exists w'',
          groupThemes (filter classified themes) w = Returned result w'').
Proof.
  exists (groupsOf themes), (afterGroupThemes themes w).
  split; [apply groupThemes_returns|]. split; [|split; [|split]].
  - intros t v Hin Hv.
    destruct (groupsOf_classified themes t
                (deriveBaseThemeName (TokenTheme.name t) (Some v)) v Hin)
      as (g & u & Hg & Hname & Hs & _).
    { now apply classify_Some. }
    exists g. split; trivial. rewrite Hname, Hs.
    split; [apply deriveBaseThemeName_firstToken|discriminate].
  - intros g v t Hg Hs.
    destruct (groupsOf_slot_Some themes g v t Hg Hs) as (_ & _ & ->).
    apply deriveBaseThemeName_firstToken.
  - intros t Hnone. now apply unclassified_in_no_slot.
  - exists (afterGroupThemes (filter classified themes) w).
    rewrite groupThemes_returns. now rewrite groupsOf_filter.
Qed.

(** C9.  The groups come in the order in which their base names first
    occur among the themes that are grouped, no group has both slots
    empty, and the empty input gives the empty result. *)
Theorem groupThemes_order_and_population
        (themes : list TokenTheme.t) (w : World) :
  groupThemes [] w = Returned [] w
  /\ exists result w',
      groupThemes themes w = Returned result w'
      /\ map XcodeTheme.name result = firstOccurrences (basesOf themes)
      /\ NoDup (map XcodeTheme.name result)
      /\ forall g, In g result ->
           XcodeTheme.lightTheme g <> None
           \/ XcodeTheme.darkTheme g <> None.
Proof.
  split; [reflexivity|].
  exists (groupsOf themes), (afterGroupThemes themes w).
  split; [apply groupThemes_returns|]. split; [apply groupsOf_names|].
  split.
  - rewrite groupsOf_names. apply firstOccurrences_NoDup.
  - apply groupsOf_not_empty.
Qed.

(** C10.  Every theme stored in a group of the result is a theme of the
    input, is in the slot of its own variant, and is in the group named by
    its own base name; there are at most as many groups as input
    themes. *)
Theorem groupThemes_slots_sound (themes : list TokenTheme.t) (w : World) :
  exists result w',
    groupThemes themes w = Returned result w'
    /\ (forall g v t,
          In g result -> slot v g = Some t ->
          In t themes
          /\ getThemeVariant (TokenTheme.name t) = Some v
          /\ XcodeTheme.name g
             = deriveBaseThemeName (TokenTheme.name t) (Some v))
    /\ List.length result <= List.length themes.
Proof.
  exists (groupsOf themes), (afterGroupThemes themes w).
  split; [apply groupThemes_returns|]. split.
  - apply groupsOf_slot_Some.
  - apply groupsOf_length.
Qed.

End GrouperSpecification.

(* ################################################################# *)
(** * The specification of the export *)

Lemma In_createdFiles f evs :
  In f (createdFiles evs) <-> In (FileCreated f) evs.
Proof.
  unfold createdFiles. rewrite in_flat_map. split.
  - intros (e & He & Hf). destruct e; simpl in Hf; try contradiction.
    destruct Hf as [->|[]]. exact He.
  - intros H. exists (FileCreated f). split; [exact H|now left].
Qed.

Lemma In_requests r evs :
  In r (requests evs)
  <-> In (PerTokenFileRequested (fst (fst r)) (snd (fst r)) (snd r)) evs.
Proof.
  unfold requests. rewrite in_flat_map. destruct r as [[b p] vs]. simpl. split.
  - intros (e & He & Hf). destruct e; simpl in Hf; try contradiction.
    destruct Hf as [[= -> -> ->]|[]]. exact He.
  - intros H. exists (PerTokenFileRequested b p vs). split; [exact H|now left].
Qed.

(** [find] returns the first element that satisfies the predicate. *)
Lemma find_first {A} (p : A -> bool) (l : list A) (x : A) :
  find p l = Some x
  <-> exists pre post,
      l = pre ++ x :: post /\ p x = true
      /\ forall y, In y pre -> p y = false.
Proof.
  induction l as [|a l IH]; simpl.
  - split; [discriminate|]. intros (pre & post & H & _).
    destruct pre; discriminate.
  - destruct (p a) eqn:Ha.
    + split.
      * intros [= ->]. exists [], l. repeat split; trivial. intros y [].
      * intros (pre & post & Hl & Hx & Hpre). destruct pre as [|b pre].
        -- simpl in Hl. congruence.
        -- simpl in Hl. injection Hl as <- _.
           rewrite (Hpre a) in Ha by now left. discriminate.
    + rewrite IH. split.
      * intros (pre & post & -> & Hx & Hpre). exists (a :: pre), post.
        repeat split; trivial. intros y [<-|Hy]; auto.
      * intros (pre & post & Hl & Hx & Hpre). destruct pre as [|b pre].
        -- simpl in Hl. injection Hl as -> _. congruence.
        -- simpl in Hl. injection Hl as <- ->. exists pre, post.
           repeat split; trivial. intros y Hy. apply Hpre. now right.
Qed.

Section ExportSpecification.

Context {host : Host} {pulsar : Pulsar} {utils : ExportUtils}.

(** *** The selection of themes *)

Lemma matchesId_spec themeId t :
  matchesId themeId t = true <-> idMatches themeId t.
Proof.
  unfold matchesId, idMatches. rewrite orb_true_iff, !jsstring_eqb_eq.
  reflexivity.
Qed.

Lemma lookupThemes_inr themes themeIds ts :
  lookupThemes themes themeIds = inr ts ->
  Forall2 (fun themeId t => In t themes /\ idMatches themeId t) themeIds ts.
Proof.
  revert ts. induction themeIds as [|i rest IH]; intros ts; simpl.
  - intros [= <-]. constructor.
  - destruct (find (matchesId i) themes) as [t|] eqn:Ef; [|discriminate].
    destruct (lookupThemes themes rest) as [e|ts']; [discriminate|].
    intros [= <-]. constructor; [|now apply IH].
    apply find_some in Ef as [Hin Hm]. split; trivial.
    now apply matchesId_spec.
Qed.

Lemma lookupThemes_inl themes themeIds e :
  lookupThemes themes themeIds = inl e ->
  exists i, In i themeIds
            /\ e = str "Unable to find theme " ++ i
            /\ forall t, In t themes -> ~ idMatches i t.
Proof.
  induction themeIds as [|i rest IH]; simpl; [discriminate|].
  destruct (find (matchesId i) themes) as [t|] eqn:Ef.
  - destruct (lookupThemes themes rest) as [e'|ts']; [|discriminate].
    intros [= <-]. destruct (IH eq_refl) as (j & Hj & He & Hno).
    exists j. repeat split; trivial. now right.
  - intros [= <-]. exists i. repeat split; trivial; [now left|].
    intros t Hin Hm. apply matchesId_spec in Hm.
    pose proof (find_none _ _ Ef _ Hin). congruence.
Qed.

(** C3.  For a non-empty selection of theme ids: when every id matches a
    fetched theme by [id] or [idInVersion], the run returns its files, and
    the themes it groups are, id by id, fetched themes that match; when
    some id matches no fetched theme, the run throws the error that names
    an unmatched id, and returns no files. *)
Theorem export_resolves_or_throws
        (sdk : Supernova.t) (context : PulsarContext.t) (w : World)
        (themeIds : list jsstring) :
  PulsarContext.themeIds context = Some themeIds ->
  themeIds <> [] ->
  let themes := Supernova.getTokenThemes sdk (remoteOf context) in
  ((forall i, In i themeIds -> exists t, In t themes /\ idMatches i t) ->
   exists resolved files w',
     Forall2 (fun i t => In t themes /\ idMatches i t) themeIds resolved
     /\ export sdk context w = Returned files w'
     /\ files
        = LoggerFile
          :: (if ExporterConfiguration.generateRootCatalog
                   exportConfiguration
              then [rootCatalogFile] else [])
          ++ flat_map (groupFiles (runtimeOf sdk context))
                      (groupsOf resolved))
  /\ ((exists i, In i themeIds /\ forall t, In t themes -> ~ idMatches i t) ->
      exists i w',
        In i themeIds
        /\ (forall t, In t themes -> ~ idMatches i t)
        /\ export sdk context w
           = Thrown (str "Unable to find theme " ++ i) w').
Proof.
  intros Hids Hne themes. pose proof (export_outcome sdk context w) as Hout.
  unfold exported, selection in Hout. rewrite Hids in Hout.
  fold themes in Hout.
  destruct (lookupThemes themes themeIds) as [e|resolved] eqn:El.
  - destruct (lookupThemes_inl _ _ _ El) as (j & Hj & He & Hno).
    split.
    + intros Hall. destruct (Hall j Hj) as (t & Ht & Hm).
      destruct (Hno t Ht Hm).
    + intros _. destruct (export sdk context w) as [files w'|e' w'].
      * destruct Hout as (new & _ & _ & ths & Habs & _). discriminate.
      * injection Hout as <-. exists j, w'. rewrite He. auto.
  - pose proof (lookupThemes_inr _ _ _ El) as Hres. split.
    + intros _. destruct (export sdk context w) as [files w'|e' w'].
      * destruct Hout as (new & _ & _ & ths & [= <-] & _ & Hfiles & _).
        exists resolved, files, w'. auto.
      * discriminate.
    + intros (i & Hi & Hno). exfalso.
      revert Hi. clear -Hres Hno. induction Hres as [|j t ids ts [Ht Hm] _ IH].
      * intros [].
      * intros [->|Hi]; [exact (Hno t Ht Hm)|auto].
Qed.

(** C2.  The list a run returns holds every file of the run: whatever
    file the run has created is in the list; the list is the log file, the
    root catalog file when enabled, and, group by group, the namespace
    marker of the group followed by its per-token files. *)
Theorem export_returns_every_emitted_file
        (sdk : Supernova.t) (context : PulsarContext.t) (w : World)
        (files : list AnyOutputFile) (w' : World) :
  export sdk context w = Returned files w' ->
  exists themes new,
    selection sdk context (remoteOf context) = inr themes
    /\ events w' = events w ++ new
    /\ (forall f, In (FileCreated f) new -> In f files)
    /\ In LoggerFile files
    /\ (ExporterConfiguration.generateRootCatalog exportConfiguration = true
        -> In rootCatalogFile files)
    /\ (forall g f,
          In g (groupsOf themes) ->
          In f (groupFiles (runtimeOf sdk context) g) -> In f files)
    /\ files
       = LoggerFile
         :: (if ExporterConfiguration.generateRootCatalog exportConfiguration
             then [rootCatalogFile] else [])
         ++ flat_map (groupFiles (runtimeOf sdk context)) (groupsOf themes).
Proof.
  intros Hrun. pose proof (export_outcome sdk context w) as Hout.
  rewrite Hrun in Hout.
  destruct Hout as (new & Hev & _ & themes & Hsel & Hcreated & Hfiles
                    & _ & Hroot & _).
  exists themes.
  exists ((match globalLogger w with
           | Some _ => []
           | None => [FileCreated LoggerFile]
           end) ++ new).
  split; trivial. split.
  { rewrite Hev. unfold withLogger.
    destruct (globalLogger w); simpl; [reflexivity|].
    now rewrite <- app_assoc. }
  split.
  { intros f Hin. rewrite Hcreated. apply in_app_iff in Hin as [Hin|Hin].
    - destruct (globalLogger w); [destruct Hin|].
      destruct Hin as [[= <-]|[]]. now left.
    - right. now apply In_createdFiles. }
  split; [rewrite Hcreated; now left|].
  split.
  { intros Hgen. rewrite Hcreated. right. apply In_createdFiles. auto. }
  split; trivial.
  intros g f Hg Hf. rewrite Hfiles. right. apply in_app_iff. right.
  apply in_flat_map. now exists g.
Qed.

(** *** Token values *)




(** *** The namespace marker *)

Lemma namespaceMarker_text :
  JSON.stringify namespaceMarker 2 = namespaceMarkerText.
Proof. vm_compute. reflexivity. Qed.

(** C7.  A group without a light theme yields exactly one file, the
    namespace marker [Contents.json] in the folder of the group's code-safe
    name, whose content is the namespace object; no per-token file is
    requested or created for it. *)
Theorem exportThemeGroup_without_light_theme
        (runtime : ExportContext.t) (group : XcodeTheme.t) (w : World) :
  globalLogger w <> None ->
  XcodeTheme.lightTheme group = None ->
  let rootPath := ExportContext.rootPath runtime in
  let themeName :=
    codeSafeVariableName (XcodeTheme.name group) StringCase.pascalCase in
  let marker :=
    OutputTextFile.mk
      (if truthy rootPath then str "./" ++ rootPath ++ str "/" ++ themeName
       else str "./" ++ themeName)
      (str "Contents.json")
      namespaceMarkerText in
  exists w',
    exportThemeGroup runtime group w = Returned [TextFile marker] w'
    /\ events w' = events w ++ [FileCreated (TextFile marker)]
    /\ JSON.stringify
         (JSON.Obj
            [(str "info",
              JSON.Obj [(str "version", JSON.Num 1);
                        (str "author", JSON.Str (str "xcode"))]);
             (str "properties",
              JSON.Obj [(str "provides-namespace", JSON.Bool true)])])
         2
       = OutputTextFile.content marker.
Proof.
  intros Hw Hlight rootPath themeName marker.
  pose proof (exportThemeGroup_run runtime group (fun _ => False) w Hw)
    as Hrun.
  destruct (exportThemeGroup runtime group w) as [files w'|e w'];
    [|destruct Hrun].
  destruct Hrun as (new & Hev & _ & Hcreated & _ & _ & rest & Hnew & Hrest).
  rewrite (Hrest Hlight) in Hnew. subst new. simpl in Hcreated.
  assert (Hmarker : namespaceFileOf (ExportContext.rootPath runtime) group
                    = marker).
  { unfold namespaceFileOf, createNameSpaceFolder, createTextFile.
    now rewrite namespaceMarker_text. }
  rewrite Hmarker in *. exists w'. subst files.
  split; [reflexivity|]. split; [exact Hev|]. exact namespaceMarker_text.
Qed.

(** *** Excluded collections *)

Lemma collection_test token c :
  match Token.collectionId token with
  | Some i => jsstring_eqb (TokenCollection.persistentId c) i
  | None => false
  end = true
  <-> Token.collectionId token = Some (TokenCollection.persistentId c).
Proof.
  destruct (Token.collectionId token) as [i|]; [|easy].
  rewrite jsstring_eqb_eq. split; congruence.
Qed.

Lemma resolveCollection_belongsTo tokenCollections token c :
  resolveCollection tokenCollections token = Some c
  <-> belongsTo tokenCollections token c.
Proof.
  unfold resolveCollection, belongsTo. rewrite find_first.
  split; intros (pre & post & Hl & Hc & Hpre); exists pre, post;
    (split; [exact Hl|]); (split; [now apply collection_test|]).
  - intros c' Hin Heq. apply collection_test in Heq.
    rewrite (Hpre c' Hin) in Heq. discriminate.
  - intros c' Hin.
    destruct (match Token.collectionId token with
              | Some i => jsstring_eqb (TokenCollection.persistentId c') i
              | None => false
              end) eqn:E; trivial.
    apply collection_test in E. destruct (Hpre c' Hin E).
Qed.

Lemma belongsTo_unique tokenCollections token c c' :
  belongsTo tokenCollections token c ->
  belongsTo tokenCollections token c' -> c = c'.
Proof.
  intros H H'. apply resolveCollection_belongsTo in H, H'. congruence.
Qed.

Lemma isExcluded_spec tokenCollections token :
  isExcluded tokenCollections token = true
  <-> inExcludedCollection tokenCollections token.
Proof.
  unfold isExcluded, inExcludedCollection, excludedCollectionNames.
  destruct (resolveCollection tokenCollections token) as [c|] eqn:E.
  - rewrite existsb_exists. split.
    + intros (x & Hx & Heq). apply jsstring_eqb_eq in Heq. subst x.
      exists c. split; trivial. now apply resolveCollection_belongsTo.
    + intros (c' & Hb & Hin). apply resolveCollection_belongsTo in Hb.
      assert (c' = c) by congruence. subst c'.
      eexists. split; [exact Hin|apply jsstring_eqb_refl].
  - split; [discriminate|]. intros (c & Hb & _).
    apply resolveCollection_belongsTo in Hb. congruence.
Qed.

(** The per-token files of a run are requested for kept tokens only. *)
Lemma export_requests_for_kept_tokens sdk context w files w' :
  export sdk context w = Returned files w' ->
  forall baseToken colorsPath variants,
    In (PerTokenFileRequested baseToken colorsPath variants) (events w') ->
    In (PerTokenFileRequested baseToken colorsPath variants) (events w)
    \/ exists token,
        In token (keptTokens sdk context)
        /\ Token.id baseToken = Token.id token.
Proof.
  intros Hrun b p vs Hin. pose proof (export_outcome sdk context w) as Hout.
  rewrite Hrun in Hout.
  destruct Hout as (new & Hev & _ & themes & _ & _ & _ & Hreq & _).
  rewrite Hev in Hin. apply in_app_iff in Hin as [Hin|Hin].
  - unfold withLogger in Hin. destruct (globalLogger w); [now left|].
    simpl in Hin. apply in_app_iff in Hin as [Hin|[Hin|[]]]; [now left|].
    discriminate.
  - right. apply (In_requests (b, p, vs)) in Hin. rewrite Hreq in Hin.
    apply in_flat_map in Hin as (g & _ & Hin). unfold groupRequests in Hin.
    destruct (XcodeTheme.lightTheme g) as [lt|]; [|destruct Hin].
    unfold themeRequests in Hin. apply in_map_iff in Hin as (token & Heq & Ht).
    exists token. split; [exact Ht|].
    unfold requestFor in Heq. injection Heq as Hb _ _. simpl in Hb.
    destruct (valueUnder _ (Token.id token)) as [b'|] eqn:E.
    + subst b'. now apply valueUnder_Some in E.
    + now subst b.
Qed.

Lemma afterExclusion_configured colorTokens tokenCollections :
  ExporterConfiguration.excludeCollectionsInPipelines exportConfiguration
  = true ->
  ExporterConfiguration.excludedCollections exportConfiguration <> [] ->
  afterExclusion colorTokens tokenCollections
  = filter (fun token => negb (isExcluded tokenCollections token))
           colorTokens.
Proof.
  intros Hflag Hlist. unfold afterExclusion. rewrite Hflag.
  destruct (ExporterConfiguration.excludedCollections exportConfiguration);
    congruence.
Qed.

Lemma filter_not_excluded colorTokens tokenCollections token :
  In token (filter (fun token => negb (isExcluded tokenCollections token))
                   colorTokens)
  <-> In token colorTokens
      /\ ~ inExcludedCollection tokenCollections token.
Proof.
  rewrite filter_In, negb_true_iff, <- isExcluded_spec.
  destruct (isExcluded tokenCollections token); split;
    intros [H1 H2]; split; trivial; congruence.
Qed.

(** [filterExcludedCollections] returns in every state, also in the state
    of a process that has not created its logger, and causes no event. *)
Lemma filterExcludedCollections_returns colorTokens tokenCollections w :
  exists w',
    filterExcludedCollections colorTokens tokenCollections w
    = Returned (afterExclusion colorTokens tokenCollections) w'
    /\ events w' = events w.
Proof.
  unfold filterExcludedCollections, afterExclusion.
  destruct (ExporterConfiguration.excludeCollectionsInPipelines
              exportConfiguration); cbn [negb orb].
  - destruct (ExporterConfiguration.excludedCollections exportConfiguration)
      as [|x l] eqn:Hx; cbn [List.length Nat.eqb].
    + unfold bind, ret. rewrite log_run. eexists. split; reflexivity.
    + unfold bind, ret. rewrite !log_run. eexists.
      split; [apply (f_equal2 (@Returned _)); [|reflexivity]|reflexivity].
      apply filter_ext. intros token.
      unfold isExcluded, resolveCollection, excludedCollectionNames.
      rewrite Hx.
      destruct (find _ tokenCollections); reflexivity.
  - unfold bind, ret. rewrite log_run. eexists. split; reflexivity.
Qed.

(** C6.  With the exclusion flag set and a non-empty list of excluded
    collections, [filterExcludedCollections] drops exactly the tokens whose
    collection (found by [persistentId]) has a name that, lower-cased and
    trimmed, is among the lower-cased, trimmed excluded names; it keeps the
    other tokens in their order, among them the tokens without a
    collection; and the per-token files of a run are requested only for
    colour tokens that are not in an excluded collection.  With the flag
    unset or the list empty it keeps every token.  All of it holds in every
    state, the one of a process in its first run among them. *)
Theorem filterExcludedCollections_drops_excluded
        (colorTokens : list Token.t)
        (tokenCollections : list TokenCollection.t) (w : World) :
  (exists kept w',
      filterExcludedCollections colorTokens tokenCollections w
      = Returned kept w'
      /\ events w' = events w
      /\ (ExporterConfiguration.excludeCollectionsInPipelines
            exportConfiguration = true ->
          ExporterConfiguration.excludedCollections exportConfiguration
          <> [] ->
          (forall token,
              In token kept
              <-> In token colorTokens
                  /\ ~ inExcludedCollection tokenCollections token)
          /\ kept
             = filter (fun token =>
                         negb (isExcluded tokenCollections token))
                      colorTokens
          /\ (forall token,
                In token colorTokens ->
                (forall c, In c tokenCollections ->
                           Token.collectionId token
                           <> Some (TokenCollection.persistentId c)) ->
                In token kept))
      /\ (ExporterConfiguration.excludeCollectionsInPipelines
            exportConfiguration = false
          \/ ExporterConfiguration.excludedCollections exportConfiguration
             = []
          -> kept = colorTokens))
  /\ (ExporterConfiguration.excludeCollectionsInPipelines
        exportConfiguration = true ->
      ExporterConfiguration.excludedCollections exportConfiguration <> [] ->
      forall sdk context files w',
        export sdk context w = Returned files w' ->
        forall baseToken colorsPath variants,
          In (PerTokenFileRequested baseToken colorsPath variants)
             (events w') ->
          In (PerTokenFileRequested baseToken colorsPath variants)
             (events w)
          \/ exists token,
              Token.id baseToken = Token.id token
              /\ TokenType.isColor (Token.tokenType token) = true
              /\ In token (Supernova.getTokens sdk (remoteOf context)
                             (PulsarContext.brandId context))
              /\ ~ inExcludedCollection
                     (Supernova.getTokenCollections sdk (remoteOf context))
                     token).
Proof.
  split.
  - destruct (filterExcludedCollections_returns colorTokens tokenCollections
                w) as (w' & Hrun & Hev).
    exists (afterExclusion colorTokens tokenCollections), w'.
    split; trivial. split; trivial. split.
    + intros Hflag Hlist. rewrite (afterExclusion_configured _ _ Hflag Hlist).
      split; [intros token; apply filter_not_excluded|].
      split; [reflexivity|].
      intros token Htok Hnone. apply filter_not_excluded. split; trivial.
      intros (c & (pre & post & Hl & Hc & _) & _).
      apply (Hnone c); trivial. rewrite Hl. apply in_app_iff. right.
      now left.
    + unfold afterExclusion. intros [Hflag|Hlist].
      * now rewrite Hflag.
      * rewrite Hlist.
        now destruct (ExporterConfiguration.excludeCollectionsInPipelines
                        exportConfiguration).
  - intros Hflag Hlist sdk context files w' Hrun b p vs Hin.
    destruct (export_requests_for_kept_tokens _ _ _ _ _ Hrun b p vs Hin)
      as [Hold|(token & Hkept & Hid)]; [now left|].
    right. exists token. split; trivial. unfold keptTokens in Hkept.
    rewrite (afterExclusion_configured _ _ Hflag Hlist) in Hkept.
    apply filter_not_excluded in Hkept as [Hcolor Hnot].
    apply filter_In in Hcolor as [Hin' Hcolor]. auto.
Qed.

End ExportSpecification.

(* ################################################################# *)
(** * Further properties of the code *)

(* ================================================================= *)
(** ** The logger *)

Lemma join_cons (sep x : jsstring) (rest : list jsstring) :
  join sep (x :: rest) = x ++ flat_map (fun m => sep ++ m) rest.
Proof.
  revert x. induction rest as [|y rest IH]; intros x.
  - simpl. now rewrite app_nil_r.
  - change (join sep (x :: y :: rest)) with (x ++ sep ++ join sep (y :: rest)).
    rewrite IH. simpl. now rewrite <- !app_assoc.
Qed.

Lemma logAll_file_place msgs l :
  OutputTextFile.path (Logger.file (logAll msgs l))
  = OutputTextFile.path (Logger.file l)
  /\ OutputTextFile.name (Logger.file (logAll msgs l))
     = OutputTextFile.name (Logger.file l).
Proof.
  revert l. induction msgs as [|m msgs IH]; intros l; [now split|].
  unfold logAll in *. simpl. destruct (IH (Logger.log m l)) as [Hp Hn].
  rewrite Hp, Hn. now split.
Qed.

Lemma logAll_messages msgs l :
  Logger.messages (logAll msgs l) = Logger.messages l ++ msgs.
Proof. apply messages_fold. Qed.

Lemma logAll_app a b l : logAll (a ++ b) l = logAll b (logAll a l).
Proof. unfold logAll. apply fold_left_app. Qed.

Lemma logAll_content_started msgs l :
  truthy (OutputTextFile.content (Logger.file l)) = true ->
  OutputTextFile.content (Logger.file (logAll msgs l))
  = OutputTextFile.content (Logger.file l)
    ++ flat_map (fun m => [10%N] ++ m) msgs.
Proof.
  revert l. induction msgs as [|m msgs IH]; intros l Hc.
  - simpl. now rewrite app_nil_r.
  - unfold logAll in *. cbn [fold_left flat_map]. rewrite IH.
    + unfold Logger.log. cbn [Logger.file OutputTextFile.content].
      rewrite Hc. now rewrite <- !app_assoc.
    + unfold Logger.log. cbn [Logger.file OutputTextFile.content].
      rewrite Hc. destruct (OutputTextFile.content (Logger.file l));
        [discriminate|reflexivity].
Qed.

Lemma logAll_content_empty msgs l :
  OutputTextFile.content (Logger.file l) = [] ->
  OutputTextFile.content (Logger.file (logAll msgs l))
  = join [10%N] (dropEmpty msgs).
Proof.
  revert l. induction msgs as [|m msgs IH]; intros l Hc; [exact Hc|].
  cbn [dropEmpty]. destruct m as [|c m].
  - cbn [truthy]. unfold logAll in *. cbn [fold_left]. apply IH.
    unfold Logger.log. cbn [Logger.file OutputTextFile.content].
    now rewrite Hc.
  - cbn [truthy]. rewrite join_cons.
    change (logAll ((c :: m) :: msgs) l)
      with (logAll msgs (Logger.log (c :: m) l)).
    rewrite logAll_content_started.
    + unfold Logger.log. cbn [Logger.file OutputTextFile.content].
      now rewrite Hc.
    + unfold Logger.log. cbn [Logger.file OutputTextFile.content].
      now rewrite Hc.
Qed.

(** X1.  The log file of a new logger is [log.txt] in the folder of the root
    path (no folder for the empty root path); after any sequence of calls of
    [log] the file is in the same place, and its content is the logged
    messages joined by line feeds, without the empty messages logged before
    the first non-empty one. *)
Theorem logger_content_is_joined_messages
        (rootPath : jsstring) (msgs : list jsstring) :
  let l := fold_left (fun l m => Logger.log m l) msgs (Logger.new rootPath) in
  OutputTextFile.content (Logger.getFile l) = join [10%N] (dropEmpty msgs)
  /\ OutputTextFile.name (Logger.getFile l) = str "log.txt"
  /\ OutputTextFile.path (Logger.getFile l)
     = (if truthy rootPath then str "./" ++ rootPath ++ str "/" else []).
Proof.
  cbv zeta. fold (logAll msgs (Logger.new rootPath)). unfold Logger.getFile.
  destruct (logAll_file_place msgs (Logger.new rootPath)) as [Hp Hn].
  rewrite Hp, Hn. split; [|split; reflexivity].
  now apply logAll_content_empty.
Qed.

(* ================================================================= *)
(** ** Names: white space, base names, variants *)

Lemma dropWhile_nil p (s : jsstring) :
  dropWhile p s = [] <-> Forall (fun c => p c = true) s.
Proof.
  induction s as [|c s IH]; simpl.
  - split; [constructor|reflexivity].
  - destruct (p c) eqn:E.
    + rewrite IH. split; [now constructor|now inversion 1].
    + split; [discriminate|]. inversion 1; congruence.
Qed.

Lemma dropWhile_all p (pre s : jsstring) :
  Forall (fun c => p c = true) pre -> dropWhile p (pre ++ s) = dropWhile p s.
Proof.
  induction 1 as [|c pre Hc _ IH]; simpl; [reflexivity|]. now rewrite Hc.
Qed.

Lemma dropWhile_app_stop p (a b : jsstring) :
  dropWhile p a <> [] -> dropWhile p (a ++ b) = dropWhile p a ++ b.
Proof.
  induction a as [|c a IH]; simpl; [congruence|].
  destruct (p c); [exact IH|reflexivity].
Qed.

Lemma dropWhile_fixed p (s : jsstring) :
  Forall (fun c => p c = false) s -> dropWhile p s = s.
Proof. destruct 1 as [|c s Hc _]; simpl; [reflexivity|]. now rewrite Hc. Qed.

Lemma takeWhile_all p (s : jsstring) :
  Forall (fun c => p c = true) s -> takeWhile p s = s.
Proof.
  induction 1 as [|c s Hc _ IH]; simpl; [reflexivity|].
  now rewrite Hc, IH.
Qed.

Lemma trimEnd_all (s post : jsstring) :
  Forall (fun c => isWhiteSpace c = true) post ->
  trimEnd (s ++ post) = trimEnd s.
Proof.
  intros H. unfold trimEnd. rewrite rev_app_distr, dropWhile_all; trivial.
  now apply Forall_rev.
Qed.

(** A string is trimmed to nothing exactly when it is blank. *)
Lemma trim_nil (s : jsstring) :
  trim s = [] <-> Forall (fun c => isWhiteSpace c = true) s.
Proof.
  unfold trim, trimStart. split.
  - intros H. apply dropWhile_nil.
    destruct (dropWhile isWhiteSpace s) as [|c t] eqn:E; trivial.
    exfalso. pose proof (dropWhile_head _ _ _ _ E) as Hc.
    destruct (trimEnd_prefix (c :: t)) as (tail & Hs & _).
    rewrite H in Hs. simpl in Hs. subst tail.
    unfold trimEnd in H. apply (f_equal (@rev _)) in H.
    rewrite rev_involutive in H. simpl in H.
    apply dropWhile_nil in H. apply Forall_rev in H.
    rewrite rev_app_distr, rev_involutive in H. simpl in H.
    inversion H; congruence.
  - intros H. apply dropWhile_nil in H. now rewrite H.
Qed.

(** A string without white space is its own trimmed form. *)
Lemma trim_fixed (s : jsstring) :
  Forall (fun c => isWhiteSpace c = false) s -> trim s = s.
Proof.
  intros H. unfold trim, trimStart, trimEnd.
  rewrite (dropWhile_fixed _ s H), dropWhile_fixed.
  - apply rev_involutive.
  - now apply Forall_rev.
Qed.

(** White space around a string does not change its trimmed form. *)
Lemma trim_padded (pre s post : jsstring) :
  Forall (fun c => isWhiteSpace c = true) pre ->
  Forall (fun c => isWhiteSpace c = true) post ->
  trim (pre ++ s ++ post) = trim s.
Proof.
  intros Hpre Hpost. unfold trim, trimStart.
  rewrite dropWhile_all by assumption.
  destruct (dropWhile isWhiteSpace s) as [|c t] eqn:E.
  - apply dropWhile_nil in E.
    assert (Hall : Forall (fun c => isWhiteSpace c = true) (s ++ post))
      by (apply Forall_app; now split).
    apply dropWhile_nil in Hall. now rewrite Hall.
  - rewrite dropWhile_app_stop by congruence. rewrite E.
    now apply trimEnd_all.
Qed.

Section NameFacts.

Context {host : Host}.

Lemma deriveBaseThemeName_no_white_space name v :
  Forall (fun c => isWhiteSpace c = false) (deriveBaseThemeName name v).
Proof.
  rewrite deriveBaseThemeName_takeWhile.
  eapply Forall_impl; [|apply takeWhile_Forall].
  intros c Hc. unfold notWhiteSpace in Hc. now apply negb_true_iff in Hc.
Qed.

(** X2.  The base name [deriveBaseThemeName] returns holds no white space
    and starts the trimmed name; it is empty exactly when the name is blank
    (empty or white space only); and deriving the base name of a base name
    gives it back. *)
Theorem deriveBaseThemeName_shape (name : jsstring)
        (v v' : option ThemeVariant.t) :
  let base := deriveBaseThemeName name v in
  Forall (fun c => isWhiteSpace c = false) base
  /\ (exists rest, trim name = base ++ rest)
  /\ (base = [] <-> Forall (fun c => isWhiteSpace c = true) name)
  /\ deriveBaseThemeName base v' = base.
Proof.
  cbv zeta. split; [apply deriveBaseThemeName_no_white_space|].
  split; [|split].
  - destruct (deriveBaseThemeName_firstToken name v) as (rest & H & _).
    now exists rest.
  - rewrite <- trim_nil. split.
    + intros H. destruct (trim name) as [|c s] eqn:E; trivial.
      exfalso. apply (deriveBaseThemeName_nonempty name v); [|exact H].
      rewrite E. discriminate.
    + intros H. rewrite deriveBaseThemeName_takeWhile, H. reflexivity.
  - rewrite (deriveBaseThemeName_takeWhile (deriveBaseThemeName name v) v').
    pose proof (deriveBaseThemeName_no_white_space name v) as H.
    rewrite (trim_fixed _ H). apply takeWhile_all.
    eapply Forall_impl; [|exact H].
    intros c Hc. unfold notWhiteSpace. now rewrite Hc.
Qed.

(** X3.  White space before and after a theme name changes neither its
    variant nor its base name. *)
Theorem name_padding_is_ignored (pre name post : jsstring)
        (v : option ThemeVariant.t) :
  Forall (fun c => isWhiteSpace c = true) pre ->
  Forall (fun c => isWhiteSpace c = true) post ->
  getThemeVariant (pre ++ name ++ post) = getThemeVariant name
  /\ deriveBaseThemeName (pre ++ name ++ post) v = deriveBaseThemeName name v.
Proof.
  intros Hpre Hpost. split.
  - unfold getThemeVariant. now rewrite trim_padded.
  - rewrite !deriveBaseThemeName_takeWhile. now rewrite trim_padded.
Qed.

End NameFacts.

(* ================================================================= *)
(** ** What [groupThemes] accounts for *)

Section GroupingAccount.

Context {host : Host}.










(** X5.  [groupThemes] and the logger singleton: with a logger in place the
    call causes no event and only appends to that logger; on the empty input
    it leaves a state without logger as it is; on a non-empty input it
    creates the logger for the empty root path, and a later [getLogger],
    whatever root path it is given, finds that logger and changes
    nothing. *)
Theorem groupThemes_and_the_logger (themes : list TokenTheme.t) (w : World) :
  let w' := stateAfter (groupThemes themes w) in
  (forall l, globalLogger w = Some l ->
     events w' = events w
     /\ exists more, globalLogger w' = Some (logAll more l))
  /\ (globalLogger w = None ->
      match themes with
      | [] => w' = w
      | _ :: _ =>
          events w' = events w ++ [FileCreated LoggerFile]
          /\ (exists more,
                 globalLogger w' = Some (logAll more (Logger.new [])))
          /\ forall rootPath, getLogger rootPath w' = Returned tt w'
      end).
Proof.
  cbv zeta. rewrite groupThemes_returns. cbn [stateAfter].
  unfold afterGroupThemes, withLogger. split.
  - intros l Hl. destruct themes as [|t themes].
    + split; trivial. exists []. exact Hl.
    + rewrite Hl. split; [reflexivity|].
      exists (expectedLog [] (t :: themes)). unfold logs. now rewrite Hl.
  - intros Hnone. destruct themes as [|t themes]; [reflexivity|].
    rewrite Hnone. split; [reflexivity|]. split.
    + now exists (expectedLog [] (t :: themes)).
    + intros rootPath. reflexivity.
Qed.

End GroupingAccount.

(* ================================================================= *)
(** ** Grouping again what has been grouped *)

Section Regrouping.

Context {host : Host}.

Lemma set_absent {V} (m : JsMap.t V) k v :
  ~ In k (keys m) -> JsMap.set m k v = m ++ [(k, v)].
Proof.
  induction m as [|[k' v'] m IH]; intros Hk; simpl; [reflexivity|].
  destruct (jsstring_eq_dec k' k) as [->|Hne].
  - destruct Hk. now left.
  - rewrite IH; [reflexivity|]. intros H. apply Hk. now right.
Qed.

Lemma set_last {V} (m : JsMap.t V) k v v' :
  ~ In k (keys m) -> JsMap.set (m ++ [(k, v)]) k v' = m ++ [(k, v')].
Proof.
  induction m as [|[k0 v0] m IH]; intros Hk; simpl.
  - destruct (jsstring_eq_dec k k); congruence.
  - destruct (jsstring_eq_dec k0 k) as [->|Hne].
    + destruct Hk. now left.
    + rewrite IH; [reflexivity|]. intros H. apply Hk. now right.
Qed.

Lemma get_last {V} (m : JsMap.t V) k v :
  ~ In k (keys m) -> JsMap.get (m ++ [(k, v)]) k = Some v.
Proof.
  induction m as [|[k0 v0] m IH]; intros Hk; simpl.
  - destruct (jsstring_eq_dec k k); congruence.
  - destruct (jsstring_eq_dec k0 k) as [->|Hne].
    + destruct Hk. now left.
    + apply IH. intros H. apply Hk. now right.
Qed.

Lemma entryOf_absent groups b :
  ~ In b (keys groups) -> entryOf groups b = ThemeVariantMap.empty.
Proof.
  intros H. apply get_None_keys in H. unfold entryOf. now rewrite H.
Qed.

(** The themes of an entry, processed in a map without its base name, add
    the entry at the end. *)
Lemma regroup_entry acc b e :
  ~ In b (keys acc) ->
  (forall v t, ThemeVariantMap.get e v = Some t -> classify t = Some (b, v)) ->
  isSome (ThemeVariantMap.light e) || isSome (ThemeVariantMap.dark e) = true ->
  fold_left nextGroups (themesOf (createThemeGroup b e)) acc
  = acc ++ [(b, e)].
Proof.
  intros Hb Hc Hp. destruct e as [[l|] [d|]]; try discriminate Hp;
    unfold themesOf, createThemeGroup;
    cbn [XcodeTheme.lightTheme XcodeTheme.darkTheme ThemeVariantMap.light
         ThemeVariantMap.dark app fold_left].
  - pose proof (Hc ThemeVariant.light l eq_refl) as Hl.
    pose proof (Hc ThemeVariant.dark d eq_refl) as Hd.
    unfold nextGroups. rewrite Hl, Hd, (entryOf_absent acc b Hb).
    rewrite (set_absent acc b _ Hb). unfold entryOf.
    rewrite (get_last acc b _ Hb). now rewrite set_last.
  - pose proof (Hc ThemeVariant.light l eq_refl) as Hl.
    unfold nextGroups. rewrite Hl, (entryOf_absent acc b Hb).
    now rewrite (set_absent acc b _ Hb).
  - pose proof (Hc ThemeVariant.dark d eq_refl) as Hd.
    unfold nextGroups. rewrite Hd, (entryOf_absent acc b Hb).
    now rewrite (set_absent acc b _ Hb).
Qed.

Lemma regroup_entries groups acc :
  NoDup (keys acc ++ keys groups) ->
  (forall b e, In (b, e) groups ->
     (forall v t, ThemeVariantMap.get e v = Some t ->
                  classify t = Some (b, v))
     /\ isSome (ThemeVariantMap.light e)
        || isSome (ThemeVariantMap.dark e) = true) ->
  fold_left nextGroups
    (flat_map (fun be => themesOf (createThemeGroup (fst be) (snd be)))
              groups)
    acc
  = acc ++ groups.
Proof.
  revert acc. induction groups as [|[b e] groups IH]; intros acc Hnd Hgood.
  - simpl. now rewrite app_nil_r.
  - cbn [flat_map fst snd]. rewrite fold_left_app.
    destruct (Hgood b e (or_introl eq_refl)) as [Hc Hp].
    assert (Hb : ~ In b (keys acc)).
    { intros Hin. apply NoDup_remove_2 in Hnd. apply Hnd.
      apply in_app_iff. now left. }
    rewrite (regroup_entry acc b e Hb Hc Hp), IH.
    + now rewrite <- app_assoc.
    + unfold keys in *. rewrite map_app, <- app_assoc. exact Hnd.
    + intros b' e' Hin. apply Hgood. now right.
Qed.

Lemma groupsOf_themesOf themes :
  groupsOf (flat_map themesOf (groupsOf themes)) = groupsOf themes.
Proof.
  rewrite (groupsOf_map themes) at 1. rewrite flat_map_concat_map, map_map,
    <- flat_map_concat_map.
  unfold groupsOf at 1. rewrite regroup_entries; [reflexivity| |].
  - simpl. rewrite groups_keys. apply firstOccurrences_NoDup.
  - intros b e Hin. split; [|exact (groups_populated themes b e Hin)].
    intros v t Hget.
    assert (Hnd : NoDup (keys (fold_left nextGroups themes JsMap.empty))).
    { rewrite groups_keys. apply firstOccurrences_NoDup. }
    pose proof (groups_slots themes b v) as Hs. unfold entryOf in Hs.
    rewrite (In_get _ _ _ Hnd Hin), Hget in Hs. symmetry in Hs.
    now apply lastOf_Some in Hs.
Qed.

(** X6.  Grouping is stable.  The themes without a variant have no part in
    the result: without them the call returns the same groups.  And the
    themes held by the groups of a result (group by group, light before
    dark) are grouped into the same groups again. *)
Theorem groupThemes_is_stable (themes : list TokenTheme.t) (w : World) :
  exists result w1 w2 w3,
    groupThemes themes w = Returned result w1
    /\ groupThemes
         (filter (fun t => isSome (getThemeVariant (TokenTheme.name t)))
                 themes) w
       = Returned result w2
    /\ groupThemes (flat_map themesOf result) w = Returned result w3.
Proof.
  exists (groupsOf themes). rewrite !groupThemes_returns.
  eexists _, _, _. split; [reflexivity|]. split.
  - rewrite <- (filter_ext _ _ classified_variant), groupsOf_filter.
    reflexivity.
  - now rewrite groupsOf_themesOf.
Qed.

End Regrouping.

(* ================================================================= *)
(** ** A program logic that follows the log *)

Lemma logAll_nil l : logAll [] l = l.
Proof. reflexivity. Qed.

Lemma trace_ret {A} (a : A) Q E : Q a [] [] -> trace (ret a) Q E.
Proof.
  intros H w l Hl. simpl. exists [], []. rewrite app_nil_r. auto.
Qed.

Lemma trace_throw {A} e (Q : A -> list Event -> list jsstring -> Prop) E :
  E e [] [] -> trace (throw e) Q E.
Proof.
  intros H w l Hl. simpl. exists [], []. rewrite app_nil_r. auto.
Qed.

Lemma trace_bind {A B} (m : M A) (k : A -> M B) Q1 Q E :
  trace m Q1 E ->
  (forall a n1 m1, Q1 a n1 m1 ->
     trace (k a) (fun b n2 m2 => Q b (n1 ++ n2) (m1 ++ m2))
               (fun e n2 m2 => E e (n1 ++ n2) (m1 ++ m2))) ->
  trace (bind m k) Q E.
Proof.
  intros Hm Hk w l Hl. unfold bind. specialize (Hm w l Hl).
  destruct (m w) as [a w1|e w1]; [|exact Hm].
  destruct Hm as (n1 & m1 & Hev & Hlog & HQ1).
  specialize (Hk a n1 m1 HQ1 w1 _ Hlog).
  destruct (k a w1) as [b w2|e w2];
    destruct Hk as (n2 & m2 & Hev2 & Hlog2 & HQ);
    exists (n1 ++ n2), (m1 ++ m2);
    rewrite Hev2, Hev, app_assoc, logAll_app; auto.
Qed.

Lemma trace_conseq {A} (m : M A) Q Q' E E' :
  trace m Q E ->
  (forall a n ms, Q a n ms -> Q' a n ms) ->
  (forall e n ms, E e n ms -> E' e n ms) ->
  trace m Q' E'.
Proof.
  intros Hm HQ HE w l Hl. specialize (Hm w l Hl).
  destruct (m w) as [a w1|e w1]; destruct Hm as (n & ms & Hev & Hlog & H);
    exists n, ms; auto.
Qed.

Lemma trace_post {A} (m : M A) Q Q' E :
  trace m Q E -> (forall a n ms, Q a n ms -> Q' a n ms) -> trace m Q' E.
Proof. intros Hm HQ. apply (trace_conseq m Q Q' E E); auto. Qed.

(** A computation that cannot throw fits any condition on errors. *)
Lemma trace_safe {A} (m : M A) Q E :
  trace m Q (fun _ _ _ => False) -> trace m Q E.
Proof. intros H. apply (trace_conseq m Q Q _ E H); [auto|]. intros e n ms []. Qed.

Lemma trace_log message Q E : Q tt [] [message] -> trace (log message) Q E.
Proof.
  intros H w l Hl. rewrite log_run. exists [], [message].
  rewrite app_nil_r. unfold logs. rewrite Hl. auto.
Qed.

Lemma trace_emit e Q E : Q tt [e] [] -> trace (emit e) Q E.
Proof. intros H w l Hl. simpl. exists [e], []. auto. Qed.

Lemma trace_getLogger rootPath Q E :
  Q tt [] [] -> trace (getLogger rootPath) Q E.
Proof.
  intros H w l Hl. unfold getLogger. rewrite Hl. exists [], [].
  rewrite app_nil_r. auto.
Qed.

Lemma trace_log_then {B} message (k : M B) Q E :
  trace k (fun b n ms => Q b n (message :: ms))
          (fun e n ms => E e n (message :: ms)) ->
  trace (log message ;;; k) Q E.
Proof.
  intros H.
  apply (trace_bind (log message) (fun _ => k)
           (fun _ n ms => n = [] /\ ms = [message]) Q E).
  - apply trace_log. auto.
  - intros _ n1 m1 [-> ->]. exact H.
Qed.

Lemma trace_emit_then {B} e (k : M B) Q E :
  trace k (fun b n ms => Q b (e :: n) ms) (fun x n ms => E x (e :: n) ms) ->
  trace (emit e ;;; k) Q E.
Proof.
  intros H.
  apply (trace_bind (emit e) (fun _ => k)
           (fun _ n ms => n = [e] /\ ms = []) Q E).
  - apply trace_emit. auto.
  - intros _ n1 m1 [-> ->]. exact H.
Qed.

Lemma trace_getLogger_then {B} rootPath (k : M B) Q E :
  trace k Q E -> trace (getLogger rootPath ;;; k) Q E.
Proof.
  intros H.
  apply (trace_bind (getLogger rootPath) (fun _ => k)
           (fun _ n ms => n = [] /\ ms = []) Q E).
  - apply trace_getLogger. auto.
  - intros _ n1 m1 [-> ->]. exact H.
Qed.

Lemma trace_ret_bind {A B} (a : A) (k : A -> M B) Q E :
  trace (k a) Q E -> trace (bind (ret a) k) Q E.
Proof. intros H w l Hl. exact (H w l Hl). Qed.

Lemma trace_foldM_from {A B} (f : A -> B -> M A)
      (Inv : list B -> A -> list Event -> list jsstring -> Prop) l :
  (forall done b a n ms, Inv done a n ms ->
     trace (f a b)
           (fun a' n' ms' => Inv (done ++ [b]) a' (n ++ n') (ms ++ ms'))
           (fun _ _ _ => False)) ->
  forall done a n ms, Inv done a n ms ->
    trace (foldM f l a)
          (fun a' n' ms' => Inv (done ++ l) a' (n ++ n') (ms ++ ms'))
          (fun _ _ _ => False).
Proof.
  intros Hstep. induction l as [|b l IH]; intros done a n ms Hinv.
  - simpl. apply trace_ret. now rewrite !app_nil_r.
  - simpl. eapply trace_bind; [apply (Hstep done b a n ms Hinv)|].
    intros a' n1 m1 Hinv'. cbv beta in Hinv'.
    eapply trace_conseq; [apply (IH _ _ _ _ Hinv')| |].
    + intros a2 n2 m2. cbv beta. rewrite <- !app_assoc. simpl. auto.
    + intros e n2 m2 [].
Qed.

Lemma trace_foldM {A B} (f : A -> B -> M A)
      (Inv : list B -> A -> list Event -> list jsstring -> Prop) l a :
  Inv [] a [] [] ->
  (forall done b a n ms, Inv done a n ms ->
     trace (f a b)
           (fun a' n' ms' => Inv (done ++ [b]) a' (n ++ n') (ms ++ ms'))
           (fun _ _ _ => False)) ->
  trace (foldM f l a) (Inv l) (fun _ _ _ => False).
Proof.
  intros H0 Hstep.
  exact (trace_foldM_from f Inv l Hstep [] a [] [] H0).
Qed.

Lemma writes_app a b : writes (a ++ b) = writes a ++ writes b.
Proof. apply flat_map_app. Qed.

(** The events are file creations, requests and write-backs: without
    requests and write-backs they are the creations of the created files. *)
Lemma events_only_files evs :
  requests evs = [] -> writes evs = [] ->
  evs = map FileCreated (createdFiles evs).
Proof.
  induction evs as [|e evs IH]; [reflexivity|].
  destruct e; simpl; intros Hr Hw; try discriminate.
  f_equal. apply IH; assumption.
Qed.

(* ================================================================= *)
(** ** The log and the write-backs of [index.ts] *)

Section IndexTrace.

Context {host : Host} {pulsar : Pulsar} {utils : ExportUtils}.

Lemma emitToken_trace baseTokens darkTokens tokenGroups colorsPath nameStyle
      created tracker token :
  trace (emitToken (JsMap.ofList (map (fun t => (Token.id t, t)) baseTokens))
                   (JsMap.ofList (map (fun t => (Token.id t, t)) darkTokens))
                   tokenGroups colorsPath nameStyle (created, tracker) token)
        (fun state n ms =>
           state = requestFile tokenGroups nameStyle (created, tracker)
                     (requestFor baseTokens darkTokens colorsPath token)
           /\ fst state = created ++ createdFiles n
           /\ requests n
              = [requestFor baseTokens darkTokens colorsPath token]
           /\ writes n = [] /\ ms = [])
        (fun _ _ _ => False).
Proof.
  unfold emitToken, requestFile, requestFor. rewrite !get_byId.
  apply trace_emit_then. cbn [fst snd].
  destruct (createPerTokenFile _ tokenGroups colorsPath _ tracker nameStyle)
    as [[f|] tracker'].
  - apply trace_emit_then, trace_ret. repeat split; reflexivity.
  - apply trace_ret. cbn [fst createdFiles flat_map]. rewrite app_nil_r.
    repeat split; reflexivity.
Qed.

Lemma variants_count baseTokens darkTokens colorsPath colorTokens :
  List.length
    (filter (fun t =>
               JsMap.has
                 (JsMap.ofList (map (fun t => (Token.id t, t)) darkTokens))
                 (Token.id t))
            colorTokens)
  = List.length
      (filter hasVariant
              (map (requestFor baseTokens darkTokens colorsPath)
                   colorTokens)).
Proof.
  induction colorTokens as [|t l IH]; [reflexivity|].
  cbn [filter map]. unfold JsMap.has at 1. rewrite get_byId.
  unfold hasVariant at 1, requestFor at 1. cbn [snd].
  destruct (valueUnder darkTokens (Token.id t)); simpl; now rewrite IH.
Qed.

Lemma createThemeColors_trace runtime colorsPath lightTheme darkTheme :
  trace (createThemeColors runtime colorsPath lightTheme darkTheme)
        (fun files n ms =>
           writes n = themeWrites runtime
           /\ files = createdFiles n
           /\ files
              = perTokenFiles (ExportContext.tokenGroups runtime)
                  (nameStyleOf (ExportContext.exportConfiguration runtime))
                  (themeRequests runtime colorsPath lightTheme darkTheme)
           /\ requests n
              = themeRequests runtime colorsPath lightTheme darkTheme
           /\ ms = colorsLog runtime lightTheme darkTheme (requests n))
        (fun _ _ _ => False).
Proof.
  unfold createThemeColors, themeWrites, colorsLog, writeBackEnabled,
    themeRequests, perTokenFiles.
  fold (nameStyleOf (ExportContext.exportConfiguration runtime)).
  apply trace_log_then, trace_log_then.
  eapply trace_bind.
  - apply (trace_foldM _
             (fun done (state : list AnyOutputFile * TokenNameTracker) n ms =>
                writes n = [] /\ ms = []
                /\ fst state = createdFiles n
                /\ requests n
                   = map (requestFor
                            (computeTokensForTheme
                               (ExportContext.sdk runtime)
                               (ExportContext.tokens runtime)
                               (Some lightTheme))
                            (computeTokensForTheme
                               (ExportContext.sdk runtime)
                               (ExportContext.tokens runtime) darkTheme)
                            colorsPath)
                         done
                /\ state
                   = fold_left
                       (requestFile (ExportContext.tokenGroups runtime)
                          (nameStyleOf
                             (ExportContext.exportConfiguration runtime)))
                       (map (requestFor
                               (computeTokensForTheme
                                  (ExportContext.sdk runtime)
                                  (ExportContext.tokens runtime)
                                  (Some lightTheme))
                               (computeTokensForTheme
                                  (ExportContext.sdk runtime)
                                  (ExportContext.tokens runtime) darkTheme)
                               colorsPath)
                            done)
                       ([], newTokenNameTracker))).
    + repeat split; reflexivity.
    + intros done token [created tracker] n ms (Hw & -> & Hc & Hr & Hs).
      eapply trace_post; [apply emitToken_trace|].
      intros state n' ms' (Hs' & Hc' & Hr' & Hw' & ->).
      rewrite writes_app, Hw, Hw', requests_app, Hr, Hr', createdFiles_app,
        !map_app, fold_left_app.
      cbn [map fold_left fst] in *. rewrite <- Hs, <- Hs', Hc', Hc.
      repeat split; reflexivity.
  - intros [created tracker] n1 m1 (Hw & -> & Hc & Hr & Hs). cbv beta iota.
    cbn [fst] in Hc.
    apply trace_log_then.
    rewrite (variants_count
               (computeTokensForTheme (ExportContext.sdk runtime)
                  (ExportContext.tokens runtime) (Some lightTheme))
               _ colorsPath).
    destruct (ExporterConfiguration.writeNameToProperty _
              && negb (PulsarContext.isPreview _)).
    + apply (trace_bind _ _
               (fun _ n ms =>
                  n = [PropertiesWritten
                         (ExporterConfiguration.propertyToWriteNameTo
                            (ExportContext.exportConfiguration runtime))
                         (ExportContext.colorTokens runtime)
                         (exportedNames tracker
                            (ExportContext.tokenGroups runtime)
                            (nameStyleOf
                               (ExportContext.exportConfiguration
                                  runtime)))]
                  /\ ms = [str "Wrote exported names to property: "
                           ++ ExporterConfiguration.propertyToWriteNameTo
                                (ExportContext.exportConfiguration
                                   runtime)])).
      * apply trace_emit_then, trace_log. split; reflexivity.
      * intros _ n2 m2 [-> ->]. apply trace_log_then, trace_ret.
        rewrite !app_nil_r, writes_app, requests_app, createdFiles_app, Hw,
          Hr, <- Hs.
        cbn [writes requests createdFiles flat_map app snd].
        rewrite !app_nil_r, length_map. repeat split; trivial.
    + apply trace_log_then, trace_log_then, trace_ret.
      rewrite !app_nil_r, Hr, length_map, <- Hs. repeat split; trivial.
Qed.

Lemma exportThemeGroup_trace runtime group :
  trace (exportThemeGroup runtime group)
        (fun _ n ms =>
           writes n = groupWrites runtime group
           /\ (XcodeTheme.lightTheme group = None ->
               exists before, ms = before ++ [skippedNotice group]))
        (fun _ _ _ => False).
Proof.
  unfold exportThemeGroup, groupWrites, skippedNotice.
  apply trace_log_then, trace_log_then, trace_emit_then, trace_log_then.
  destruct (XcodeTheme.lightTheme group) as [lightTheme|].
  - apply trace_log_then.
    eapply trace_bind; [apply createThemeColors_trace|].
    intros files n1 m1 (Hw & _). apply trace_ret. rewrite !app_nil_r.
    split; [exact Hw|discriminate].
  - apply trace_log_then, trace_ret. split; [reflexivity|]. intros _.
    eexists [_; _; _]. reflexivity.
Qed.

Lemma filterExcludedCollections_trace colorTokens tokenCollections :
  trace (filterExcludedCollections colorTokens tokenCollections)
        (fun kept n _ => kept = afterExclusion colorTokens tokenCollections
                         /\ n = [])
        (fun _ _ _ => False).
Proof.
  unfold filterExcludedCollections, afterExclusion.
  destruct (ExporterConfiguration.excludeCollectionsInPipelines
              exportConfiguration); cbn [negb orb].
  - destruct (ExporterConfiguration.excludedCollections exportConfiguration)
      as [|x l] eqn:Hx; cbn [List.length Nat.eqb].
    + apply trace_log_then, trace_ret. auto.
    + apply trace_log_then, trace_log_then, trace_log_then, trace_ret.
      split; trivial. apply filter_ext. intros token.
      unfold isExcluded, resolveCollection, excludedCollectionNames.
      rewrite Hx.
      destruct (find _ tokenCollections); reflexivity.
  - apply trace_log_then, trace_ret. auto.
Qed.

Lemma mapM_lookup_trace themes themeIds :
  trace (mapM (fun themeId =>
                 match find (fun t =>
                               jsstring_eqb (TokenTheme.id t) themeId
                               || jsstring_eqb (TokenTheme.idInVersion t)
                                               themeId)
                            themes with
                 | Some theme => ret theme
                 | None => throw (str "Unable to find theme " ++ themeId)
                 end)
              themeIds)
        (fun ts n ms => n = [] /\ ms = []
                        /\ lookupThemes themes themeIds = inr ts)
        (fun e n ms => n = [] /\ ms = []
                       /\ lookupThemes themes themeIds = inl e).
Proof.
  induction themeIds as [|themeId rest IH]; cbn [mapM lookupThemes].
  - apply trace_ret. auto.
  - change (find (matchesId themeId) themes)
      with (find (fun t => jsstring_eqb (TokenTheme.id t) themeId
                           || jsstring_eqb (TokenTheme.idInVersion t)
                                           themeId) themes).
    destruct (find _ themes) as [t|].
    + apply trace_ret_bind.
      eapply trace_bind.
      * eapply trace_conseq; [exact IH| |].
        -- intros ts n ms H. exact H.
        -- intros e n ms (-> & -> & He). cbv beta. now rewrite He.
      * intros ts n2 m2 (-> & -> & Hts). apply trace_ret. now rewrite Hts.
    + intros w l Hl. simpl. exists [], []. rewrite app_nil_r. auto.
Qed.

Lemma resolveThemes_trace sdk context remoteVersionIdentifier :
  trace (resolveThemes sdk context remoteVersionIdentifier)
        (fun ts n _ =>
           n = [] /\ selection sdk context remoteVersionIdentifier = inr ts)
        (fun e n ms =>
           n = [] /\ ms = []
           /\ selection sdk context remoteVersionIdentifier = inl e).
Proof.
  unfold resolveThemes, selection.
  destruct (PulsarContext.themeIds context) as [[|themeId rest]|].
  - apply trace_log_then, trace_ret. auto.
  - eapply trace_bind.
    + eapply trace_conseq; [apply mapM_lookup_trace| |].
      * intros ts n ms H. exact H.
      * intros e n ms H. exact H.
    + intros ts n1 m1 (-> & -> & Hts). apply trace_log_then, trace_ret. auto.
  - apply trace_log_then, trace_ret. auto.
Qed.

Lemma groupThemes_trace themes :
  trace (groupThemes themes)
        (fun gs n _ => gs = groupsOf themes /\ n = [])
        (fun _ _ _ => False).
Proof.
  intros w l Hl. rewrite groupThemes_returns. unfold afterGroupThemes.
  destruct themes as [|t themes].
  - exists [], []. rewrite app_nil_r. auto.
  - exists [], (expectedLog [] (t :: themes)). rewrite app_nil_r.
    unfold withLogger, logs. rewrite Hl. cbn [globalLogger events option_map].
    rewrite Hl. auto.
Qed.

Lemma logGroupedThemes_trace groupedThemes :
  trace (logGroupedThemes groupedThemes) (fun _ n _ => n = [])
        (fun _ _ _ => False).
Proof.
  unfold logGroupedThemes. destruct groupedThemes; now apply trace_log.
Qed.

Lemma trace_after_getLogger {A} rootPath (k : M A) Q E w :
  trace k Q E ->
  let l := match globalLogger w with
           | Some l => l
           | None => Logger.new rootPath
           end in
  match (getLogger rootPath ;;; k) w with
  | Returned a w' =>
      exists new more,
        events w' = events (withLogger rootPath w) ++ new
        /\ globalLogger w' = Some (logAll more l) /\ Q a new more
  | Thrown e w' =>
      exists new more,
        events w' = events (withLogger rootPath w) ++ new
        /\ globalLogger w' = Some (logAll more l) /\ E e new more
  end.
Proof.
  intros H. cbv zeta. unfold bind. rewrite getLogger_run.
  apply H. unfold withLogger. destruct (globalLogger w) eqn:El; [exact El|].
  reflexivity.
Qed.

Lemma export_trace sdk context w :
  let l := match globalLogger w with
           | Some l => l
           | None => Logger.new resolveRootPath
           end in
  match export sdk context w with
  | Returned _ w' =>
      exists new more,
        events w' = events (withLogger resolveRootPath w) ++ new
        /\ globalLogger w' = Some (logAll more l)
        /\ exportedTrace sdk context new more
  | Thrown e w' =>
      exists new more,
        events w' = events (withLogger resolveRootPath w) ++ new
        /\ globalLogger w' = Some (logAll more l)
        /\ failedTrace sdk context e new more
  end.
Proof.
  unfold export, loadTokenData. cbv beta iota zeta.
  apply trace_after_getLogger.
  do 5 apply trace_log_then.
  apply (trace_conseq _
           (fun _ n _ =>
              exists themes,
                selection sdk context (remoteOf context) = inr themes
                /\ writes n
                   = flat_map (groupWrites (runtimeOf sdk context))
                              (groupsOf themes))
           _
           (fun e n _ =>
              selection sdk context (remoteOf context) = inl e /\ n = [])).
  2: { intros a n ms H. split; [exact H|]. now exists ms. }
  2: { intros e n ms [H1 H2]. split; [exact H1|]. split; [exact H2|].
       now exists ms. }
  do 6 apply trace_log_then.
  eapply trace_bind.
  { eapply trace_conseq; [apply resolveThemes_trace| |].
    - intros ts n ms H. exact H.
    - intros e n ms (-> & _ & H). fold (remoteOf context) in H. auto. }
  intros themes n1 m1 [-> Hsel]. fold (remoteOf context) in Hsel.
  apply trace_safe.
  eapply trace_bind; [apply filterExcludedCollections_trace|].
  intros kept n2 m2 [-> ->]. fold (remoteOf context).
  fold (keptTokens sdk context). fold rootCatalogFile.
  apply (trace_bind _ _ (fun _ n _ => writes n = [])).
  { destruct (ExporterConfiguration.generateRootCatalog exportConfiguration).
    - apply trace_emit_then, trace_log_then, trace_ret. reflexivity.
    - apply trace_log_then, trace_ret. reflexivity. }
  intros files0 n3 m3 Hw0.
  eapply trace_bind; [apply groupThemes_trace|].
  intros groups n4 m4 [-> ->].
  eapply trace_bind; [apply logGroupedThemes_trace|].
  intros _ n5 m5 ->. fold (runtimeOf sdk context).
  eapply trace_bind.
  - apply (trace_foldM _
             (fun done (files : list AnyOutputFile) n (_ : list jsstring) =>
                writes n
                = flat_map (groupWrites (runtimeOf sdk context)) done)).
    + reflexivity.
    + intros done g files n ms Hw.
      eapply trace_bind; [apply exportThemeGroup_trace|].
      intros gfiles n6 m6 [Hg _]. apply trace_ret.
      rewrite app_nil_r, writes_app, flat_map_app, Hw, Hg. simpl.
      now rewrite app_nil_r.
  - intros files n6 m6 Hw. apply trace_ret. exists themes.
    split; [exact Hsel|]. simpl. rewrite !app_nil_r.
    now rewrite writes_app, Hw0, Hw.
Qed.

End IndexTrace.

(* ================================================================= *)
(** ** Runs of the entry point: the log, failures, the write-backs *)

Section ExportRuns.

Context {host : Host} {pulsar : Pulsar} {utils : ExportUtils}.

Lemma logged_logAll more l w :
  globalLogger w = Some (logAll more l) ->
  logged w = Logger.messages l ++ more.
Proof. intros H. unfold logged. rewrite H. apply logAll_messages. Qed.

(** What a run that returns has done: the files and requests, the
    write-backs and the log together. *)
Lemma export_returns sdk context w files w' :
  export sdk context w = Returned files w' ->
  exists new more,
    events w' = events (withLogger resolveRootPath w) ++ new
    /\ exported sdk context files new
    /\ exportedTrace sdk context new more.
Proof.
  intros Hrun.
  pose proof (export_outcome sdk context w) as Hout.
  pose proof (export_trace sdk context w) as Htr. cbv zeta in Htr.
  rewrite Hrun in Hout, Htr.
  destruct Hout as (new & Hev & _ & Hexp).
  destruct Htr as (new' & more & Hev' & _ & Htrace).
  rewrite Hev in Hev'. apply app_inv_head in Hev'. subst new'.
  now exists new, more.
Qed.

(** The logger a run leaves. *)
Lemma export_logger sdk context w :
  let w' := stateAfter (export sdk context w) in
  let before := match globalLogger w with
                | Some l => l
                | None => Logger.new resolveRootPath
                end in
  exists rest,
    globalLogger w' = Some (logAll (header context ++ rest) before)
    /\ logged w' = logged w ++ header context ++ rest.
Proof.
  cbv zeta. pose proof (export_trace sdk context w) as Htr. cbv zeta in Htr.
  assert (Hbefore : Logger.messages
                      match globalLogger w with
                      | Some l => l
                      | None => Logger.new resolveRootPath
                      end = logged w).
  { unfold logged. now destruct (globalLogger w). }
  destruct (export sdk context w) as [files w'|e w']; cbn [stateAfter];
    destruct Htr as (new & more & _ & Hlog & Hmore).
  - destruct Hmore as (_ & rest & ->). exists rest.
    split; [exact Hlog|].
    now rewrite (logged_logAll _ _ _ Hlog), Hbefore.
  - destruct Hmore as (_ & _ & rest & ->). exists rest.
    split; [exact Hlog|].
    now rewrite (logged_logAll _ _ _ Hlog), Hbefore.
Qed.

(** X7.  Whether it returns or throws, a run leaves a logger: the one it
    found, or a new one for the resolved root path, after further messages
    that start with the five lines of the run's header.  So the log only
    grows, and its file stays where it is. *)
Theorem export_appends_to_the_log
        (sdk : Supernova.t) (context : PulsarContext.t) (w : World) :
  let w' := stateAfter (export sdk context w) in
  let before := match globalLogger w with
                | Some l => l
                | None => Logger.new resolveRootPath
                end in
  exists rest after,
    globalLogger w' = Some after
    /\ after = logAll (header context ++ rest) before
    /\ logged w' = logged w ++ header context ++ rest
    /\ OutputTextFile.path (Logger.getFile after)
       = OutputTextFile.path (Logger.getFile before)
    /\ OutputTextFile.name (Logger.getFile after)
       = OutputTextFile.name (Logger.getFile before).
Proof.
  cbv zeta. destruct (export_logger sdk context w) as (rest & Hlog & Hmsgs).
  cbv zeta in Hlog, Hmsgs. exists rest. eexists.
  split; [exact Hlog|]. split; [reflexivity|]. split; [exact Hmsgs|].
  apply logAll_file_place.
Qed.

(** The lookup fails at the first id that matches no theme. *)
Lemma lookupThemes_first themes themeIds e :
  lookupThemes themes themeIds = inl e ->
  exists pre i post,
    themeIds = pre ++ i :: post
    /\ (forall j, In j pre -> exists t, In t themes /\ idMatches j t)
    /\ (forall t, In t themes -> ~ idMatches i t)
    /\ e = str "Unable to find theme " ++ i.
Proof.
  revert e. induction themeIds as [|j rest IH]; intros e; simpl;
    [discriminate|].
  destruct (find (matchesId j) themes) as [t|] eqn:Ef.
  - destruct (lookupThemes themes rest) as [e'|ts]; [|discriminate].
    intros [= <-]. destruct (IH e' eq_refl) as (pre & i & post & -> & H).
    exists (j :: pre), i, post. split; [reflexivity|].
    destruct H as (Hpre & Hno & He). split; [|now split].
    intros k [<-|Hk]; [|now apply Hpre].
    apply find_some in Ef as [Hin Hm]. exists t. split; [exact Hin|].
    unfold matchesId, idMatches in *.
    apply orb_true_iff in Hm as [Hm|Hm]; apply jsstring_eqb_eq in Hm; auto.
  - intros [= <-]. exists [], j, rest. split; [reflexivity|].
    split; [intros k []|]. split; [|reflexivity].
    intros t Hin Hm. pose proof (find_none _ _ Ef t Hin) as Hf.
    unfold matchesId, idMatches in *. apply orb_false_iff in Hf as [H1 H2].
    apply jsstring_eqb_neq in H1, H2. tauto.
Qed.

Lemma lookupThemes_unmatched themes themeIds i :
  In i themeIds -> (forall t, In t themes -> ~ idMatches i t) ->
  exists e, lookupThemes themes themeIds = inl e.
Proof.
  intros Hi Hno. destruct (lookupThemes themes themeIds) as [e|ts] eqn:E;
    [now exists e|].
  exfalso. revert ts E Hi.
  induction themeIds as [|j rest IH]; intros ts E; [intros []|].
  simpl in E. destruct (find (matchesId j) themes) as [t|] eqn:Ef;
    [|discriminate].
  destruct (lookupThemes themes rest) as [e'|ts']; [discriminate|].
  intros [<-|Hi]; [|exact (IH ts' eq_refl Hi)].
  apply find_some in Ef as [Hin Hm]. apply (Hno t Hin).
  unfold matchesId, idMatches in *.
  apply orb_true_iff in Hm as [Hm|Hm]; apply jsstring_eqb_eq in Hm; auto.
Qed.

(** X8.  A failed theme lookup precedes every output.  When a selected
    theme id matches no fetched theme, the run throws the error that names
    the first such id of the selection; by then it has created no file
    but, in a state without logger, the log file, and it has requested no
    per-token file and sent no write-back. *)
Theorem export_lookup_failure_precedes_output
        (sdk : Supernova.t) (context : PulsarContext.t) (w : World)
        (themeIds : list jsstring) :
  PulsarContext.themeIds context = Some themeIds ->
  let themes := Supernova.getTokenThemes sdk (remoteOf context) in
  (exists i, In i themeIds /\ forall t, In t themes -> ~ idMatches i t) ->
  exists pre i post w',
    themeIds = pre ++ i :: post
    /\ (forall j, In j pre -> exists t, In t themes /\ idMatches j t)
    /\ (forall t, In t themes -> ~ idMatches i t)
    /\ export sdk context w = Thrown (str "Unable to find theme " ++ i) w'
    /\ events w'
       = events w ++ match globalLogger w with
                     | Some _ => []
                     | None => [FileCreated LoggerFile]
                     end.
Proof.
  intros Hids themes (i0 & Hi0 & Hno0).
  destruct (lookupThemes_unmatched themes themeIds i0 Hi0 Hno0) as (e & He).
  destruct (lookupThemes_first themes themeIds e He)
    as (pre & i & post & Hsplit & Hpre & Hno & ->).
  assert (Hsel : selection sdk context (remoteOf context)
                 = inl (str "Unable to find theme " ++ i)).
  { unfold selection. rewrite Hids. exact He. }
  pose proof (export_trace sdk context w) as Htr. cbv zeta in Htr.
  destruct (export sdk context w) as [files w'|e' w'].
  - destruct Htr as (_ & _ & _ & _ & (ths & Habs & _) & _). congruence.
  - destruct Htr as (new & more & Hev & _ & Hsel' & -> & _).
    assert (e' = str "Unable to find theme " ++ i) by congruence. subst e'.
    exists pre, i, post, w'. repeat (split; [assumption|]).
    split; [reflexivity|].
    rewrite Hev, app_nil_r. unfold withLogger.
    destruct (globalLogger w); [now rewrite app_nil_r|reflexivity].
Qed.

Lemma Forall2_maps {A B C} (P : B -> C -> Prop) (f : A -> B) (g : A -> C) l :
  (forall x, In x l -> P (f x) (g x)) -> Forall2 P (map f l) (map g l).
Proof.
  induction l as [|x l IH]; intros H; simpl; constructor.
  - apply H. now left.
  - apply IH. intros y Hy. apply H. now right.
Qed.

Lemma requestFor_id baseTokens darkTokens colorsPath token :
  Token.id (fst (fst (requestFor baseTokens darkTokens colorsPath token)))
  = Token.id token.
Proof.
  unfold requestFor. cbn [fst].
  destruct (valueUnder baseTokens (Token.id token)) as [b|] eqn:E;
    [|reflexivity].
  now apply valueUnder_Some in E.
Qed.

(** The requests of the groups: one for every group with a light theme
    and every colour token, group by group. *)
Lemma requests_by_group_and_token runtime groups :
  Forall2 (fun (gt : XcodeTheme.t * Token.t) request =>
             Token.id (fst (fst request)) = Token.id (snd gt)
             /\ snd (fst request)
                = colorsPathOf (ExportContext.rootPath runtime) (fst gt))
          (list_prod (filter hasLight groups)
                     (ExportContext.colorTokens runtime))
          (flat_map (groupRequests runtime) groups).
Proof.
  induction groups as [|g groups IH]; [constructor|].
  cbn [filter flat_map]. unfold hasLight at 1, groupRequests at 1.
  destruct (XcodeTheme.lightTheme g) as [lightTheme|]; cbn [isSome];
    [|exact IH].
  cbn [list_prod]. apply Forall2_app; [|exact IH].
  unfold themeRequests. apply Forall2_maps. intros token _. cbn [fst snd].
  split; [apply requestFor_id|reflexivity].
Qed.

Lemma writes_by_group runtime groups :
  flat_map (groupWrites runtime) groups
  = flat_map (fun _ => themeWrites runtime) (filter hasLight groups).
Proof.
  induction groups as [|g groups IH]; [reflexivity|].
  cbn [flat_map filter]. unfold groupWrites at 1, hasLight at 1.
  destruct (XcodeTheme.lightTheme g); cbn [isSome flat_map];
    now rewrite IH.
Qed.

(** X9.  What a run that returns asks of the outside.  It requests the
    per-token files group by group, for the groups with a light theme in
    their order, and within a group for the kept colour tokens in their
    order: one request for each, with a base token of the token's id, under
    the colours path of the group.  With the write-back switched on, and
    outside a preview, it calls [writeTokenProperties] once for every group
    with a light theme, with the configured property and the kept colour
    tokens; otherwise it never calls it. *)
Theorem export_requests_and_write_backs
        (sdk : Supernova.t) (context : PulsarContext.t) (w : World)
        (files : list AnyOutputFile) (w' : World) :
  export sdk context w = Returned files w' ->
  exists themes new,
    selection sdk context (remoteOf context) = inr themes
    /\ events w' = events (withLogger resolveRootPath w) ++ new
    /\ Forall2 (fun (gt : XcodeTheme.t * Token.t) request =>
                  Token.id (fst (fst request)) = Token.id (snd gt)
                  /\ snd (fst request) = colorsPathOf resolveRootPath (fst gt))
               (list_prod (filter hasLight (groupsOf themes))
                          (keptTokens sdk context))
               (requests new)
    /\ writes new
       = flat_map
           (fun _ =>
              if ExporterConfiguration.writeNameToProperty exportConfiguration
                 && negb (PulsarContext.isPreview context)
              then [(ExporterConfiguration.propertyToWriteNameTo
                       exportConfiguration,
                     keptTokens sdk context)]
              else [])
           (filter hasLight (groupsOf themes)).
Proof.
  intros Hrun.
  destruct (export_returns _ _ _ _ _ Hrun)
    as (new & more & Hev & Hexp & (themes & Hsel & Hwr) & _).
  destruct Hexp as (themes' & Hsel' & _ & _ & Hreq & _).
  assert (themes' = themes) by congruence. subst themes'.
  exists themes, new. split; [exact Hsel|]. split; [exact Hev|].
  split.
  - rewrite Hreq.
    exact (requests_by_group_and_token (runtimeOf sdk context)
                                       (groupsOf themes)).
  - rewrite Hwr. exact (writes_by_group (runtimeOf sdk context)
                                        (groupsOf themes)).
Qed.

Lemma groupsOf_without_light themes :
  Forall (fun t => getThemeVariant (TokenTheme.name t)
                   <> Some ThemeVariant.light) themes ->
  Forall (fun g => XcodeTheme.lightTheme g = None) (groupsOf themes).
Proof.
  intros Hno. apply Forall_forall. intros g Hg.
  destruct (XcodeTheme.lightTheme g) as [t|] eqn:E; trivial.
  destruct (groupsOf_slot_Some themes g ThemeVariant.light t Hg E)
    as (Hin & Hv & _).
  rewrite Forall_forall in Hno. destruct (Hno t Hin Hv).
Qed.

Lemma flat_map_nil {A B} (f : A -> list B) l :
  Forall (fun x => f x = []) l -> flat_map f l = [].
Proof.
  induction 1 as [|x l Hx _ IH]; [reflexivity|]. simpl. now rewrite Hx, IH.
Qed.

Lemma flat_map_singletons {A B} (f : A -> list B) (g : A -> B) l :
  Forall (fun x => f x = [g x]) l -> flat_map f l = map g l.
Proof.
  induction 1 as [|x l Hx _ IH]; [reflexivity|]. simpl. now rewrite Hx, IH.
Qed.

(** X10.  A selection without a light theme exports no colour: when none of
    the selected themes is a light variant (as when no theme is selected at
    all), the run returns the log file, the root catalog file when enabled,
    and one namespace marker for every group; it requests no per-token
    file and sends no write-back. *)
Theorem export_without_light_themes
        (sdk : Supernova.t) (context : PulsarContext.t) (w : World)
        (themes : list TokenTheme.t) :
  selection sdk context (remoteOf context) = inr themes ->
  Forall (fun t => getThemeVariant (TokenTheme.name t)
                   <> Some ThemeVariant.light) themes ->
  exists w' new,
    export sdk context w
    = Returned
        (LoggerFile
         :: (if ExporterConfiguration.generateRootCatalog exportConfiguration
             then [rootCatalogFile] else [])
         ++ map (fun g => TextFile (namespaceFileOf resolveRootPath g))
                (groupsOf themes))
        w'
    /\ events w' = events (withLogger resolveRootPath w) ++ new
    /\ requests new = []
    /\ writes new = [].
Proof.
  intros Hsel Hno. apply groupsOf_without_light in Hno.
  destruct (export sdk context w) as [files w'|e w'] eqn:Hrun.
  - destruct (export_returns _ _ _ _ _ Hrun)
      as (new & more & Hev & Hexp & (themes' & Hsel' & Hwr) & _).
    assert (themes' = themes) by congruence. subst themes'.
    destruct Hexp as (themes' & Hsel'' & _ & Hfiles & Hreq & _).
    assert (themes' = themes) by congruence. subst themes'.
    exists w', new. split; [|split; [exact Hev|split]].
    + rewrite Hfiles. do 3 f_equal. apply flat_map_singletons.
      eapply Forall_impl; [|exact Hno]. intros g Hg. unfold groupFiles,
        groupRequests. now rewrite Hg.
    + rewrite Hreq. apply flat_map_nil.
      eapply Forall_impl; [|exact Hno]. intros g Hg. unfold groupRequests.
      now rewrite Hg.
    + rewrite Hwr. apply flat_map_nil.
      eapply Forall_impl; [|exact Hno]. intros g Hg. unfold groupWrites.
      now rewrite Hg.
  - pose proof (export_outcome sdk context w) as Hout. rewrite Hrun in Hout.
    congruence.
Qed.

Lemma resolveRootPath_truthy :
  truthy resolveRootPath
  = ExporterConfiguration.generateRootCatalog exportConfiguration.
Proof.
  unfold resolveRootPath, orElse.
  destruct (ExporterConfiguration.generateRootCatalog exportConfiguration);
    [|reflexivity].
  cbn [negb].
  destruct (truthy (ExporterConfiguration.rootCatalogPath
                      exportConfiguration)) eqn:E; [exact E|reflexivity].
Qed.

(** X11.  The root path is empty exactly when the root catalog is switched
    off.  So the folder of a group's namespace marker, and the path its
    per-token files are requested under, start with the root path exactly
    when the root catalog is generated; and the two agree: the files of a
    group are requested in the folder of its marker. *)
Theorem exportThemeGroup_paths
        (sdk : Supernova.t) (context : PulsarContext.t)
        (group : XcodeTheme.t) (w : World) :
  let runtime := runtimeOf sdk context in
  let themeName :=
    codeSafeVariableName (XcodeTheme.name group) StringCase.pascalCase in
  let colorsPath :=
    if ExporterConfiguration.generateRootCatalog exportConfiguration
    then resolveRootPath ++ str "/" ++ themeName
    else themeName in
  (resolveRootPath = []
   <-> ExporterConfiguration.generateRootCatalog exportConfiguration = false)
  /\ forall l, globalLogger w = Some l ->
     exists marker rest w' new,
       exportThemeGroup runtime group w
       = Returned (TextFile marker :: rest) w'
       /\ events w' = events w ++ new
       /\ OutputTextFile.path marker = str "./" ++ colorsPath
       /\ Forall (fun request => snd (fst request) = colorsPath)
                 (requests new).
Proof.
  cbv zeta. split.
  - pose proof resolveRootPath_truthy as H. unfold truthy in H.
    destruct resolveRootPath;
      destruct (ExporterConfiguration.generateRootCatalog
                  exportConfiguration); simpl in H; split; congruence.
  - intros l Hl.
    assert (Hw : globalLogger w <> None) by congruence.
    pose proof (exportThemeGroup_run (runtimeOf sdk context) group
                  (fun _ => False) w Hw) as Hrun.
    destruct (exportThemeGroup (runtimeOf sdk context) group w)
      as [files w'|e w']; [|destruct Hrun].
    destruct Hrun as (new & Hev & _ & _ & Hfiles & Hreq & _).
    rewrite Hfiles. unfold groupFiles. eexists _, _, w', new.
    split; [reflexivity|]. split; [exact Hev|].
    cbn [ExportContext.rootPath runtimeOf].
    unfold namespaceFileOf, createNameSpaceFolder, createTextFile.
    cbn [OutputTextFile.path]. rewrite resolveRootPath_truthy.
    split.
    + destruct (ExporterConfiguration.generateRootCatalog
                  exportConfiguration); reflexivity.
    + rewrite Hreq. unfold groupRequests.
      destruct (XcodeTheme.lightTheme group); [|constructor].
      unfold themeRequests, colorsPathOf.
      cbn [ExportContext.rootPath runtimeOf].
      rewrite resolveRootPath_truthy. apply Forall_map, Forall_forall.
      intros token _. unfold requestFor. cbn [fst snd].
      destruct (ExporterConfiguration.generateRootCatalog
                  exportConfiguration); reflexivity.
Qed.

(** X12.  The log file of a run in a new process: it is [log.txt], in the
    folder of the root path when the root catalog is generated and without
    a folder otherwise; its content is the lines the run has logged, joined
    by line feeds, and the lines start with the header of the run. *)
Theorem export_log_file
        (sdk : Supernova.t) (context : PulsarContext.t) (w : World) :
  globalLogger w = None ->
  let w' := stateAfter (export sdk context w) in
  exists file rest,
    deref w' LoggerFile = Some file
    /\ OutputTextFile.name file = str "log.txt"
    /\ OutputTextFile.path file
       = (if ExporterConfiguration.generateRootCatalog exportConfiguration
          then str "./" ++ resolveRootPath ++ str "/" else [])
    /\ logged w' = header context ++ rest
    /\ OutputTextFile.content file = join [10%N] (header context ++ rest).
Proof.
  intros Hw. cbv zeta.
  destruct (export_logger sdk context w) as (rest & Hlog & Hlogged).
  cbv zeta in Hlog, Hlogged. rewrite Hw in Hlog.
  unfold logged at 2 in Hlogged. rewrite Hw in Hlogged.
  eexists _, rest. unfold deref. rewrite Hlog.
  split; [reflexivity|].
  cbn [option_map]. unfold Logger.getFile.
  destruct (logAll_file_place (header context ++ rest)
              (Logger.new resolveRootPath)) as [Hp Hn].
  split; [now rewrite Hn|].
  split; [rewrite Hp; cbn; now rewrite resolveRootPath_truthy|].
  split; [exact Hlogged|].
  now rewrite (logAll_content_empty _ (Logger.new resolveRootPath) eq_refl).
Qed.

Lemma requestFile_length tokenGroups nameStyle reqs state :
  List.length (fst (fold_left (requestFile tokenGroups nameStyle) reqs state))
  <= List.length (fst state) + List.length reqs.
Proof.
  revert state. induction reqs as [|r reqs IH]; intros state; simpl; [lia|].
  etransitivity; [apply IH|]. unfold requestFile.
  destruct r as [[baseToken colorsPath] variants].
  destruct (createPerTokenFile _ _ _ _ _ _) as [[f|] tracker]; cbn [fst];
    rewrite ?length_app; simpl; lia.
Qed.

(** X13.  The counts [createThemeColors] logs are counts of requests: the
    line on emitted colour sets reports the number of per-token files
    requested, one for every colour token, which the number of files
    created does not exceed; the line on dark variants reports the number
    of requests that carry a dark variant.  The call logs five lines, and
    the files it returns are the files it has created. *)
Theorem createThemeColors_logs_its_requests
        (runtime : ExportContext.t) (colorsPath : jsstring)
        (lightTheme : TokenTheme.t) (darkTheme : option TokenTheme.t)
        (w : World) (l : Logger.t) :
  globalLogger w = Some l ->
  exists files w' new,
    createThemeColors runtime colorsPath lightTheme darkTheme w
    = Returned files w'
    /\ events w' = events w ++ new
    /\ files = createdFiles new
    /\ List.length files <= List.length (requests new)
    /\ List.length (requests new)
       = List.length (ExportContext.colorTokens runtime)
    /\ logged w'
       = logged w
         ++ colorsLog runtime lightTheme darkTheme (requests new).
Proof.
  intros Hl.
  pose proof (createThemeColors_trace runtime colorsPath lightTheme darkTheme
                w l Hl) as Htr.
  destruct (createThemeColors runtime colorsPath lightTheme darkTheme w)
    as [files w'|e w']; [|destruct Htr as (_ & _ & _ & _ & [])].
  destruct Htr as (new & more & Hev & Hlog & _ & Hc & Hf & Hr & ->).
  exists files, w', new. split; [reflexivity|]. split; [exact Hev|].
  split; [exact Hc|]. split; [|split].
  - rewrite Hf, Hr. unfold perTokenFiles.
    etransitivity; [apply requestFile_length|]. simpl. lia.
  - rewrite Hr. unfold themeRequests. apply length_map.
  - rewrite (logged_logAll _ _ _ Hlog). unfold logged. now rewrite Hl.
Qed.

End ExportRuns.

(* ================================================================= *)
(** ** The earlier revision of [xcode-theme.ts] against the current one *)

Lemma white_space_not_word c : isWhiteSpace c = true -> isWordChar c = false.
Proof.
  unfold isWhiteSpace, isWordChar. intros H.
  apply not_true_iff_false. intros H'.
  repeat rewrite ?orb_true_iff, ?andb_true_iff, ?N.leb_le, ?N.eqb_eq in H.
  repeat rewrite ?orb_true_iff, ?andb_true_iff, ?N.leb_le, ?N.eqb_eq in H'.
  lia.
Qed.

Lemma word_not_white_space (w : jsstring) :
  Forall (fun c => isWordChar c = true) w ->
  Forall (fun c => isWhiteSpace c = false) w.
Proof.
  apply Forall_impl. intros c Hc.
  destruct (isWhiteSpace c) eqn:E; trivial.
  apply white_space_not_word in E. congruence.
Qed.

(** [\s*$]: the rest of the input is white space. *)
Lemma star_whitespace_to_end prev (s : jsstring) :
  star WhiteSpaceClass (matchHere [EndOfInput]) prev s <> None
  <-> Forall (fun c => isWhiteSpace c = true) s.
Proof.
  revert prev. induction s as [|c s IH]; intros prev.
  - simpl. split; [constructor|discriminate].
  - cbn [star inClass]. destruct (isWhiteSpace c) eqn:Hc.
    + specialize (IH (Some c)).
      destruct (star WhiteSpaceClass (matchHere [EndOfInput]) (Some c) s).
      * split; [|discriminate]. intros _. constructor; [exact Hc|].
        apply IH. discriminate.
      * simpl. split; [congruence|]. intros H. inversion H; subst.
        now apply IH.
    + simpl. split; [congruence|]. inversion 1; congruence.
Qed.

(** [/\sw\s*$/] *)
Lemma test_spaced_word_spec (w s : jsstring) :
  w <> [] ->
  test (Char WhiteSpaceClass :: map (fun c => Char (Lit c)) w
        ++ [Star WhiteSpaceClass; EndOfInput]) s = true
  <-> endsWithSpacedWord w s.
Proof.
  intros Hw. unfold test. rewrite search_spec. unfold endsWithSpacedWord.
  split.
  - intros (pre & post & -> & Hm). cbn [matchHere] in Hm.
    destruct post as [|c post]; [congruence|]. cbn [inClass] in Hm.
    destruct (isWhiteSpace c) eqn:Hc; [|congruence].
    rewrite matchHere_literals in Hm. destruct w as [|d w]; [congruence|].
    destruct (jsstring_eqb (firstn (List.length (d :: w)) post) (d :: w))
      eqn:E; [|congruence].
    apply jsstring_eqb_eq in E. pose proof (firstn_skipn_eq _ _ E) as Hpost.
    cbn [matchHere] in Hm. apply star_whitespace_to_end in Hm.
    exists pre, c, (skipn (List.length (d :: w)) post).
    rewrite <- Hpost. auto.
  - intros (pre & c & tail & -> & Hc & Htail).
    exists pre, (c :: w ++ tail). split; [reflexivity|].
    cbn [matchHere inClass]. rewrite Hc, matchHere_literals.
    destruct w as [|d w]; [congruence|].
    rewrite firstn_app, Nat.sub_diag, firstn_all, firstn_O, app_nil_r,
      jsstring_eqb_refl.
    rewrite skipn_app, Nat.sub_diag, skipn_all, skipn_O. cbn [app matchHere].
    now apply star_whitespace_to_end.
Qed.

(** A string that ends as [/\sw\s*$/] asks, trimmed, ends with the word
    [w]. *)
Lemma spaced_word_trimmed (w s : jsstring) :
  w <> [] -> Forall (fun c => isWordChar c = true) w ->
  endsWithSpacedWord w s -> endsWithWord w (trim s).
Proof.
  intros Hw Hword (pre & c & tail & -> & Hc & Htail).
  pose proof (word_not_white_space w Hword) as Hnw.
  assert (Hend : forall x, trimEnd (x ++ w ++ tail) = x ++ w).
  { intros x. rewrite app_assoc, trimEnd_all by assumption.
    destruct w as [|d w _] using rev_ind; [congruence|].
    apply Forall_app in Hnw as [_ Hd]. inversion Hd as [|? ? Hd' _]; subst.
    unfold trimEnd. rewrite (app_assoc x w [d]), rev_app_distr.
    cbn [rev app dropWhile]. rewrite Hd'. cbn [rev].
    now rewrite rev_involutive. }
  unfold trim, trimStart, endsWithWord.
  change (pre ++ c :: w ++ tail) with (pre ++ [c] ++ w ++ tail).
  rewrite app_assoc.
  destruct (dropWhile isWhiteSpace (pre ++ [c])) as [|x rest] eqn:E.
  - apply dropWhile_nil in E. rewrite dropWhile_all by assumption.
    assert (Hd : dropWhile isWhiteSpace (w ++ tail) = w ++ tail).
    { destruct w as [|d w]; [congruence|]. simpl.
      inversion Hnw as [|? ? Hd' _]; subst. now rewrite Hd'. }
    rewrite Hd. exists []. split; [exact (Hend [])|reflexivity].
  - rewrite dropWhile_app_stop by congruence. rewrite E.
    exists (x :: rest). split; [exact (Hend (x :: rest))|].
    destruct (dropWhile_suffix isWhiteSpace (pre ++ [c])) as (a & Ha & _).
    rewrite E in Ha.
    assert (Hlast : lastOr None (x :: rest) = Some c).
    { remember (x :: rest) as xr eqn:Hxr. clear E.
      destruct xr as [|y l _] using rev_ind; [discriminate|].
      rewrite app_assoc in Ha. apply app_inj_tail in Ha as [_ ->].
      apply lastOr_snoc. }
    rewrite Hlast. simpl. now apply white_space_not_word.
Qed.

Section OlderGrouper.

Context {host : Host}.

Lemma older_light name :
  Older.isLightThemeName name = true
  <-> endsWithSpacedWord (str "light") (toLowerCase name).
Proof. apply test_spaced_word_spec. discriminate. Qed.

Lemma older_dark name :
  Older.isDarkThemeName name = true
  <-> endsWithSpacedWord (str "dark") (toLowerCase name).
Proof. apply test_spaced_word_spec. discriminate. Qed.

(** X14.  The suffix test of the earlier revision: a name is a light (dark)
    theme name there exactly when its lower-cased form holds [light]
    ([dark]) after a white space, with nothing but white space behind
    it. *)
Theorem older_suffix_test (name : jsstring) :
  (Older.isLightThemeName name = true
   <-> endsWithSpacedWord (str "light") (toLowerCase name))
  /\ (Older.isDarkThemeName name = true
      <-> endsWithSpacedWord (str "dark") (toLowerCase name)).
Proof.
  unfold Older.isLightThemeName, Older.isDarkThemeName, Older.reSuffix, lits.
  split; apply test_spaced_word_spec; discriminate.
Qed.

Lemma older_light_kept name :
  lowerCaseKeepsPadding name ->
  Older.isLightThemeName name = true ->
  getThemeVariant name = Some ThemeVariant.light.
Proof.
  intros Hpad Hl. apply getThemeVariant_light. rewrite Hpad.
  apply spaced_word_trimmed; [discriminate|apply light_word|].
  now apply older_light.
Qed.

Lemma older_dark_kept name :
  lowerCaseKeepsPadding name ->
  Older.isDarkThemeName name = true ->
  getThemeVariant name = Some ThemeVariant.dark.
Proof.
  intros Hpad Hd. apply getThemeVariant_dark. rewrite Hpad.
  apply spaced_word_trimmed; [discriminate|apply dark_word|].
  now apply older_dark.
Qed.

(** X15.  The current revision keeps the variants of the earlier one: for a
    name whose lower-casing commutes with trimming, a light (dark) theme
    name of the earlier revision has the variant light (dark) in the
    current one. *)
Theorem older_variant_is_kept (name : jsstring) :
  lowerCaseKeepsPadding name ->
  (Older.isLightThemeName name = true ->
   getThemeVariant name = Some ThemeVariant.light)
  /\ (Older.isDarkThemeName name = true ->
      getThemeVariant name = Some ThemeVariant.dark).
Proof.
  intros Hpad. split; [now apply older_light_kept|now apply older_dark_kept].
Qed.

Lemma older_base name :
  hd [] (split [Plus WhiteSpaceClass] (trim name))
  = deriveBaseThemeName name None.
Proof.
  unfold deriveBaseThemeName. destruct (trim name) as [|c s] eqn:E;
    [reflexivity|].
  cbn [truthy negb].
  destruct (split [Plus WhiteSpaceClass] (c :: s)) as [|base l] eqn:Es;
    [|reflexivity].
  exfalso. unfold split in Es.
  pose proof (splitLoop_head (2 * List.length (c :: s)) [] [] (c :: s)
                ltac:(lia)) as H.
  rewrite Es in H. apply trim_head in E. simpl in H.
  unfold notWhiteSpace in H. rewrite E in H. discriminate.
Qed.

Lemma older_baseNameFromTheme_trace name :
  trace (Older.baseNameFromTheme name)
        (fun base n ms => base = deriveBaseThemeName name None
                          /\ n = [] /\ ms = [baseNameLine name])
        (fun _ _ _ => False).
Proof.
  unfold Older.baseNameFromTheme, baseNameLine. rewrite older_base.
  apply trace_getLogger_then, trace_log_then, trace_ret. auto.
Qed.

(** X16.  [baseNameFromTheme] of the earlier revision returns the base name
    [deriveBaseThemeName] returns in the current one; it creates the
    logger when there is none, and logs one line. *)
Theorem older_baseNameFromTheme_agrees
        (name : jsstring) (v : option ThemeVariant.t) (w : World) :
  exists w',
    Older.baseNameFromTheme name w
    = Returned (deriveBaseThemeName name v) w'
    /\ events w' = events (withLogger [] w)
    /\ logged w' = logged w ++ [baseNameLine name].
Proof.
  pose proof (trace_after_getLogger []
                (log (baseNameLine name) ;;;
                 ret (deriveBaseThemeName name None))
                (fun base n ms => base = deriveBaseThemeName name None
                                  /\ n = [] /\ ms = [baseNameLine name])
                (fun _ _ _ => False) w) as H.
  cbv zeta in H.
  assert (Heq : Older.baseNameFromTheme name
                = (getLogger [] ;;; log (baseNameLine name) ;;;
                   ret (deriveBaseThemeName name None))).
  { unfold Older.baseNameFromTheme, baseNameLine. now rewrite older_base. }
  rewrite Heq.
  destruct ((getLogger [] ;;; log (baseNameLine name) ;;;
             ret (deriveBaseThemeName name None)) w) as [base w'|e w'].
  - destruct H as (new & more & Hev & Hlog & -> & -> & ->).
    { apply trace_log_then, trace_ret. auto. }
    exists w'. split; [reflexivity|]. split; [now rewrite Hev, app_nil_r|].
    rewrite (logged_logAll _ _ _ Hlog). unfold logged.
    now destruct (globalLogger w).
  - destruct H as (_ & _ & _ & _ & []).
    apply trace_log_then, trace_ret. auto.
Qed.

Lemma older_groupStep_trace groups t :
  trace (Older.groupStep groups t)
        (fun groups' n _ => groups' = olderNext groups t /\ n = [])
        (fun _ _ _ => False).
Proof.
  unfold Older.groupStep. apply trace_log_then.
  eapply trace_bind; [apply older_baseNameFromTheme_trace|].
  intros base n1 m1 (-> & -> & ->). apply trace_log_then, trace_ret.
  split; reflexivity.
Qed.

(** On a theme the earlier revision gives a variant, the two revisions
    change the map alike. *)
Lemma olderNext_nextGroups groups t :
  olderClassified (TokenTheme.name t) = true ->
  lowerCaseKeepsPadding (TokenTheme.name t) ->
  olderNext groups t = nextGroups groups t.
Proof.
  intros Hc Hpad. unfold olderNext, nextGroups, classify, olderClassified in *.
  destruct (Older.isLightThemeName (TokenTheme.name t)) eqn:El.
  - now rewrite (older_light_kept _ Hpad El).
  - simpl in Hc. rewrite Hc. now rewrite (older_dark_kept _ Hpad Hc).
Qed.

Lemma older_collectGroups_trace groups :
  trace (Older.collectGroups groups)
        (fun result n _ => result = collectGroups groups /\ n = [])
        (fun _ _ _ => False).
Proof.
  induction groups as [|[base entry] groups IH]; cbn [Older.collectGroups].
  - apply trace_ret. auto.
  - apply trace_log_then. eapply trace_bind; [exact IH|].
    intros result n1 m1 [-> ->]. apply trace_ret. split; [|reflexivity].
    cbn [collectGroups].
    destruct (isSome (ThemeVariantMap.light entry)
              || isSome (ThemeVariantMap.dark entry)); reflexivity.
Qed.

Lemma older_loop_trace themes groups :
  trace (foldM Older.groupStep themes groups)
        (fun groups' n _ =>
           groups' = fold_left olderNext themes groups /\ n = [])
        (fun _ _ _ => False).
Proof.
  revert groups. induction themes as [|t themes IH]; intros groups;
    cbn [foldM fold_left].
  - apply trace_ret. auto.
  - eapply trace_bind; [exact (older_groupStep_trace groups t)|].
    intros groups' n1 m1 [-> ->].
    eapply trace_post; [apply IH|]. intros a n ms H. exact H.
Qed.

Lemma older_groupThemes_body themes :
  trace (log (str "Grouping " ++ numberToString (List.length themes)
              ++ str " themes") ;;;
         groups <- foldM Older.groupStep themes JsMap.empty ;;
         Older.collectGroups groups)
        (fun result n _ => result = olderGroupsOf themes /\ n = [])
        (fun _ _ _ => False).
Proof.
  apply trace_log_then.
  eapply trace_bind; [exact (older_loop_trace themes JsMap.empty)|].
  intros groups n1 m1 [-> ->].
  eapply trace_post; [apply older_collectGroups_trace|].
  intros a n ms H. exact H.
Qed.

Lemma older_groupThemes_trace themes :
  trace (Older.groupThemes themes)
        (fun result n _ => result = olderGroupsOf themes /\ n = [])
        (fun _ _ _ => False).
Proof.
  unfold Older.groupThemes. apply trace_getLogger_then.
  apply older_groupThemes_body.
Qed.

Lemma olderGroupsOf_groupsOf themes :
  Forall (fun t => olderClassified (TokenTheme.name t) = true
                   /\ lowerCaseKeepsPadding (TokenTheme.name t)) themes ->
  olderGroupsOf themes = groupsOf themes.
Proof.
  intros Hall. unfold olderGroupsOf, groupsOf. f_equal.
  generalize (@JsMap.empty ThemeVariantMap.t).
  induction Hall as [|t themes [Hc Hpad] _ IH]; intros groups;
    [reflexivity|].
  cbn [fold_left]. now rewrite (olderNext_nextGroups groups t Hc Hpad), IH.
Qed.

(** X17.  On themes which the earlier revision gives a variant, and whose
    names lower-casing and trimming commute on, the two revisions of
    [groupThemes] return the same groups, and the earlier one creates no
    file but the log file. *)
Theorem older_groupThemes_agrees (themes : list TokenTheme.t) (w : World) :
  Forall (fun t => olderClassified (TokenTheme.name t) = true
                   /\ lowerCaseKeepsPadding (TokenTheme.name t)) themes ->
  exists result w1 w2,
    Older.groupThemes themes w = Returned result w1
    /\ groupThemes themes w = Returned result w2
    /\ result = groupsOf themes
    /\ events w1 = events (withLogger [] w).
Proof.
  intros Hall. exists (groupsOf themes).
  rewrite groupThemes_returns. unfold Older.groupThemes.
  pose proof (trace_after_getLogger [] _ _ _ w
                (older_groupThemes_body themes)) as H.
  cbv zeta in H.
  match type of H with
  | match ?m with _ => _ end => destruct m as [result w1|e w1]
  end.
  - destruct H as (new & more & Hev & _ & -> & ->).
    eexists _, _. rewrite (olderGroupsOf_groupsOf themes Hall).
    split; [reflexivity|]. split; [reflexivity|].
    split; [reflexivity|]. now rewrite Hev, app_nil_r.
  - destruct H as (_ & _ & _ & _ & []).
Qed.

End OlderGrouper.

(* ================================================================= *)
(** ** The earlier revision of [index.ts]: what it returns, and when *)

Section OlderIndex.

Context {host : Host} {pulsar : Pulsar} {utils : ExportUtils}.

Lemma trace_yields rest files :
  trace rest (fun fs n _ => fs = files /\ n = []) (fun _ _ _ => False) ->
  yields rest files.
Proof.
  intros H w l Hl. specialize (H w l Hl).
  destruct (rest w) as [fs w'|e w'].
  - destruct H as (n & ms & Hev & _ & -> & ->). exists w'.
    rewrite Hev, app_nil_r. auto.
  - destruct H as (_ & _ & _ & _ & []).
Qed.

Lemma older_createThemeColors_trace sdk context path tokens tokenGroups
      configuration colorTokens lightTheme darkTheme :
  let reqs :=
    map (requestFor (computeTokensForTheme sdk tokens (Some lightTheme))
                    (computeTokensForTheme sdk tokens darkTheme) path)
        colorTokens in
  let tokenFiles := perTokenFiles tokenGroups (nameStyleOf configuration)
                                  reqs in
  trace (Older.createThemeColors sdk context path tokens tokenGroups
                                 configuration colorTokens lightTheme
                                 darkTheme)
        (fun promise n _ =>
           requests n = reqs /\ createdFiles n = tokenFiles
           /\ match promise with
              | Older.Settled createdFiles =>
                  writeBackEnabled configuration context = false
                  /\ createdFiles = tokenFiles
              | Older.Pending rest =>
                  writeBackEnabled configuration context = true
                  /\ yields rest tokenFiles
              end)
        (fun _ _ _ => False).
Proof.
  cbv zeta. unfold Older.createThemeColors, perTokenFiles, writeBackEnabled.
  fold (nameStyleOf configuration).
  apply trace_getLogger_then, trace_log_then, trace_log_then.
  eapply trace_bind.
  - apply (trace_foldM _
             (fun done (state : list AnyOutputFile * TokenNameTracker) n
                  (_ : list jsstring) =>
                fst state = createdFiles n
                /\ requests n
                   = map (requestFor
                            (computeTokensForTheme sdk tokens
                               (Some lightTheme))
                            (computeTokensForTheme sdk tokens darkTheme)
                            path)
                         done
                /\ state
                   = fold_left
                       (requestFile tokenGroups (nameStyleOf configuration))
                       (map (requestFor
                               (computeTokensForTheme sdk tokens
                                  (Some lightTheme))
                               (computeTokensForTheme sdk tokens darkTheme)
                               path)
                            done)
                       ([], newTokenNameTracker))).
    + repeat split; reflexivity.
    + intros done token [created tracker] n ms (Hc & Hr & Hs).
      eapply trace_post; [apply emitToken_trace|].
      intros state n' ms' (Hs' & Hc' & Hr' & _ & _).
      unfold computeTokensForTheme in *.
      rewrite requests_app, Hr, Hr', createdFiles_app, !map_app,
        fold_left_app.
      cbn [map fold_left fst] in *. rewrite <- Hs, <- Hs', Hc', Hc.
      repeat split; reflexivity.
  - intros [created tracker] n1 m1 (Hc & Hr & Hs). cbv beta iota.
    cbn [fst] in Hc. unfold computeTokensForTheme in *.
    apply trace_log_then.
    destruct (ExporterConfiguration.writeNameToProperty configuration
              && negb (PulsarContext.isPreview context)).
    + apply trace_emit_then, trace_ret.
      rewrite requests_app, createdFiles_app, Hr, <- Hs, Hc.
      cbn [requests createdFiles flat_map app fst]. rewrite !app_nil_r.
      split; [reflexivity|]. split; [reflexivity|].
      split; [reflexivity|].
      apply trace_yields, trace_log_then, trace_log_then, trace_ret. auto.
    + apply trace_log_then.
      eapply trace_bind.
      * apply (trace_log_then _ _
                 (fun fs n (_ : list jsstring) => fs = created /\ n = [])).
        apply trace_ret. auto.
      * intros fs n2 m2 [-> ->]. apply trace_ret.
        rewrite !app_nil_r, Hr, <- Hs, Hc. cbn [fst].
        repeat split; reflexivity.
Qed.

Lemma older_forEachCallback_trace sdk context tokens colorTokens files t :
  let runtime :=
    ExportContext.mk sdk context (remoteOf context) resolveRootPath
      exportConfiguration tokens
      (Supernova.getTokenGroups sdk (remoteOf context)
                                (PulsarContext.brandId context))
      colorTokens in
  trace (Older.forEachCallback sdk context resolveRootPath tokens
           (Supernova.getTokenGroups sdk (remoteOf context)
                                     (PulsarContext.brandId context))
           colorTokens files t)
        (fun r n _ =>
           fst r = files ++ [TextFile (namespaceFileOf resolveRootPath t)]
           /\ createdFiles n = groupFiles runtime t
           /\ callbackFor runtime t (snd r))
        (fun _ _ _ => False).
Proof.
  cbv zeta. unfold Older.forEachCallback, groupFiles, callbackFor,
    groupTokenFiles, groupRequests, themeRequests, colorsPathOf, hasLight.
  cbn [ExportContext.rootPath ExportContext.tokenGroups
       ExportContext.exportConfiguration ExportContext.sdk
       ExportContext.tokens ExportContext.colorTokens
       ExportContext.pulsarContext].
  apply trace_log_then, trace_log_then, trace_emit_then, trace_log_then.
  fold (namespaceFileOf resolveRootPath t).
  destruct (XcodeTheme.lightTheme t) as [lightTheme|].
  - apply trace_log_then. eapply trace_bind.
    + apply older_createThemeColors_trace.
    + intros promise n1 m1 (_ & Hc & Hp). apply trace_ret. cbn [fst snd].
      rewrite app_nil_r. cbn [createdFiles flat_map app].
      fold (createdFiles n1). rewrite Hc.
      split; [reflexivity|]. split; [reflexivity|].
      destruct promise as [createdFiles|rest]; destruct Hp as [He Hp];
        repeat split; assumption.
  - apply trace_ret. cbn [fst snd]. repeat split; reflexivity.
Qed.

Lemma older_rootPath :
  (if ExporterConfiguration.generateRootCatalog exportConfiguration
   then orElse (ExporterConfiguration.rootCatalogPath exportConfiguration)
               (str "Colors.xcassets")
   else [])
  = resolveRootPath.
Proof.
  unfold resolveRootPath.
  now destruct (ExporterConfiguration.generateRootCatalog
                  exportConfiguration).
Qed.

Lemma resumed_app a b :
  Older.resumed (a ++ b) = Older.resumed a ++ Older.resumed b.
Proof. apply flat_map_app. Qed.

Lemma suspended_app a b :
  Older.suspended (a ++ b) = Older.suspended a ++ Older.suspended b.
Proof. apply flat_map_app. Qed.

(** The callbacks of the groups: what is in the microtask queue, and what
    waits for the outside. *)
Lemma callbacks_outcome runtime groups callbacks :
  Forall2 (callbackFor runtime) groups callbacks ->
  if writeBackEnabled (ExportContext.exportConfiguration runtime)
                      (ExportContext.pulsarContext runtime)
  then Older.resumed callbacks = []
       /\ Forall2 (fun g rest => yields rest (groupTokenFiles runtime g))
                  (filter hasLight groups) (Older.suspended callbacks)
  else Older.resumed callbacks
       = flat_map (groupTokenFiles runtime) (filter hasLight groups)
       /\ Older.suspended callbacks = [].
Proof.
  induction 1 as [|g c groups callbacks Hc _ IH].
  - destruct (writeBackEnabled _ _); split; constructor.
  - change (c :: callbacks) with ([c] ++ callbacks).
    rewrite resumed_app, suspended_app. cbn [filter].
    destruct c as [|createdFiles|rest]; cbn [callbackFor] in Hc.
    + rewrite Hc. exact IH.
    + destruct Hc as (Hl & He & ->). rewrite Hl, He in *.
      destruct IH as [IH1 IH2]. cbn [flat_map]. rewrite IH1, IH2.
      split; [|reflexivity].
      unfold Older.resumed. simpl. now rewrite app_nil_r.
    + destruct Hc as (Hl & He & Hy). rewrite Hl, He in *.
      destruct IH as [IH1 IH2]. split; [exact IH1|].
      constructor; [exact Hy|exact IH2].
Qed.

Lemma older_export_trace sdk context w :
  match Older.export sdk context w with
  | Returned r w' =>
      exists new,
        events w' = events (withLogger resolveRootPath w) ++ new
        /\ olderOutcome sdk context r new
  | Thrown e w' => True
  end.
Proof.
  unfold Older.export. cbv beta zeta. rewrite !older_rootPath.
  pose proof (fun k Q =>
                @trace_after_getLogger
                  (list AnyOutputFile * list (M (list AnyOutputFile)))
                  resolveRootPath k Q (fun _ _ _ => True) w) as H.
  cbv zeta in H.
  match goal with
  | |- match (getLogger _ ;;; ?k) w with _ => _ end =>
      specialize (H k (fun r n _ => olderOutcome sdk context r n));
      destruct ((getLogger resolveRootPath ;;; k) w) as [r w'|e w'];
      [|exact I]
  end.
  destruct H as (new & more & Hev & _ & Hout); [|now exists new].
  do 11 apply trace_log_then.
  eapply trace_bind.
  { eapply trace_conseq; [apply resolveThemes_trace| |].
    - intros ts n ms H. exact H.
    - intros e n ms _. exact I. }
  intros themes n1 m1 [-> Hsel]. fold (remoteOf context) in Hsel.
  apply (trace_conseq _ (fun r n _ => olderOutcome sdk context r n) _
                      (fun _ _ _ => False));
    [|intros a n ms H; exact H|intros e n ms []].
  fold (remoteOf context).
  eapply (trace_bind _ _
            (fun kept n (_ : list jsstring) =>
               kept = keptTokens sdk context /\ n = [])).
  { unfold keptTokens, afterExclusion.
    destruct (ExporterConfiguration.excludeCollectionsInPipelines
                exportConfiguration); cbn [andb].
    - destruct (ExporterConfiguration.excludedCollections exportConfiguration)
        as [|x l] eqn:Hx; cbn [List.length Nat.ltb Nat.leb].
      + apply trace_log_then, trace_ret. auto.
      + apply trace_log_then, trace_log_then, trace_log_then, trace_ret.
        split; trivial. apply filter_ext. intros token.
        unfold isExcluded, resolveCollection, excludedCollectionNames.
        rewrite Hx.
        destruct (find _ (Supernova.getTokenCollections sdk
                            (remoteOf context))); [|reflexivity].
        now destruct (existsb _ _).
    - apply trace_log_then, trace_ret. auto. }
  intros kept n2 m2 [-> ->]. fold rootCatalogFile.
  apply (trace_bind _ _
           (fun files n (_ : list jsstring) =>
              files
              = LoggerFile
                :: (if ExporterConfiguration.generateRootCatalog
                         exportConfiguration
                    then [rootCatalogFile] else [])
              /\ createdFiles n
                 = (if ExporterConfiguration.generateRootCatalog
                         exportConfiguration
                    then [rootCatalogFile] else []))).
  { destruct (ExporterConfiguration.generateRootCatalog exportConfiguration).
    - apply trace_emit_then, trace_log_then, trace_ret. auto.
    - apply trace_log_then, trace_ret. auto. }
  intros files0 n3 m3 [-> Hc0].
  eapply trace_bind; [apply older_groupThemes_trace|].
  intros groups n4 m4 [-> ->]. apply trace_log_then.
  eapply trace_bind.
  - apply (trace_foldM _
             (fun done (state : list AnyOutputFile * list Older.Callback)
                  n (_ : list jsstring) =>
                fst state
                = (LoggerFile
                   :: (if ExporterConfiguration.generateRootCatalog
                            exportConfiguration
                       then [rootCatalogFile] else []))
                  ++ map (fun g =>
                            TextFile (namespaceFileOf resolveRootPath g))
                         done
                /\ createdFiles n
                   = flat_map (groupFiles (runtimeOf sdk context)) done
                /\ Forall2 (callbackFor (runtimeOf sdk context)) done
                           (snd state))).
    + cbn [fst snd map flat_map]. rewrite app_nil_r.
      repeat split; trivial.
    + intros done t [files callbacks] n ms (Hf & Hc & Hy).
      cbn [fst snd] in Hf, Hy.
      eapply trace_bind; [apply older_forEachCallback_trace|].
      intros [files' callback] n5 m5 (Hf' & Hc' & Hy'). cbn [fst snd] in *.
      apply trace_ret. cbn [fst snd].
      rewrite app_nil_r, createdFiles_app, map_app, flat_map_app, Hc, Hf',
        Hf. cbn [map flat_map]. rewrite app_nil_r, <- app_assoc.
      split; [reflexivity|]. split; [f_equal; exact Hc'|].
      apply Forall2_app; [exact Hy|]. constructor; [exact Hy'|constructor].
  - intros [files callbacks] n6 m6 (Hf & Hc & Hy). cbv beta iota.
    apply trace_ret. exists themes. cbn [fst snd] in *.
    split; [exact Hsel|]. split.
    { cbn [app]. rewrite !app_nil_r, createdFiles_app, Hc0, Hc.
      reflexivity. }
    pose proof (callbacks_outcome _ _ _ Hy) as Hout.
    cbn [ExportContext.exportConfiguration ExportContext.pulsarContext
         runtimeOf] in Hout.
    destruct (writeBackEnabled exportConfiguration context);
      destruct Hout as [Hr Hs]; rewrite Hf, Hr.
    + rewrite app_nil_r. split; [reflexivity|exact Hs].
    + rewrite Hs. split; [|reflexivity]. cbn [app].
      now rewrite <- app_assoc.
Qed.

(** X18.  What the array of the earlier revision holds when its caller sees
    it.  [forEach] does not wait for its callbacks.  With the write-back
    switched on, and outside a preview, every callback of a group with a
    light theme is suspended on its request when the run returns: the
    array holds the log file, the root catalog file when enabled and one
    namespace marker for every group, and none of the per-token files,
    which the run has created by then; each suspended callback, resumed,
    yields the per-token files of its group.  Otherwise no callback is left
    suspended, and the array holds the per-token files too, behind all the
    markers. *)
Theorem older_export_and_its_callbacks
        (sdk : Supernova.t) (context : PulsarContext.t) (w : World)
        (files : list AnyOutputFile)
        (suspended : list (M (list AnyOutputFile))) (w' : World) :
  Older.export sdk context w = Returned (files, suspended) w' ->
  let root :=
    if ExporterConfiguration.generateRootCatalog exportConfiguration
    then [rootCatalogFile] else [] in
  let runtime := runtimeOf sdk context in
  exists themes new,
    selection sdk context (remoteOf context) = inr themes
    /\ events w' = events (withLogger resolveRootPath w) ++ new
    /\ createdFiles new
       = root
         ++ flat_map (fun g =>
                        TextFile (namespaceFileOf resolveRootPath g)
                        :: groupTokenFiles runtime g)
                     (olderGroupsOf themes)
    /\ (ExporterConfiguration.writeNameToProperty exportConfiguration
        && negb (PulsarContext.isPreview context) = true ->
        files
        = LoggerFile
          :: root
          ++ map (fun g => TextFile (namespaceFileOf resolveRootPath g))
                 (olderGroupsOf themes)
        /\ Forall2 (fun g rest => yields rest (groupTokenFiles runtime g))
                   (filter hasLight (olderGroupsOf themes)) suspended)
    /\ (ExporterConfiguration.writeNameToProperty exportConfiguration
        && negb (PulsarContext.isPreview context) = false ->
        files
        = LoggerFile
          :: root
          ++ map (fun g => TextFile (namespaceFileOf resolveRootPath g))
                 (olderGroupsOf themes)
          ++ flat_map (groupTokenFiles runtime)
                      (filter hasLight (olderGroupsOf themes))
        /\ suspended = []).
Proof.
  intros Hrun. cbv zeta.
  pose proof (older_export_trace sdk context w) as H. rewrite Hrun in H.
  destruct H as (new & Hev & themes & Hsel & Hc & Hout).
  exists themes, new. split; [exact Hsel|]. split; [exact Hev|].
  split; [exact Hc|]. unfold writeBackEnabled in Hout. cbn [fst snd] in Hout.
  destruct (ExporterConfiguration.writeNameToProperty exportConfiguration
            && negb (PulsarContext.isPreview context));
    split; intros He; try discriminate He; exact Hout.
Qed.

End OlderIndex.

(* ################################################################# *)
(** * The model on concrete inputs *)

Module Examples.

#[local] Existing Instance asciiHost.
#[local] Existing Instance Demo.utils.

Import Inputs.

(** *** The examples of the specification for [groupThemes] *)

Example groupThemes_pair :
  result (groupThemes [brandLight; brandDark] Demo.fresh)
  = Some [XcodeTheme.mk (str "Brand") (Some brandLight) (Some brandDark)].
Proof. vm_compute. reflexivity. Qed.

Example groupThemes_no_suffix :
  result (groupThemes [Demo.theme "b" "Brand"] Demo.fresh) = Some [].
Proof. vm_compute. reflexivity. Qed.

Example groupThemes_duplicate :
  groupThemes [Demo.theme "a1" "A Light"; Demo.theme "a2" "A Light"]
              Demo.started
  = Returned
      [XcodeTheme.mk (str "A") (Some (Demo.theme "a2" "A Light")) None]
      (logs [str "Duplicate light theme found for base 'A'. Replacing existing theme."]
            Demo.started).
Proof. vm_compute. reflexivity. Qed.

(** The same call in a process that has not created its logger: the
    warning is the content of the log file. *)
Example groupThemes_duplicate_file :
  option_map OutputTextFile.content
    (deref (final (groupThemes [Demo.theme "a1" "A Light";
                                Demo.theme "a2" "A Light"] Demo.fresh))
           LoggerFile)
  = Some (str "Duplicate light theme found for base 'A'. Replacing existing theme.").
Proof. vm_compute. reflexivity. Qed.

Example groupThemes_empty :
  groupThemes [] Demo.fresh = Returned [] Demo.fresh.
Proof. reflexivity. Qed.

(** A name is classified by its last word, whatever stands before the
    word boundary; the group order follows the classified themes. *)
Example getThemeVariant_examples :
  map getThemeVariant
      [str "Brand Light"; str "  brand-DARK  "; str "Light"; str "Highlight";
       str "Brand_light"; str "Brand Light 2"; str "Brand"]
  = [Some ThemeVariant.light; Some ThemeVariant.dark;
     Some ThemeVariant.light; None; None; None; None].
Proof. vm_compute. reflexivity. Qed.

Example groupThemes_order_skips_unclassified :
  option_map (map XcodeTheme.name)
    (result (groupThemes [Demo.theme "b" "Brand";
                          Demo.theme "a" "Acme Light";
                          brandLight] Demo.fresh))
  = Some [str "Acme"; str "Brand"].
Proof. vm_compute. reflexivity. Qed.

(** *** Runs of the entry point *)

Lemma exportRun_eq :
  @export asciiHost configuration Demo.utils Demo.sdk selected Demo.fresh
  = Returned exportedFiles (final exportRun).
Proof. vm_compute. reflexivity. Defined.

Lemma export_returns_every_emitted_file_witness :
  @export asciiHost configuration Demo.utils Demo.sdk selected Demo.fresh
  = Returned exportedFiles (final exportRun)
  /\ (forall f, In (FileCreated f) (events (final exportRun)) ->
                In f exportedFiles)
  /\ List.length exportedFiles = 5.
Proof.
  split; [exact exportRun_eq|].
  destruct (@export_returns_every_emitted_file asciiHost configuration
              Demo.utils Demo.sdk selected Demo.fresh exportedFiles
              (final exportRun) exportRun_eq)
    as (themes & new & _ & Hev & Hall & _).
  split; [|reflexivity].
  intros f Hf. apply Hall. rewrite Hev in Hf. exact Hf.
Defined.

Lemma export_resolves_or_throws_witness :
  PulsarContext.themeIds selected
  = Some [str "th-l"; str "th-d"; str "th-n"]
  /\ [str "th-l"; str "th-d"; str "th-n"] <> []
  /\ exists resolved files w',
      Forall2 (fun i t =>
                 In t (Supernova.getTokenThemes Demo.sdk (remoteOf selected))
                 /\ idMatches i t)
              [str "th-l"; str "th-d"; str "th-n"] resolved
      /\ @export asciiHost configuration Demo.utils Demo.sdk selected
                 Demo.fresh
         = Returned files w'.
Proof.
  split; [reflexivity|]. split; [discriminate|].
  destruct (@export_resolves_or_throws asciiHost configuration Demo.utils
              Demo.sdk selected Demo.fresh
              [str "th-l"; str "th-d"; str "th-n"] eq_refl
              ltac:(discriminate))
    as [Hall _].
  destruct Hall as (resolved & files & w' & Hres & Hrun & _).
  - intros i [<-|[<-|[<-|[]]]].
    + exists brandLight. split; [now left|now left].
    + exists brandDark. split; [right; now left|now left].
    + exists nightDark. split; [right; right; now left|now left].
  - exists resolved, files, w'. split; assumption.
Defined.

Example export_throws_on_unknown_theme :
  @export asciiHost configuration Demo.utils Demo.sdk
          (Demo.context ["th-l"; "missing"; "th-n"]%string) Demo.fresh
  = Thrown (str "Unable to find theme missing")
           (final (@export asciiHost configuration Demo.utils Demo.sdk
                           (Demo.context ["th-l"; "missing"; "th-n"]%string)
                           Demo.fresh)).
Proof. vm_compute. reflexivity. Qed.


(** The same group in the context of the run of [export], where [t2] is in
    the excluded collection: [t1] has a value under both themes. *)
Example exportThemeGroup_requests :
  requests (events (final (@exportThemeGroup Demo.utils runtime brand
                                             Demo.started)))
  = [(Token.mk (str "t1") TokenType.color (Some (str "c1"))
               (str "#111111@Brand Light"),
      str "Colors.xcassets/Brand",
      [Token.mk (str "t1") TokenType.color (Some (str "c1"))
                (str "#111111@Brand Dark")])].
Proof. vm_compute. reflexivity. Qed.

(** The first run of a process: [t2] is in the collection [LEGACY], which
    the configuration excludes as [ Legacy ], and no per-token file is
    requested for it. *)
Lemma filterExcludedCollections_drops_excluded_witness :
  globalLogger Demo.fresh = None
  /\ (exists w',
        @filterExcludedCollections asciiHost configuration
          (firstn 2 Demo.tokens)
          (Supernova.getTokenCollections Demo.sdk (remoteOf selected))
          Demo.fresh
        = Returned (firstn 1 Demo.tokens) w')
  /\ forall baseToken colorsPath variants,
      In (PerTokenFileRequested baseToken colorsPath variants)
         (events (final exportRun)) ->
      Token.id baseToken = str "t1".
Proof.
  split; [reflexivity|].
  destruct (@filterExcludedCollections_drops_excluded asciiHost
              configuration Demo.utils (firstn 2 Demo.tokens)
              (Supernova.getTokenCollections Demo.sdk (remoteOf selected))
              Demo.fresh)
    as [(kept & w' & Hrun & _ & Hon & _) Hexport].
  split.
  - destruct (Hon eq_refl ltac:(discriminate)) as (_ & Hkept & _).
    exists w'. rewrite Hrun, Hkept. reflexivity.
  - intros baseToken colorsPath variants Hin.
    destruct (Hexport eq_refl ltac:(discriminate) Demo.sdk selected
                exportedFiles (final exportRun) exportRun_eq
                baseToken colorsPath variants Hin)
      as [[]|(token & Hid & Hcolor & Htoken & Hkept)].
    rewrite Hid.
    destruct Htoken as [<-|[<-|[<-|[]]]]; [reflexivity| |discriminate].
    destruct Hkept.
    exists (TokenCollection.mk (str "c2") (str "LEGACY")). split.
    + exists [TokenCollection.mk (str "c1") (str "Core")], [].
      split; [reflexivity|]. split; [reflexivity|].
      intros c [<-|[]]. discriminate.
    + left. vm_compute. reflexivity.
Defined.

Lemma exportThemeGroup_without_light_theme_witness :
  globalLogger Demo.started <> None
  /\ XcodeTheme.lightTheme night = None
  /\ exists marker w',
      @exportThemeGroup Demo.utils runtime night Demo.started
      = Returned [TextFile marker] w'
      /\ events w' = [FileCreated (TextFile marker)]
      /\ OutputTextFile.path marker = str "./Colors.xcassets/Night"
      /\ OutputTextFile.name marker = str "Contents.json".
Proof.
  split; [discriminate|]. split; [reflexivity|].
  destruct (@exportThemeGroup_without_light_theme Demo.utils runtime night
              Demo.started ltac:(discriminate) eq_refl)
    as (w' & Hrun & Hev & _).
  eexists _, w'. split; [exact Hrun|]. split; [exact Hev|].
  split; reflexivity.
Defined.

End Examples.

(* ################################################################# *)
(** * The earlier revision on concrete inputs *)

Module OlderExamples.

#[local] Existing Instance asciiHost.
#[local] Existing Instance Demo.utils.

Import Inputs.

(** The earlier revision asks for white space before the suffix: a name
    that is the suffix alone, or that joins it with a hyphen, has no
    variant there, and has one in the current revision. *)
Example older_suffix_needs_white_space :
  map (fun name => (Older.isLightThemeName name, getThemeVariant name))
      [str "Brand Light"; str "Light"; str "Brand-Light"]
  = [(true, Some ThemeVariant.light); (false, Some ThemeVariant.light);
     (false, Some ThemeVariant.light)].
Proof. vm_compute. reflexivity. Qed.

(** The earlier revision replaces a duplicate as the current one does, and
    logs its progress lines only: no warning. *)
Example older_groupThemes_duplicate :
  let run :=
    Older.groupThemes [Demo.theme "a1" "A Light"; Demo.theme "a2" "A Light"]
                      Demo.started in
  result run
  = Some [XcodeTheme.mk (str "A") (Some (Demo.theme "a2" "A Light")) None]
  /\ logged (final run)
     = [str "Grouping 2 themes";
        str "Processing theme: A Light";
        str "Base name from theme " ++ quoted "A Light" ++ str " is "
        ++ quoted "A";
        str "Processing theme: A Light, base: A, light: yes, dark: no";
        str "Processing theme: A Light";
        str "Base name from theme " ++ quoted "A Light" ++ str " is "
        ++ quoted "A";
        str "Processing theme: A Light, base: A, light: yes, dark: no";
        str "Grouping theme base: A, light: yes, dark: no"].
Proof. vm_compute. split; reflexivity. Qed.

(** In the earlier revision a theme without a variant takes the place of
    its base name in the order. *)
Example older_groupThemes_order :
  option_map (map XcodeTheme.name)
    (result (Older.groupThemes [Demo.theme "b" "Brand";
                                Demo.theme "a" "Acme Light";
                                brandLight] Demo.fresh))
  = Some [str "Brand"; str "Acme"].
Proof. vm_compute. reflexivity. Qed.

(** The earlier revision returns before the callbacks of [forEach] have
    pushed the per-token files: with the write-back enabled, the run has
    created the colour set of [t1], and the array it returns holds the log
    file, the root catalog and the namespace marker only. *)
Example older_export_returns_before_token_files :
  let tokenFile :=
    TextFile
      (OutputTextFile.mk (str "./Colors.xcassets/Brand/t1.colorset")
         (str "Contents.json")
         (str "#111111@Brand Light,#111111@Brand Dark")) in
  In (FileCreated tokenFile) (events (final olderRun))
  /\ option_map fst (result olderRun)
     = Some [LoggerFile;
             TextFile (createCatalogRootFile (str "Colors.xcassets"));
             TextFile (createNameSpaceFolder (str "Brand")
                                             (str "Colors.xcassets"))]
  /\ option_map (fun r => List.length (snd r)) (result olderRun) = Some 1.
Proof.
  vm_compute. split; [|split; reflexivity].
  right. right. right. right. left. reflexivity.
Qed.

(** The current revision, on the same input, returns the per-token files
    too. *)
Example current_export_same_input :
  option_map (@List.length _)
    (result (@export asciiHost (Demo.pulsar true false true) Demo.utils
                     Demo.sdk (Demo.context ["th-l"; "th-d"]%string)
                     Demo.fresh))
  = Some 5.
Proof. vm_compute. reflexivity. Qed.

End OlderExamples.

(* ################################################################# *)
(** * The further properties on concrete inputs *)

Module FurtherExamples.

#[local] Existing Instance asciiHost.
#[local] Existing Instance Demo.utils.

Import Inputs.
Import FurtherInputs.

Lemma name_padding_is_ignored_witness :
  Forall (fun c => isWhiteSpace c = true) (str "  ")
  /\ Forall (fun c => isWhiteSpace c = true) [9%N; 10%N]
  /\ getThemeVariant (str "  " ++ str "Brand Light" ++ [9%N; 10%N])
     = getThemeVariant (str "Brand Light")
  /\ deriveBaseThemeName (str "  " ++ str "Brand Light" ++ [9%N; 10%N]) None
     = deriveBaseThemeName (str "Brand Light") None.
Proof.
  assert (Hpre : Forall (fun c => isWhiteSpace c = true) (str "  "))
    by (repeat constructor).
  assert (Hpost : Forall (fun c => isWhiteSpace c = true) [9%N; 10%N])
    by (repeat constructor).
  split; [exact Hpre|]. split; [exact Hpost|].
  exact (name_padding_is_ignored (str "  ") (str "Brand Light") [9%N; 10%N]
                                 None Hpre Hpost).
Defined.

Lemma export_lookup_failure_precedes_output_witness :
  PulsarContext.themeIds failing
  = Some [str "th-l"; str "missing"; str "th-n"]
  /\ (forall t,
        In t (Supernova.getTokenThemes Demo.sdk (remoteOf failing)) ->
        ~ idMatches (str "missing") t)
  /\ exists w',
      @export asciiHost configuration Demo.utils Demo.sdk failing Demo.fresh
      = Thrown (str "Unable to find theme missing") w'
      /\ events w' = [FileCreated LoggerFile].
Proof.
  assert (Hno : forall t,
             In t (Supernova.getTokenThemes Demo.sdk (remoteOf failing)) ->
             ~ idMatches (str "missing") t).
  { intros t Hin.
    change (In t [brandLight; brandDark; nightDark]) in Hin.
    destruct Hin as [<-|[<-|[<-|[]]]]; intros Hm; destruct Hm as [H|H];
      vm_compute in H; discriminate H. }
  split; [reflexivity|]. split; [exact Hno|].
  destruct (@export_lookup_failure_precedes_output asciiHost configuration
              Demo.utils Demo.sdk failing Demo.fresh
              [str "th-l"; str "missing"; str "th-n"] eq_refl
              (ex_intro _ (str "missing")
                 (conj (or_intror (or_introl eq_refl)) Hno)))
    as (pre & i & post & w' & _ & _ & _ & Hrun & Hev).
  exists w'. split; [|exact Hev].
  assert (H : @export asciiHost configuration Demo.utils Demo.sdk failing
                      Demo.fresh
              = Thrown (str "Unable to find theme missing")
                       (final (@export asciiHost configuration Demo.utils
                                       Demo.sdk failing Demo.fresh)))
    by (vm_compute; reflexivity).
  rewrite Hrun in H. injection H as He. rewrite Hrun, He. reflexivity.
Defined.

Lemma export_requests_and_write_backs_witness :
  @export asciiHost configuration Demo.utils Demo.sdk selected Demo.fresh
  = Returned exportedFiles (final exportRun)
  /\ exists new request,
      events (final exportRun) = [FileCreated LoggerFile] ++ new
      /\ requests new = [request]
      /\ Token.id (fst (fst request)) = str "t1"
      /\ snd (fst request) = str "Colors.xcassets/Brand"
      /\ writes new = [(str "xcodeName", firstn 1 Demo.tokens)].
Proof.
  assert (H : @export asciiHost configuration Demo.utils Demo.sdk selected
                      Demo.fresh
              = Returned exportedFiles (final exportRun))
    by (vm_compute; reflexivity).
  split; [exact H|].
  destruct (@export_requests_and_write_backs asciiHost configuration
              Demo.utils Demo.sdk selected Demo.fresh _ _ H)
    as (themes & new & Hsel & Hev & Hreq & Hwr).
  assert (Hthemes : themes = [brandLight; brandDark; nightDark]).
  { vm_compute in Hsel. injection Hsel as <-. reflexivity. }
  subst themes.
  assert (Hpairs : list_prod
                     (filter hasLight
                        (@groupsOf asciiHost
                           [brandLight; brandDark; nightDark]))
                     (@keptTokens asciiHost configuration Demo.sdk selected)
                   = [(brand, hd (Token.mk [] TokenType.color None [])
                                 Demo.tokens)])
    by (vm_compute; reflexivity).
  rewrite Hpairs in Hreq.
  inversion Hreq as [|gt request gts rest HP Hrest Hgt Hnew].
  destruct HP as [Hid Hpath].
  inversion Hrest as [Hgts Hnil|]. subst rest.
  exists new, request. split; [exact Hev|]. split; [symmetry; exact Hnew|].
  split; [exact Hid|]. split; [exact Hpath|]. exact Hwr.
Defined.

Lemma export_without_light_themes_witness :
  selection Demo.sdk darkOnly (remoteOf darkOnly)
  = inr [nightDark]
  /\ Forall (fun t => getThemeVariant (TokenTheme.name t)
                      <> Some ThemeVariant.light) [nightDark]
  /\ exists w' new,
      @export asciiHost configuration Demo.utils Demo.sdk darkOnly Demo.fresh
      = Returned
          [LoggerFile; @rootCatalogFile configuration Demo.utils;
           TextFile (@namespaceFileOf Demo.utils
                       (str "Colors.xcassets") night)]
          w'
      /\ requests new = [] /\ writes new = [].
Proof.
  assert (Hsel : selection Demo.sdk darkOnly
                            (remoteOf darkOnly) = inr [nightDark])
    by (vm_compute; reflexivity).
  assert (Hno : Forall (fun t => getThemeVariant (TokenTheme.name t)
                                 <> Some ThemeVariant.light) [nightDark]).
  { constructor; [|constructor]. vm_compute. discriminate. }
  split; [exact Hsel|]. split; [exact Hno|].
  destruct (@export_without_light_themes asciiHost configuration Demo.utils
              Demo.sdk darkOnly Demo.fresh [nightDark] Hsel Hno)
    as (w' & new & Hrun & _ & Hreq & Hwr).
  exists w', new. split; [|split; [exact Hreq|exact Hwr]].
  rewrite Hrun. vm_compute. reflexivity.
Defined.

Lemma export_log_file_witness :
  globalLogger Demo.fresh = None
  /\ exists file rest,
      deref (stateAfter (@export asciiHost configuration Demo.utils Demo.sdk
                                 selected Demo.fresh))
            LoggerFile
      = Some file
      /\ OutputTextFile.name file = str "log.txt"
      /\ OutputTextFile.path file = str "./Colors.xcassets/"
      /\ OutputTextFile.content file
         = join [10%N] (@header asciiHost selected ++ rest).
Proof.
  split; [reflexivity|].
  destruct (@export_log_file asciiHost configuration Demo.utils Demo.sdk
              selected Demo.fresh eq_refl)
    as (file & rest & Hfile & Hname & Hpath & _ & Hcontent).
  exists file, rest. split; [exact Hfile|]. split; [exact Hname|].
  split; [exact Hpath|exact Hcontent].
Defined.

Lemma createThemeColors_logs_its_requests_witness :
  globalLogger Demo.started = Some (Logger.new [])
  /\ exists files w' new,
      @createThemeColors Demo.utils runtime (str "Colors.xcassets/Brand")
                         brandLight (Some brandDark) Demo.started
      = Returned files w'
      /\ List.length (requests new) = 1
      /\ logged w'
         = @colorsLog Demo.utils runtime brandLight (Some brandDark)
                      (requests new).
Proof.
  split; [reflexivity|].
  destruct (@createThemeColors_logs_its_requests Demo.utils runtime
              (str "Colors.xcassets/Brand") brandLight (Some brandDark)
              Demo.started (Logger.new []) eq_refl)
    as (files & w' & new & Hrun & _ & _ & _ & Hlen & Hlog).
  exists files, w', new. split; [exact Hrun|].
  split; [exact Hlen|exact Hlog].
Defined.

Lemma older_variant_is_kept_witness :
  @lowerCaseKeepsPadding asciiHost (str " Brand  Light ")
  /\ (@Older.isLightThemeName asciiHost (str " Brand  Light ") = true ->
      getThemeVariant (str " Brand  Light ") = Some ThemeVariant.light).
Proof.
  assert (H : @lowerCaseKeepsPadding asciiHost (str " Brand  Light "))
    by (vm_compute; reflexivity).
  split; [exact H|].
  exact (proj1 (@older_variant_is_kept asciiHost (str " Brand  Light ") H)).
Defined.

Lemma older_groupThemes_agrees_witness :
  Forall (fun t => @olderClassified asciiHost (TokenTheme.name t) = true
                   /\ @lowerCaseKeepsPadding asciiHost (TokenTheme.name t))
         [brandLight; brandDark]
  /\ exists w1 w2,
      @Older.groupThemes asciiHost [brandLight; brandDark] Demo.fresh
      = Returned [brand] w1
      /\ groupThemes [brandLight; brandDark] Demo.fresh
         = Returned [brand] w2.
Proof.
  assert (H : Forall (fun t =>
                        @olderClassified asciiHost (TokenTheme.name t) = true
                        /\ @lowerCaseKeepsPadding asciiHost
                             (TokenTheme.name t))
                     [brandLight; brandDark]).
  { constructor; [split; vm_compute; reflexivity|].
    constructor; [split; vm_compute; reflexivity|constructor]. }
  split; [exact H|].
  destruct (@older_groupThemes_agrees asciiHost [brandLight; brandDark]
              Demo.fresh H)
    as (result & w1 & w2 & Holder & Hcurrent & Hresult & _).
  exists w1, w2. rewrite Holder, Hcurrent, Hresult.
  split; vm_compute; reflexivity.
Defined.

Lemma older_export_and_its_callbacks_witness :
  (exists files suspended w',
      olderRun = Returned (files, suspended) w'
      /\ files
         = [LoggerFile;
            TextFile (createCatalogRootFile (str "Colors.xcassets"));
            TextFile (@namespaceFileOf Demo.utils (str "Colors.xcassets")
                        brand)]
      /\ exists rest,
          suspended = [rest]
          /\ yields rest
               (@groupTokenFiles Demo.utils
                  (@runtimeOf asciiHost (Demo.pulsar true false true)
                              Demo.sdk pair)
                  brand))
  /\ exists files w',
      olderRunWithoutWriteBack = Returned (files, []) w'
      /\ files
         = [LoggerFile;
            TextFile (createCatalogRootFile (str "Colors.xcassets"));
            TextFile (@namespaceFileOf Demo.utils (str "Colors.xcassets")
                        brand)]
           ++ @groupTokenFiles Demo.utils
                (@runtimeOf asciiHost (Demo.pulsar true false false)
                            Demo.sdk pair)
                brand
      /\ List.length files = 5.
Proof.
  assert (Hgroups : @olderGroupsOf asciiHost [brandLight; brandDark]
                    = [brand]) by (vm_compute; reflexivity).
  split.
  - destruct olderRun as [[files suspended] w'|e w'] eqn:Hrun;
      [|vm_compute in Hrun; discriminate Hrun].
    destruct (@older_export_and_its_callbacks asciiHost
                (Demo.pulsar true false true) Demo.utils Demo.sdk pair
                Demo.fresh files suspended w' Hrun)
      as (themes & new & Hsel & _ & _ & Hon & _).
    assert (Hthemes : themes = [brandLight; brandDark]).
    { vm_compute in Hsel. injection Hsel as <-. reflexivity. }
    subst themes. destruct (Hon eq_refl) as [Hfiles Hy].
    rewrite Hgroups in Hfiles, Hy.
    exists files, suspended, w'. split; [reflexivity|].
    split; [exact Hfiles|].
    inversion Hy as [|g rest gs rests Hrest Hnil]; subst.
    inversion Hnil; subst. exists rest. split; [reflexivity|exact Hrest].
  - destruct olderRunWithoutWriteBack as [[files suspended] w'|e w'] eqn:Hrun;
      [|vm_compute in Hrun; discriminate Hrun].
    destruct (@older_export_and_its_callbacks asciiHost
                (Demo.pulsar true false false) Demo.utils Demo.sdk pair
                Demo.fresh files suspended w' Hrun)
      as (themes & new & Hsel & _ & _ & _ & Hoff).
    assert (Hthemes : themes = [brandLight; brandDark]).
    { vm_compute in Hsel. injection Hsel as <-. reflexivity. }
    subst themes. destruct (Hoff eq_refl) as [Hfiles ->].
    rewrite Hgroups in Hfiles.
    exists files, w'. split; [reflexivity|]. split.
    + rewrite Hfiles. cbn [filter hasLight isSome XcodeTheme.lightTheme
                           brand flat_map map app].
      now rewrite app_nil_r.
    + rewrite Hfiles. vm_compute. reflexivity.
Defined.

End FurtherExamples.
